(** * The browser-side key vault of the wallet dashboard

    A shallow embedding of the vault script that [internal/server/dashboard.go]
    serves inside [dashboardHTML]: the IndexedDB helpers, the WebCrypto
    wrappers, and the lock / unlock / import / generate / rename / switch
    operations over the script's global variables.

    JavaScript strings are sequences of UTF-16 code units and byte arrays are
    sequences of octets; both are lists of [Z].  JavaScript numbers that the
    script only uses as integers (indices, ids, counts) are [Z] or [nat], with
    [NaN] made explicit where [parseInt] can produce it. *)

From Stdlib Require Import Strings.String Strings.Ascii.
From Stdlib Require Import ZArith List Bool Lia.
From Stdlib Require Numbers.DecimalString Numbers.DecimalNat.
From stdpp Require Import base tactics option list.

Local Open Scope Z_scope.

Abbreviation jsstring := (list Z).
Abbreviation bytes := (list Z).

(** ** Strings and numbers of the host language *)

Module Js.

(** A source literal: every literal of the script is ASCII. *)
Definition lit (s : String.string) : jsstring :=
  map (fun a => Z.of_N (Ascii.N_of_ascii a)) (String.list_ascii_of_string s).
Arguments lit s%_string.

(** WhiteSpace and LineTerminator of ECMAScript, as [String.prototype.trim]
    and [parseInt] strip them. *)
Definition is_space (c : Z) : bool :=
  (c =? 0x09) || (c =? 0x0A) || (c =? 0x0B) || (c =? 0x0C) || (c =? 0x0D)
  || (c =? 0x20) || (c =? 0xA0) || (c =? 0x1680)
  || ((0x2000 <=? c) && (c <=? 0x200A))
  || (c =? 0x2028) || (c =? 0x2029) || (c =? 0x202F) || (c =? 0x205F)
  || (c =? 0x3000) || (c =? 0xFEFF).

Fixpoint trimStart (s : jsstring) : jsstring :=
  match s with
  | [] => []
  | c :: s' => if is_space c then trimStart s' else s
  end.

Definition trimEnd (s : jsstring) : jsstring := rev (trimStart (rev s)).

(** [s.trim()] *)
Definition trim (s : jsstring) : jsstring := trimEnd (trimStart s).

(** [s.startsWith(p)] *)
Fixpoint startsWith (p s : jsstring) : bool :=
  match p, s with
  | [], _ => true
  | a :: p', b :: s' => (a =? b) && startsWith p' s'
  | _ :: _, [] => false
  end.

(** [!s] on a string: only the empty string is falsy. *)
Definition falsy (s : jsstring) : bool :=
  match s with [] => true | _ => false end.

(** [a || b] on strings. *)
Definition or_else (a b : jsstring) : jsstring := if falsy a then b else a.

Definition is_digit (c : Z) : bool := (0x30 <=? c) && (c <=? 0x39).

Definition is_hex (c : Z) : bool :=
  is_digit c || ((0x61 <=? c) && (c <=? 0x66)) || ((0x41 <=? c) && (c <=? 0x46)).

(** Numbers: the script's integers, and the [NaN] of a failed [parseInt]. *)
Inductive num : Type :=
  | NaN
  | Int (z : Z).

Definition num_eqb (a b : num) : bool :=
  match a, b with
  | Int x, Int y => x =? y
  | _, _ => false          (* NaN === NaN is false *)
  end.

(** The value of the longest prefix of decimal digits. *)
Fixpoint digits_value (acc : Z) (s : jsstring) : Z :=
  match s with
  | [] => acc
  | c :: s' => if is_digit c then digits_value (10 * acc + (c - 0x30)) s' else acc
  end.

(** [parseInt(s, 10)]: leading white space, an optional sign, then as many
    decimal digits as there are; [NaN] when there is none. *)
Definition parseInt10 (s : jsstring) : num :=
  let s1 := trimStart s in
  let signed :=
    match s1 with
    | c :: r => if c =? 0x2D then (true, r)
                else if c =? 0x2B then (false, r) else (false, s1)
    | [] => (false, s1)
    end in
  match snd signed with
  | [] => NaN
  | c :: _ =>
      if is_digit c
      then Int (if fst signed then - digits_value 0 (snd signed)
                else digits_value 0 (snd signed))
      else NaN
  end.

(** [String(n)] for a count [n], as string concatenation applies it. *)
Definition of_nat (n : nat) : jsstring :=
  lit (DecimalString.NilZero.string_of_uint (Nat.to_uint n)).

(** [arr[i]]: [undefined] outside the array, for [NaN] and for a negative
    index. *)
Definition index {A} (l : list A) (i : num) : option A :=
  match i with
  | NaN => None
  | Int z => if z <? 0 then None else l !! Z.to_nat z
  end.

End Js.

(** ** TextEncoder and TextDecoder

    [new TextEncoder().encode(s)] turns the code units into scalar values (a
    surrogate without its partner becomes U+FFFD) and writes them in UTF-8.
    [new TextDecoder().decode(b)] is the UTF-8 decoder of the Encoding
    standard, with replacement of ill-formed sequences and with a leading
    byte-order mark dropped. *)

Module Utf8.

Definition is_high (c : Z) : bool := (0xD800 <=? c) && (c <=? 0xDBFF).
Definition is_low (c : Z) : bool := (0xDC00 <=? c) && (c <=? 0xDFFF).

Definition encode_scalar (cp : Z) : bytes :=
  if cp <? 0x80 then [cp]
  else if cp <? 0x800 then
    [Z.lor 0xC0 (Z.shiftr cp 6); Z.lor 0x80 (Z.land cp 0x3F)]
  else if cp <? 0x10000 then
    [Z.lor 0xE0 (Z.shiftr cp 12);
     Z.lor 0x80 (Z.land (Z.shiftr cp 6) 0x3F);
     Z.lor 0x80 (Z.land cp 0x3F)]
  else
    [Z.lor 0xF0 (Z.shiftr cp 18);
     Z.lor 0x80 (Z.land (Z.shiftr cp 12) 0x3F);
     Z.lor 0x80 (Z.land (Z.shiftr cp 6) 0x3F);
     Z.lor 0x80 (Z.land cp 0x3F)].

Fixpoint encode (s : jsstring) : bytes :=
  match s with
  | [] => []
  | c :: s' =>
      if is_high c then
        match s' with
        | d :: s'' =>
            if is_low d
            then encode_scalar (0x10000 + (c - 0xD800) * 0x400 + (d - 0xDC00))
                   ++ encode s''
            else encode_scalar 0xFFFD ++ encode s'
        | [] => encode_scalar 0xFFFD
        end
      else if is_low c then encode_scalar 0xFFFD ++ encode s'
      else encode_scalar c ++ encode s'
  end.

(** The decoder's registers: the code point under construction, the
    continuation bytes still expected, and the bounds of the next one. *)
Record dstate : Type := DState {
  code_point : Z;
  bytes_needed : nat;
  lower : Z;
  upper : Z
}.

Definition d0 : dstate := DState 0 0 0x80 0xBF.

(** A byte read while no sequence is open. *)
Definition lead (b : Z) : dstate * list Z :=
  if b <=? 0x7F then (d0, [b])
  else if (0xC2 <=? b) && (b <=? 0xDF) then
    (DState (Z.land b 0x1F) 1 0x80 0xBF, [])
  else if (0xE0 <=? b) && (b <=? 0xEF) then
    (DState (Z.land b 0xF) 2
       (if b =? 0xE0 then 0xA0 else 0x80) (if b =? 0xED then 0x9F else 0xBF), [])
  else if (0xF0 <=? b) && (b <=? 0xF4) then
    (DState (Z.land b 0x7) 3
       (if b =? 0xF0 then 0x90 else 0x80) (if b =? 0xF4 then 0x8F else 0xBF), [])
  else (d0, [0xFFFD]).

Definition step (st : dstate) (b : Z) : dstate * list Z :=
  match bytes_needed st with
  | O => lead b
  | S n =>
      if (lower st <=? b) && (b <=? upper st) then
        let cp := Z.lor (Z.shiftl (code_point st) 6) (Z.land b 0x3F) in
        match n with
        | O => (d0, [cp])
        | S _ => (DState cp n 0x80 0xBF, [])
        end
      else
        (* the byte is put back and read again with no sequence open *)
        let '(st', out) := lead b in (st', 0xFFFD :: out)
  end.

Fixpoint run (st : dstate) (bs : bytes) : list Z :=
  match bs with
  | [] => match bytes_needed st with O => [] | S _ => [0xFFFD] end
  | b :: bs' => let '(st', out) := step st b in out ++ run st' bs'
  end.

(** A scalar value as one or two code units. *)
Definition units (cp : Z) : jsstring :=
  if cp <? 0x10000 then [cp]
  else [0xD800 + Z.shiftr (cp - 0x10000) 10; 0xDC00 + Z.land (cp - 0x10000) 0x3FF].

Definition strip_bom (cps : list Z) : list Z :=
  match cps with
  | c :: r => if c =? 0xFEFF then r else cps
  | [] => []
  end.

Definition decode (bs : bytes) : jsstring :=
  concat (map units (strip_bom (run d0 bs))).

End Utf8.

(** ** Typed arrays

    A [Uint8Array] is a sequence of octets; what IndexedDB stores is the plain
    array of numbers that [Array.from] makes of it, and [new Uint8Array(arr)]
    reads such an array back, each number taken modulo 256. *)

Abbreviation Uint8Array := (list Byte.byte).

Definition octet (b : Byte.byte) : Z := Z.of_N (Byte.to_N b).

Definition to_octet (z : Z) : Byte.byte :=
  match Byte.of_N (Z.to_N (z mod 256)) with
  | Some b => b
  | None => Byte.x00
  end.

(** [Array.from(u8)] *)
Definition Array_from (u : Uint8Array) : list Z := map octet u.

(** [new Uint8Array(arr)] *)
Definition Uint8Array_from (a : list Z) : Uint8Array := map to_octet a.

(** [new TextEncoder().encode(s)] and [new TextDecoder().decode(u)] *)
Definition TextEncoder_encode (s : jsstring) : Uint8Array :=
  Uint8Array_from (Utf8.encode s).

Definition TextDecoder_decode (u : Uint8Array) : jsstring :=
  Utf8.decode (Array_from u).

(** ** WebCrypto

    [crypto.subtle] is the platform's: the four primitives the script reaches
    through it are the operations of a class, and a [CryptoKey] records what
    [importKey] and [deriveKey] were asked for next to the key bits, which the
    script itself can never read when [extractable] is false. *)

Inductive Hash : Type := SHA_1 | SHA_256 | SHA_384 | SHA_512.

Inductive Algorithm : Type :=
  | HKDF
  | PBKDF2
  | AES_GCM (length : Z).

Inductive KeyUsage : Type := usage_encrypt | usage_decrypt | usage_deriveKey.

Record CryptoKey : Type := {
  algorithm : Algorithm;
  extractable : bool;
  usages : list KeyUsage;
  material : Uint8Array
}.

Inductive DeriveParams : Type :=
  | HkdfParams (salt info : Uint8Array) (hash : Hash)
  | Pbkdf2Params (salt : Uint8Array) (iterations : Z) (hash : Hash).

Class SubtleCrypto : Type := {
  hkdf : Hash -> Uint8Array -> Uint8Array -> Uint8Array -> Z -> Uint8Array;
    (* hash, salt, info, input key material, bits *)
  pbkdf2 : Hash -> Uint8Array -> Uint8Array -> Z -> Z -> Uint8Array;
    (* hash, password, salt, iterations, bits *)
  aes_gcm_encrypt : Uint8Array -> Uint8Array -> Uint8Array -> Uint8Array;
    (* key, iv, plaintext *)
  aes_gcm_decrypt : Uint8Array -> Uint8Array -> Uint8Array -> option Uint8Array
    (* key, iv, ciphertext; nothing when the tag does not verify *)
}.

(** What AES-GCM promises: a ciphertext opens under the key and IV that made
    it. *)
Class AesGcmSound (C : SubtleCrypto) : Prop :=
  decrypt_encrypt :
    forall key iv plaintext,
      aes_gcm_decrypt key iv (aes_gcm_encrypt key iv plaintext) = Some plaintext.

(** ** Errors and completions *)

Record Error : Type := {
  name : jsstring;
  message : jsstring
}.

Definition mkError (msg : jsstring) : Error :=
  {| name := Js.lit "Error"; message := msg |}.

Definition TypeError (msg : jsstring) : Error :=
  {| name := Js.lit "TypeError"; message := msg |}.

Definition OperationError : Error :=
  {| name := Js.lit "OperationError"; message := [] |}.

Definition DataError : Error :=
  {| name := Js.lit "DataError"; message := [] |}.

Inductive completion (A : Type) : Type :=
  | Normal (a : A)
  | Throw (e : Error).
Arguments Normal {A} a.
Arguments Throw {A} e.

(** ** Persistent records *)

(** A row of the [credentials] store.  The script writes two shapes of it and
    tells them apart by which properties are there; an absent property is
    [None]. *)
Record Credential : Type := {
  cred_id : jsstring;
  cred_method : option jsstring;
  cred_credentialId : option (list Z);
  cred_rpId : option jsstring;
  cred_transports : option (list jsstring);
  cred_pbkdf2Salt : option (list Z);
  cred_createdAt : Z
}.

(** The object handed to [saveEncryptedKey]: a key row before the store has
    given it an id. *)
Record KeyData : Type := {
  new_label : jsstring;
  new_address : jsstring;
  new_encrypted : list Z;
  new_iv : list Z;
  new_createdAt : Z
}.

(** A row of the [keys] store. *)
Record KeyRecord : Type := {
  rec_id : Z;
  rec_label : jsstring;
  rec_address : jsstring;
  rec_encrypted : list Z;
  rec_iv : list Z;
  rec_createdAt : Z
}.

Definition with_id (k : Z) (d : KeyData) : KeyRecord :=
  {| rec_id := k; rec_label := new_label d; rec_address := new_address d;
     rec_encrypted := new_encrypted d; rec_iv := new_iv d;
     rec_createdAt := new_createdAt d |}.

(** [rec.label = newLabel] *)
Definition set_rec_label (l : jsstring) (r : KeyRecord) : KeyRecord :=
  {| rec_id := rec_id r; rec_label := l; rec_address := rec_address r;
     rec_encrypted := rec_encrypted r; rec_iv := rec_iv r;
     rec_createdAt := rec_createdAt r |}.

(** ** The [keys] object store

    [{ keyPath: 'id', autoIncrement: true }]: rows are kept in ascending order
    of their key, [getAll] returns them in that order, [put] of a row without
    an id takes the key generator's number, and [put] of a row with an id
    replaces the row of that id (or inserts it, moving the generator past
    it). *)

Module Idb.

Fixpoint put (r : KeyRecord) (rows : list KeyRecord) : list KeyRecord :=
  match rows with
  | [] => [r]
  | x :: rows' =>
      if rec_id r <? rec_id x then r :: x :: rows'
      else if rec_id r =? rec_id x then r :: rows'
      else x :: put r rows'
  end.

Fixpoint get (k : Z) (rows : list KeyRecord) : option KeyRecord :=
  match rows with
  | [] => None
  | x :: rows' => if rec_id x =? k then Some x else get k rows'
  end.

Fixpoint delete (k : Z) (rows : list KeyRecord) : list KeyRecord :=
  match rows with
  | [] => []
  | x :: rows' => if rec_id x =? k then rows' else x :: delete k rows'
  end.

(** Ascending ids, all of them handed out by the generator already. *)
Fixpoint ascending (lo : Z) (rows : list KeyRecord) : Prop :=
  match rows with
  | [] => True
  | x :: rows' => lo < rec_id x /\ ascending (rec_id x) rows'
  end.

Definition below (gen : Z) (rows : list KeyRecord) : Prop :=
  Forall (fun x => rec_id x < gen) rows.

End Idb.

(** ** The world outside the script

    The two object stores of the [wallet-vault] database, and the answers of
    the platform to the calls whose result the script cannot determine: random
    bytes, the time, the wallets [ethers.Wallet.createRandom()] makes, the
    authenticator's assertions, and whether the ethers script can be fetched.
    Each of these is a sequence of answers with the number already consumed.
    Every [put] into [credentials] uses the id ['primary'], so that store holds
    at most one row. *)

Record Wallet : Type := {
  privateKey : jsstring;
  wallet_address : jsstring
}.

(** The outcome of [navigator.credentials.get] with the PRF extension: the
    promise rejects, or an assertion comes back, with or without a PRF
    result. *)
Inductive Assertion : Type :=
  | Rejected (e : Error)
  | Asserted (prf_first : option Uint8Array).

Record World : Type := {
  credentials : option Credential;
  keys : list KeyRecord;
  keyGenerator : Z;
  entropy : nat -> Byte.byte;
  drawn : nat;
  clock : nat -> Z;
  ticks : nat;
  minted : nat -> Wallet;
  mints : nat;
  authenticator : nat -> Assertion;
  prompts : nat;
  cdn : bool
}.

Definition set_credentials (c : option Credential) (w : World) : World :=
  {| credentials := c; keys := keys w; keyGenerator := keyGenerator w;
     entropy := entropy w; drawn := drawn w; clock := clock w; ticks := ticks w;
     minted := minted w; mints := mints w;
     authenticator := authenticator w; prompts := prompts w; cdn := cdn w |}.

Definition set_keys (rows : list KeyRecord) (gen : Z) (w : World) : World :=
  {| credentials := credentials w; keys := rows; keyGenerator := gen;
     entropy := entropy w; drawn := drawn w; clock := clock w; ticks := ticks w;
     minted := minted w; mints := mints w;
     authenticator := authenticator w; prompts := prompts w; cdn := cdn w |}.

Definition set_drawn (n : nat) (w : World) : World :=
  {| credentials := credentials w; keys := keys w; keyGenerator := keyGenerator w;
     entropy := entropy w; drawn := n; clock := clock w; ticks := ticks w;
     minted := minted w; mints := mints w;
     authenticator := authenticator w; prompts := prompts w; cdn := cdn w |}.

Definition set_ticks (n : nat) (w : World) : World :=
  {| credentials := credentials w; keys := keys w; keyGenerator := keyGenerator w;
     entropy := entropy w; drawn := drawn w; clock := clock w; ticks := n;
     minted := minted w; mints := mints w;
     authenticator := authenticator w; prompts := prompts w; cdn := cdn w |}.

Definition set_mints (n : nat) (w : World) : World :=
  {| credentials := credentials w; keys := keys w; keyGenerator := keyGenerator w;
     entropy := entropy w; drawn := drawn w; clock := clock w; ticks := ticks w;
     minted := minted w; mints := n;
     authenticator := authenticator w; prompts := prompts w; cdn := cdn w |}.

Definition set_prompts (n : nat) (w : World) : World :=
  {| credentials := credentials w; keys := keys w; keyGenerator := keyGenerator w;
     entropy := entropy w; drawn := drawn w; clock := clock w; ticks := ticks w;
     minted := minted w; mints := mints w;
     authenticator := authenticator w; prompts := n; cdn := cdn w |}.

(** [new ethers.Wallet(key).address]: the address of a private key, or nothing
    when the constructor throws. *)
Class Ethers : Type := {
  computeAddress : jsstring -> option jsstring
}.

(** ** The script's global state

    [decryptedKeys] is an array of objects; the objects live in [objects] and
    the array holds their positions there, so that writing a property of an
    entry is a write to the object, seen by whoever holds it. *)

Inductive WalletState : Type := none | locked | unlocked.

Record DecryptedKey : Type := {
  dk_id : Z;
  dk_label : jsstring;
  dk_address : jsstring;
  dk_key : jsstring
}.

Definition set_dk_key (k : jsstring) (o : DecryptedKey) : DecryptedKey :=
  {| dk_id := dk_id o; dk_label := dk_label o; dk_address := dk_address o;
     dk_key := k |}.

Definition set_dk_label (l : jsstring) (o : DecryptedKey) : DecryptedKey :=
  {| dk_id := dk_id o; dk_label := l; dk_address := dk_address o;
     dk_key := dk_key o |}.

Record Session : Type := {
  walletState : WalletState;
  objects : list DecryptedKey;
  decryptedKeys : list nat;
  activeKeyIndex : Js.num;
  aesKey : option CryptoKey;
  storedKeyCount : nat;
  credMethod : jsstring;
  ethersLoaded : bool
}.

Definition set_walletState (x : WalletState) (s : Session) : Session :=
  {| walletState := x; objects := objects s; decryptedKeys := decryptedKeys s;
     activeKeyIndex := activeKeyIndex s; aesKey := aesKey s;
     storedKeyCount := storedKeyCount s; credMethod := credMethod s;
     ethersLoaded := ethersLoaded s |}.

Definition set_objects (x : list DecryptedKey) (s : Session) : Session :=
  {| walletState := walletState s; objects := x; decryptedKeys := decryptedKeys s;
     activeKeyIndex := activeKeyIndex s; aesKey := aesKey s;
     storedKeyCount := storedKeyCount s; credMethod := credMethod s;
     ethersLoaded := ethersLoaded s |}.

Definition set_decryptedKeys (x : list nat) (s : Session) : Session :=
  {| walletState := walletState s; objects := objects s; decryptedKeys := x;
     activeKeyIndex := activeKeyIndex s; aesKey := aesKey s;
     storedKeyCount := storedKeyCount s; credMethod := credMethod s;
     ethersLoaded := ethersLoaded s |}.

Definition set_activeKeyIndex (x : Js.num) (s : Session) : Session :=
  {| walletState := walletState s; objects := objects s;
     decryptedKeys := decryptedKeys s; activeKeyIndex := x; aesKey := aesKey s;
     storedKeyCount := storedKeyCount s; credMethod := credMethod s;
     ethersLoaded := ethersLoaded s |}.

Definition set_aesKey (x : option CryptoKey) (s : Session) : Session :=
  {| walletState := walletState s; objects := objects s;
     decryptedKeys := decryptedKeys s; activeKeyIndex := activeKeyIndex s;
     aesKey := x; storedKeyCount := storedKeyCount s; credMethod := credMethod s;
     ethersLoaded := ethersLoaded s |}.

Definition set_storedKeyCount (x : nat) (s : Session) : Session :=
  {| walletState := walletState s; objects := objects s;
     decryptedKeys := decryptedKeys s; activeKeyIndex := activeKeyIndex s;
     aesKey := aesKey s; storedKeyCount := x; credMethod := credMethod s;
     ethersLoaded := ethersLoaded s |}.

Definition set_credMethod (x : jsstring) (s : Session) : Session :=
  {| walletState := walletState s; objects := objects s;
     decryptedKeys := decryptedKeys s; activeKeyIndex := activeKeyIndex s;
     aesKey := aesKey s; storedKeyCount := storedKeyCount s; credMethod := x;
     ethersLoaded := ethersLoaded s |}.

Definition set_ethersLoaded (x : bool) (s : Session) : Session :=
  {| walletState := walletState s; objects := objects s;
     decryptedKeys := decryptedKeys s; activeKeyIndex := activeKeyIndex s;
     aesKey := aesKey s; storedKeyCount := storedKeyCount s;
     credMethod := credMethod s; ethersLoaded := x |}.

(** The globals as the script declares them. *)
Definition initial : Session :=
  {| walletState := none; objects := []; decryptedKeys := [];
     activeKeyIndex := Js.Int 0; aesKey := None; storedKeyCount := 0%nat;
     credMethod := []; ethersLoaded := false |}.

(** The object an array slot points to. *)
Definition blank : DecryptedKey :=
  {| dk_id := 0; dk_label := []; dk_address := []; dk_key := [] |}.

Definition deref (s : Session) (r : nat) : DecryptedKey :=
  default blank (objects s !! r).

(** The entries of [decryptedKeys], read through the array. *)
Definition entries (s : Session) : list DecryptedKey :=
  map (deref s) (decryptedKeys s).

(** ** Computations of the script

    An [async] function run to completion: it reads and writes the world and
    the globals, and either returns or throws; what it wrote before throwing
    stays written. *)

Abbreviation Page := (World * Session)%type.

Definition M (A : Type) : Type := Page -> completion A * Page.

#[global] Instance M_ret : MRet M := fun A a p => (Normal a, p).

#[global] Instance M_bind : MBind M := fun A B f m p =>
  match m p with
  | (Normal a, p') => f a p'
  | (Throw e, p') => (Throw e, p')
  end.

Definition throw {A} (e : Error) : M A := fun p => (Throw e, p).

(** [try { m } catch (err) { h err }] *)
Definition try_catch {A} (m : M A) (h : Error -> M A) : M A := fun p =>
  match m p with
  | (Normal a, p') => (Normal a, p')
  | (Throw e, p') => h e p'
  end.

Definition world {A} (f : World -> A) : M A := fun p => (Normal (f p.1), p).
Definition global {A} (f : Session -> A) : M A := fun p => (Normal (f p.2), p).
Definition write_world (f : World -> World) : M unit :=
  fun p => (Normal tt, (f p.1, p.2)).
Definition assign (f : Session -> Session) : M unit :=
  fun p => (Normal tt, (p.1, f p.2)).

(** What a handler leaves for the user to see: nothing, a message in the
    modal's error element, or an error on the console (a dismissed
    authenticator prompt is not even logged). *)
Inductive Report : Type :=
  | Completed
  | Shown (msg : jsstring)
  | Logged (e : Error)
  | Dismissed.

(** ** Constants *)

Definition PRF_SALT : Uint8Array := TextEncoder_encode (Js.lit "wallet-encryption-v1").
Definition HKDF_INFO : Uint8Array :=
  TextEncoder_encode (Js.lit "AES-GCM Wallet Encryption Key V1").
Definition PBKDF2_ITERATIONS : Z := 600000.

(** [/^0x[0-9a-fA-F]{64}$/.test(key)] *)
Definition key_pattern_test (key : jsstring) : bool :=
  match key with
  | c0 :: c1 :: digits =>
      (c0 =? 0x30) && (c1 =? 0x78) && (length digits =? 64)%nat
      && forallb Js.is_hex digits
  | _ => false
  end.

Section Vault.

Context {crypto : SubtleCrypto} {ethers : Ethers}.

(** ** Platform calls *)

(** [crypto.getRandomValues(new Uint8Array(n))] *)
Definition getRandomValues (n : nat) : M Uint8Array := fun p =>
  (Normal (map (entropy p.1) (seq (drawn p.1) n)),
   (set_drawn (drawn p.1 + n) p.1, p.2)).

(** [Date.now()] *)
Definition Date_now : M Z := fun p =>
  (Normal (clock p.1 (ticks p.1)), (set_ticks (S (ticks p.1)) p.1, p.2)).

(** [ethers.Wallet.createRandom()] *)
Definition createRandom : M Wallet := fun p =>
  (Normal (minted p.1 (mints p.1)), (set_mints (S (mints p.1)) p.1, p.2)).

(** [new ethers.Wallet(key)], for its address *)
Definition new_Wallet (key : jsstring) : M jsstring :=
  match computeAddress key with
  | Some a => mret a
  | None => throw (mkError (Js.lit "invalid private key"))
  end.

(** [navigator.credentials.get({publicKey: ...})] *)
Definition credentials_get : M Assertion := fun p =>
  (Normal (authenticator p.1 (prompts p.1)), (set_prompts (S (prompts p.1)) p.1, p.2)).

(** [crypto.subtle.importKey('raw', keyData, algorithm, extractable, usages)] *)
Definition importKey_raw (keyData : Uint8Array) (alg : Algorithm)
    (ext : bool) (use : list KeyUsage) : CryptoKey :=
  {| algorithm := alg; extractable := ext; usages := use; material := keyData |}.

Definition key_bits (alg : Algorithm) : Z :=
  match alg with AES_GCM n => n | _ => 0 end.

(** [crypto.subtle.deriveKey(params, baseKey, derivedAlgorithm, extractable, usages)] *)
Definition deriveKey (params : DeriveParams) (base : CryptoKey)
    (derived : Algorithm) (ext : bool) (use : list KeyUsage) : CryptoKey :=
  {| algorithm := derived; extractable := ext; usages := use;
     material :=
       match params with
       | HkdfParams salt info h => hkdf h salt info (material base) (key_bits derived)
       | Pbkdf2Params salt n h => pbkdf2 h (material base) salt n (key_bits derived)
       end |}.

(** ** IndexedDB helpers *)

Definition saveCredential (cred : Credential) : M unit :=
  write_world (set_credentials (Some cred)).

Definition getCredential : M (option Credential) := world credentials.

Definition saveEncryptedKey (record : KeyData) : M unit :=
  write_world (fun w =>
    set_keys (Idb.put (with_id (keyGenerator w) record) (keys w))
             (keyGenerator w + 1) w).

Definition getEncryptedKeys : M (list KeyRecord) := world keys.

Definition deleteEncryptedKey (id : Z) : M unit :=
  write_world (fun w => set_keys (Idb.delete id (keys w)) (keyGenerator w) w).

(** ** Crypto helpers *)

Definition deriveAESKeyFromPRF (prfOutput : Uint8Array) : CryptoKey :=
  let keyMaterial := importKey_raw prfOutput HKDF false [usage_deriveKey] in
  deriveKey (HkdfParams PRF_SALT HKDF_INFO SHA_256) keyMaterial
    (AES_GCM 256) false [usage_encrypt; usage_decrypt].

Definition deriveAESKeyFromPassword (password : jsstring) (salt : Uint8Array)
    : CryptoKey :=
  let keyMaterial :=
    importKey_raw (TextEncoder_encode password) PBKDF2 false [usage_deriveKey] in
  deriveKey (Pbkdf2Params salt PBKDF2_ITERATIONS SHA_256) keyMaterial
    (AES_GCM 256) false [usage_encrypt; usage_decrypt].

Definition encryptPrivateKey (plaintext : jsstring) (key : CryptoKey)
    : M (Uint8Array * Uint8Array) :=
  iv ← getRandomValues 12;
  let encoded := TextEncoder_encode plaintext in
  let encrypted := aes_gcm_encrypt (material key) iv encoded in
  mret (encrypted, iv).

Definition decryptPrivateKey (encrypted iv : Uint8Array) (key : CryptoKey)
    : M jsstring :=
  match aes_gcm_decrypt (material key) iv encrypted with
  | Some decrypted => mret (TextDecoder_decode decrypted)
  | None => throw OperationError
  end.

(** The global [aesKey] where a [CryptoKey] is required: a [null] there makes
    the WebCrypto call throw. *)
Definition the_aesKey : M CryptoKey :=
  k ← global aesKey;
  match k with
  | Some key => mret key
  | None => throw (TypeError (Js.lit "parameter 2 is not of type 'CryptoKey'"))
  end.

(** ** Rendering

    The renderers write the page only.  What the vault operations see of them
    is whether they throw: they read [decryptedKeys[activeKeyIndex].address],
    a [TypeError] when that slot is [undefined]. *)

Definition undefined_address : Error :=
  TypeError (Js.lit "Cannot read properties of undefined (reading 'address')").

Definition renderWalletBar : M unit :=
  s ← global id;
  match walletState s with
  | unlocked =>
      if (0 <? length (decryptedKeys s))%nat then
        match Js.index (decryptedKeys s) (activeKeyIndex s) with
        | Some active => mret tt
        | None => throw undefined_address
        end
      else mret tt
  | _ => mret tt
  end.

Definition getActiveAddress : M jsstring :=
  s ← global id;
  match walletState s with
  | unlocked =>
      if (length (decryptedKeys s) =? 0)%nat then mret []
      else
        match Js.index (decryptedKeys s) (activeKeyIndex s) with
        | Some r => mret (dk_address (deref s r))
        | None => throw undefined_address
        end
  | _ => mret []
  end.

Definition renderEndpoints : M unit := _ ← getActiveAddress; mret tt.

Definition renderAccounts : M unit := mret tt.

(** [refresh()] is not awaited and catches what its renderers throw. *)
Definition refresh : M unit := mret tt.

(** [ensureEthers()] *)
Definition ensureEthers : M unit :=
  global ethersLoaded ≫= fun loaded : bool =>
  if loaded then mret tt
  else
    world cdn ≫= fun up : bool =>
    if up then assign (set_ethersLoaded true)
    else throw (mkError (Js.lit "Failed to load ethers.js")).

(** ** Init *)

Definition init : M unit :=
  try_catch
    (cred ← getCredential;
     match cred with
     | Some c =>
         keys ← getEncryptedKeys;
         assign (set_storedKeyCount (length keys));;
         assign (set_credMethod
                   (match cred_method c with
                    | Some m => Js.or_else m (Js.lit "prf")
                    | None => Js.lit "prf"
                    end));;
         assign (set_walletState locked)
     | None => mret tt
     end)
    (fun e => mret tt);;
  renderWalletBar;;
  refresh.

(** ** Password setup *)

Definition setupWithPassword (pw confirm : jsstring) : M Report :=
  if Js.falsy pw then mret (Shown (Js.lit "Please enter a password."))
  else if (length pw <? 8)%nat then
    mret (Shown (Js.lit "Password must be at least 8 characters."))
  else if negb (bool_decide (pw = confirm)) then
    mret (Shown (Js.lit "Passwords do not match."))
  else
    try_catch
      (salt ← getRandomValues 32;
       assign (set_aesKey (Some (deriveAESKeyFromPassword pw salt)));;
       now ← Date_now;
       saveCredential
         {| cred_id := Js.lit "primary"; cred_method := Some (Js.lit "password");
            cred_credentialId := None; cred_rpId := None; cred_transports := None;
            cred_pbkdf2Salt := Some (Array_from salt); cred_createdAt := now |};;
       assign (set_credMethod (Js.lit "password"));;
       assign (set_walletState unlocked);;
       assign (set_decryptedKeys []);;
       assign (set_storedKeyCount 0);;
       renderWalletBar;;
       mret Completed)
      (fun err => mret (Shown (Js.lit "Setup failed: " ++ message err))).

(** ** Unlock *)

(** [decryptedKeys.push({...})]: a new object, and its slot at the end of the
    array. *)
Definition push (o : DecryptedKey) : M unit :=
  assign (fun s =>
    set_decryptedKeys (decryptedKeys s ++ [length (objects s)])
      (set_objects (objects s ++ [o]) s)).

Fixpoint decryptAllKeys_loop (encryptedKeys : list KeyRecord) : M unit :=
  match encryptedKeys with
  | [] => mret tt
  | rec :: rest =>
      key ← the_aesKey;
      plaintext ← decryptPrivateKey (Uint8Array_from (rec_encrypted rec))
                    (Uint8Array_from (rec_iv rec)) key;
      push {| dk_id := rec_id rec; dk_label := rec_label rec;
              dk_address := rec_address rec; dk_key := plaintext |};;
      decryptAllKeys_loop rest
  end.

Definition decryptAllKeys : M unit :=
  encryptedKeys ← getEncryptedKeys;
  assign (set_decryptedKeys []);;
  decryptAllKeys_loop encryptedKeys;;
  assign (set_activeKeyIndex (Js.Int 0));;
  assign (fun s => set_storedKeyCount (length (decryptedKeys s)) s).

Definition unlockWallet : M Report :=
  method ← global credMethod;
  if bool_decide (method = Js.lit "password") then mret Completed
  else
    try_catch
      (stored ← getCredential;
       match stored with
       | None => throw (mkError (Js.lit "No credential found."))
       | Some _ =>
           challenge ← getRandomValues 32;
           assertion ← credentials_get;
           match assertion with
           | Rejected e => throw e
           | Asserted None => throw (mkError (Js.lit "PRF evaluation failed."))
           | Asserted (Some first) =>
               assign (set_aesKey (Some (deriveAESKeyFromPRF first)));;
               decryptAllKeys;;
               assign (set_walletState unlocked);;
               renderWalletBar;;
               refresh;;
               mret Completed
           end
       end)
      (fun err =>
         renderWalletBar;;
         mret (if bool_decide (name err = Js.lit "NotAllowedError")
               then Dismissed else Logged err)).

Definition unlockWithPassword (pw : jsstring) : M Report :=
  if Js.falsy pw then mret (Shown (Js.lit "Please enter your password."))
  else
    try_catch
      (stored ← getCredential;
       match stored ≫= cred_pbkdf2Salt with
       | None => throw (mkError (Js.lit "No password credential found."))
       | Some pbkdf2Salt =>
           let salt := Uint8Array_from pbkdf2Salt in
           assign (set_aesKey (Some (deriveAESKeyFromPassword pw salt)));;
           decryptAllKeys;;
           assign (set_walletState unlocked);;
           renderWalletBar;;
           refresh;;
           mret Completed
       end)
      (fun err =>
         assign (set_aesKey None);;
         mret (Shown (Js.lit "Wrong password or decryption failed."))).

(** ** Lock *)

(** [for (i...) decryptedKeys[i].key = ''], slot after slot *)
Fixpoint lockWallet_wipe (slots : list nat) : M unit :=
  match slots with
  | [] => mret tt
  | r :: rest =>
      assign (fun s => set_objects (alter (set_dk_key []) r (objects s)) s);;
      lockWallet_wipe rest
  end.

Definition lockWallet : M unit :=
  slots ← global decryptedKeys;
  lockWallet_wipe slots;;
  assign (set_decryptedKeys []);;
  assign (set_aesKey None);;
  assign (set_activeKeyIndex (Js.Int 0));;
  assign (set_walletState locked);;
  (* expandedAccounts.clear(); accountBalances = {}: display caches *)
  renderWalletBar;;
  renderEndpoints;;
  renderAccounts.

(** ** Adding keys *)

(** ['Key ' + (storedKeyCount + 1)] *)
Definition default_label (count : nat) : jsstring :=
  Js.lit "Key " ++ Js.of_nat (count + 1).

(** The common tail of import and generate: encrypt, persist, read the rows
    back for the id the store gave, and make the new entry the active one. *)
Definition store_key (label address key : jsstring) : M unit :=
  aes ← the_aesKey;
  '(encrypted, iv) ← encryptPrivateKey key aes;
  now ← Date_now;
  saveEncryptedKey
    {| new_label := label; new_address := address;
       new_encrypted := Array_from encrypted; new_iv := Array_from iv;
       new_createdAt := now |};;
  allKeys ← getEncryptedKeys;
  match last allKeys with
  | None => throw (TypeError (Js.lit "Cannot read properties of undefined (reading 'id')"))
  | Some newest =>
      push {| dk_id := rec_id newest; dk_label := label; dk_address := address;
              dk_key := key |};;
      assign (fun s =>
        set_activeKeyIndex (Js.Int (Z.of_nat (length (decryptedKeys s)) - 1)) s);;
      assign (fun s => set_storedKeyCount (length (decryptedKeys s)) s)
  end.

Definition doImportKey (labelInput keyInput : jsstring) : M Report :=
  count ← global storedKeyCount;
  let label := Js.or_else (Js.trim labelInput) (default_label count) in
  let key := Js.trim keyInput in
  if Js.falsy key then mret (Shown (Js.lit "Please enter a private key."))
  else
    let key := if Js.startsWith (Js.lit "0x") key then key else Js.lit "0x" ++ key in
    if negb (key_pattern_test key) then
      mret (Shown (Js.lit "Invalid key format. Expected 64 hex characters."))
    else
      aes ← global aesKey;
      match aes with
      | None => mret (Shown (Js.lit "Wallet is not unlocked. Please unlock first."))
      | Some _ =>
          try_catch
            (ensureEthers;;
             address ← new_Wallet key;
             store_key label address key;;
             renderWalletBar;;
             refresh;;
             mret Completed)
            (fun err => mret (Shown (Js.lit "Failed: " ++ message err)))
      end.

Definition generateKey : M Report :=
  aes ← global aesKey;
  match aes with
  | None => mret (Shown (Js.lit "Wallet is not unlocked."))
  | Some _ =>
      try_catch
        (ensureEthers;;
         wallet ← createRandom;
         let key := privateKey wallet in
         let address := wallet_address wallet in
         count ← global storedKeyCount;
         let label := default_label count in
         store_key label address key;;
         renderWalletBar;;
         refresh;;
         mret Completed)
        (fun err => mret (Shown (Js.lit "Failed: " ++ message err)))
  end.

(** ** Switching the active key *)

Definition switchKey (index : jsstring) : M unit :=
  assign (set_activeKeyIndex (Js.parseInt10 index));;
  renderWalletBar;;
  refresh.

(** ** Renaming *)

Definition updateKeyLabel (id : Js.num) (newLabel : jsstring) : M unit :=
  match id with
  | Js.NaN => throw DataError
  | Js.Int k =>
      rows ← getEncryptedKeys;
      match Idb.get k rows with
      | None => throw (mkError (Js.lit "Key not found"))
      | Some rec =>
          write_world (fun w =>
            set_keys (Idb.put (set_rec_label newLabel rec) (keys w))
                     (Z.max (keyGenerator w) (k + 1)) w)
      end
  end.

(** [decryptedKeys.find(k => k.id === keyId)] *)
Definition find_entry (keyId : Js.num) (s : Session) : option nat :=
  find (fun r => Js.num_eqb (Js.Int (dk_id (deref s r))) keyId) (decryptedKeys s).

Definition doRenameKey (keyIdInput labelInput : jsstring) : M Report :=
  let keyId := Js.parseInt10 keyIdInput in
  let newLabel := Js.trim labelInput in
  if Js.falsy newLabel then mret (Shown (Js.lit "Label cannot be empty."))
  else
    try_catch
      (updateKeyLabel keyId newLabel;;
       dk ← global (find_entry keyId);
       match dk with
       | Some r =>
           assign (fun s => set_objects (alter (set_dk_label newLabel) r (objects s)) s)
       | None => mret tt
       end;;
       renderWalletBar;;
       renderAccounts;;
       mret Completed)
      (fun err => mret (Shown (Js.lit "Failed: " ++ message err))).

End Vault.

(** ** A small platform to run the script on

    Stand-ins for the platform's primitives, simple enough to compute with:
    key derivation pads its inputs to 32 octets, and a "ciphertext" is the
    plaintext behind the key and IV it was sealed with, refused unless both
    match.  The world has a password credential, a clock, a source of octets
    and of wallets. *)

Module Toy.

Definition pad32 (l : Uint8Array) : Uint8Array :=
  take 32 (l ++ repeat Byte.x00 32).

Fixpoint strip (prefix l : Uint8Array) : option Uint8Array :=
  match prefix, l with
  | [], _ => Some l
  | a :: prefix', b :: l' =>
      if Byte.eqb a b then strip prefix' l' else None
  | _ :: _, [] => None
  end.

Definition crypto : SubtleCrypto :=
  {| hkdf := fun _ salt info ikm _ => pad32 (ikm ++ salt ++ info);
     pbkdf2 := fun _ password salt _ _ => pad32 (password ++ salt);
     aes_gcm_encrypt := fun key iv plaintext => key ++ iv ++ plaintext;
     aes_gcm_decrypt := fun key iv ciphertext => strip (key ++ iv) ciphertext |}.

(** An address is cut out of the key; the all-zero key has none. *)
Definition ethers : Ethers :=
  {| computeAddress := fun key =>
       if forallb (Z.eqb 0x30) (drop 2 key) then None
       else Some (take 42 key) |}.

(** The wallet whose key repeats one hexadecimal digit. *)
Definition wallet_of (digit : Z) : Wallet :=
  {| privateKey := Js.lit "0x" ++ repeat digit 64;
     wallet_address := Js.lit "0x" ++ repeat digit 40 |}.

Definition wallet (n : nat) : Wallet :=
  nth n [wallet_of 0x32; wallet_of 0x33; wallet_of 0x34; wallet_of 0x35]
    (wallet_of 0x36).

Definition octets : Uint8Array :=
  Uint8Array_from
    [0x01; 0x08; 0x0f; 0x16; 0x1d; 0x24; 0x2b; 0x32; 0x39; 0x40; 0x47; 0x4e;
     0x55; 0x5c; 0x63; 0x6a; 0x71; 0x78; 0x7f; 0x86; 0x8d; 0x94; 0x9b; 0xa2;
     0xa9; 0xb0; 0xb7; 0xbe; 0xc5; 0xcc; 0xd3; 0xda; 0xe1; 0xe8; 0xef; 0xf6;
     0xfd; 0x04; 0x0b; 0x12; 0x19; 0x20; 0x27; 0x2e; 0x35; 0x3c; 0x43; 0x4a;
     0x51; 0x58; 0x5f; 0x66; 0x6d; 0x74; 0x7b; 0x82; 0x89; 0x90; 0x97; 0x9e;
     0xa5; 0xac; 0xb3; 0xba; 0xc1; 0xc8; 0xcf; 0xd6; 0xdd; 0xe4; 0xeb; 0xf2;
     0xf9; 0x00; 0x07; 0x0e; 0x15; 0x1c; 0x23; 0x2a].

Definition world : World :=
  {| credentials := None; keys := []; keyGenerator := 1;
     entropy := fun n => nth n octets Byte.x2a; drawn := 0;
     clock := fun n => nth n [1700000000000; 1700000000001; 1700000000002]
                         1700000000003;
     ticks := 0;
     minted := wallet; mints := 0;
     authenticator := fun _ => Asserted (Some (Uint8Array_from [1; 2; 3; 4]));
     prompts := 0; cdn := true |}.

Definition password : jsstring := Js.lit "correcthorse1".

Definition key_11 : jsstring := Js.lit "0x" ++ repeat 0x31 64.

(** A vault set up with [password], holding the imported [key_11] and one
    generated key. *)
Definition fresh : Page :=
  (@setupWithPassword crypto password password (world, initial)).2.

Definition one_key : Page :=
  (@doImportKey crypto ethers (Js.lit "Main") key_11 fresh).2.

Definition two_keys : Page := (@generateKey crypto one_key).2.

(** The second row's ciphertext damaged in the store. *)
Definition damage (r : KeyRecord) : KeyRecord :=
  {| rec_id := rec_id r; rec_label := rec_label r; rec_address := rec_address r;
     rec_encrypted := 0 :: tail (rec_encrypted r); rec_iv := rec_iv r;
     rec_createdAt := rec_createdAt r |}.

Definition damaged (w : World) : World :=
  set_keys (match keys w with
            | r1 :: r2 :: rest => r1 :: damage r2 :: rest
            | rows => rows
            end) (keyGenerator w) w.

(** The page loaded again over the damaged store. *)
Definition reloaded : Page := (init (damaged two_keys.1, initial)).2.

(** The same with an authenticator credential, and rows sealed under the key
    of its PRF output. *)
Definition prf_output : Uint8Array := Uint8Array_from [1; 2; 3; 4].

Definition prf_credential : Credential :=
  {| cred_id := Js.lit "primary"; cred_method := Some (Js.lit "prf");
     cred_credentialId := Some [9; 9; 9]; cred_rpId := Some (Js.lit "wallet.localhost");
     cred_transports := Some [Js.lit "internal"]; cred_pbkdf2Salt := None;
     cred_createdAt := 1700000000000 |}.

Definition prf_fresh : Page :=
  (set_credentials (Some prf_credential) world,
   set_walletState unlocked
     (set_credMethod (Js.lit "prf")
        (set_aesKey (Some (@deriveAESKeyFromPRF crypto prf_output)) initial))).

Definition prf_two_keys : Page :=
  (@generateKey crypto (@doImportKey crypto ethers (Js.lit "Main") key_11 prf_fresh).2).2.

Definition prf_reloaded : Page := (init (damaged prf_two_keys.1, initial)).2.

End Toy.

(** ** What the specification's words mean on the script's state *)

(** A string of code units below 0x80. *)
Definition ascii (s : jsstring) : Prop := Forall (fun c => 0 <= c < 0x80) s.

(** The key input as [doImportKey] normalises it before the pattern test. *)
Definition normalized_key (keyInput : jsstring) : jsstring :=
  let key := Js.trim keyInput in
  if Js.startsWith (Js.lit "0x") key then key else Js.lit "0x" ++ key.

(** No slot of [decryptedKeys] dangles and no object sits in two slots: each
    [push] makes a new object. *)
Definition well_formed (s : Session) : Prop :=
  Forall (fun r => (r < length (objects s))%nat) (decryptedKeys s)
  /\ NoDup (decryptedKeys s).

(** Locked as the data model has it: no key, no entry, the index at rest. *)
Definition clean_locked (s : Session) : Prop :=
  walletState s = locked /\ aesKey s = None /\ decryptedKeys s = []
  /\ activeKeyIndex s = Js.Int 0.

(** The entry list after a rename: the first entry of that id gets the
    label. *)
Fixpoint relabel_first (k : Z) (l : jsstring) (es : list DecryptedKey)
    : list DecryptedKey :=
  match es with
  | [] => []
  | e :: es' =>
      if dk_id e =? k then set_dk_label l e :: es'
      else e :: relabel_first k l es'
  end.

(** The objects after the wiping loop of [lockWallet] has gone over
    [slots]. *)
Definition wiped (slots : list nat) (objs : list DecryptedKey)
    : list DecryptedKey :=
  fold_left (fun o r => alter (set_dk_key []) r o) slots objs.

(** The row that import and generate persist, the world once it is written,
    and the globals once the entry is pushed and made active. *)
Definition stored_record {crypto : SubtleCrypto} (w : World) (aes : CryptoKey)
    (label address key : jsstring) : KeyRecord :=
  let iv := map (entropy w) (seq (drawn w) 12) in
  {| rec_id := keyGenerator w; rec_label := label; rec_address := address;
     rec_encrypted :=
       Array_from (aes_gcm_encrypt (material aes) iv (TextEncoder_encode key));
     rec_iv := Array_from iv; rec_createdAt := clock w (ticks w) |}.

Definition world_after_store (w : World) (rec : KeyRecord) : World :=
  set_keys (keys w ++ [rec]) (keyGenerator w + 1)
    (set_ticks (S (ticks w)) (set_drawn (drawn w + 12) w)).

Definition session_after_store (s : Session) (o : DecryptedKey) : Session :=
  set_storedKeyCount (length (decryptedKeys s ++ [length (objects s)]))
    (set_activeKeyIndex
       (Js.Int (Z.of_nat (length (decryptedKeys s ++ [length (objects s)])) - 1))
       (set_decryptedKeys (decryptedKeys s ++ [length (objects s)])
          (set_objects (objects s ++ [o]) s))).

(** ** Rows and entries in step *)

(** The entry [decryptAllKeys] pushes for a row once its ciphertext has
    opened. *)
Definition entry_of (r : KeyRecord) (plaintext : jsstring) : DecryptedKey :=
  {| dk_id := rec_id r; dk_label := rec_label r; dk_address := rec_address r;
     dk_key := plaintext |}.

(** What [decryptPrivateKey] makes of a row under a key: the decoded
    plaintext, or nothing when the cipher refuses. *)
Definition opens {crypto : SubtleCrypto} (aes : CryptoKey) (r : KeyRecord)
    : option jsstring :=
  TextDecoder_decode
    <$> aes_gcm_decrypt (material aes) (Uint8Array_from (rec_iv r))
          (Uint8Array_from (rec_encrypted r)).

(** The entry list mirrors the store: one entry per row, in the store's
    order, carrying the row's id, label and address and the plaintext the
    row's ciphertext opens to under the session key. *)
Definition synced {crypto : SubtleCrypto} (aes : CryptoKey) (w : World)
    (s : Session) : Prop :=
  Forall2 (fun e r => opens aes r = Some (dk_key e) /\ e = entry_of r (dk_key e))
    (entries s) (keys w).

(** The globals after [decryptAllKeys] has opened every row. *)
Definition session_after_unlock (s : Session) (aes : CryptoKey)
    (es : list DecryptedKey) : Session :=
  set_walletState unlocked
    (set_storedKeyCount (length es)
       (set_activeKeyIndex (Js.Int 0)
          (set_decryptedKeys (seq (length (objects s)) (length es))
             (set_objects (objects s ++ es) (set_aesKey (Some aes) s))))).

(** The credential row [setupWithPassword] writes, and the page it leaves. *)
Definition password_credential (salt : Uint8Array) (now : Z) : Credential :=
  {| cred_id := Js.lit "primary"; cred_method := Some (Js.lit "password");
     cred_credentialId := None; cred_rpId := None; cred_transports := None;
     cred_pbkdf2Salt := Some (Array_from salt); cred_createdAt := now |}.

Definition world_after_setup (w : World) : World :=
  set_credentials
    (Some (password_credential (map (entropy w) (seq (drawn w) 32))
             (clock w (ticks w))))
    (set_ticks (S (ticks w)) (set_drawn (drawn w + 32) w)).

Definition session_after_setup {crypto : SubtleCrypto} (pw : jsstring)
    (w : World) (s : Session) : Session :=
  set_storedKeyCount 0
    (set_decryptedKeys []
       (set_walletState unlocked
          (set_credMethod (Js.lit "password")
             (set_aesKey
                (Some (deriveAESKeyFromPassword pw
                         (map (entropy w) (seq (drawn w) 32)))) s)))).

(** The [keys] store as IndexedDB keeps it: ids ascending from 1, all of
    them below the key generator. *)
Definition store_ok (w : World) : Prop :=
  Idb.ascending 0 (keys w) /\ Idb.below (keyGenerator w) (keys w)
  /\ 0 < keyGenerator w.

(** An unlocked vault in good order: the session key is held, the entry
    array is sound, the store is in order, and the entries mirror the rows. *)
Definition vault_ok {crypto : SubtleCrypto} (aes : CryptoKey) (w : World)
    (s : Session) : Prop :=
  walletState s = unlocked /\ aesKey s = Some aes /\ well_formed s
  /\ store_ok w /\ synced aes w s.

(** The page after a rename that found its row. *)
Definition world_after_rename (w : World) (k : Z) (r : KeyRecord)
    (newLabel : jsstring) : World :=
  set_keys (Idb.put (set_rec_label newLabel r) (keys w))
    (Z.max (keyGenerator w) (k + 1)) w.

Definition session_after_rename (s : Session) (k : Z) (newLabel : jsstring)
    : Session :=
  match find_entry (Js.Int k) s with
  | Some r0 => set_objects (alter (set_dk_label newLabel) r0 (objects s)) s
  | None => s
  end.

Module ToyMore.

(** A page whose authenticator prompt is dismissed by the user. *)
Definition dismissing : World :=
  {| credentials := Some Toy.prf_credential; keys := []; keyGenerator := 1;
     entropy := entropy Toy.world; drawn := 0;
     clock := clock Toy.world; ticks := 0;
     minted := Toy.wallet; mints := 0;
     authenticator := fun _ =>
       Rejected {| name := Js.lit "NotAllowedError";
                   message := Js.lit "The operation was not allowed." |};
     prompts := 0; cdn := true |}.

Definition dismissing_page : Page := (init (dismissing, initial)).2.

(** The page a failed authenticator unlock leaves: Locked, key still held. *)
Definition locked_with_key : Page := (@unlockWallet Toy.crypto Toy.prf_reloaded).2.

End ToyMore.

(** * The endpoint store of the server

    [internal/endpoint/endpoint.go]: the list of RPC endpoints that the
    dashboard's endpoint forms add to, edit and delete.  A Go string is its
    sequence of bytes.  Every method holds the store's mutex from its first
    access to the list to its return, so a method is one step on the store
    and the disk. *)

Module endpoint.

Abbreviation gostring := (list Z).

Record Endpoint : Type := {
  ID : gostring;
  Name : gostring;
  URL : gostring;
  Symbol : gostring
}.

(** [Endpoint{}] *)
Definition zero : Endpoint := {| ID := []; Name := []; URL := []; Symbol := [] |}.

(** [ep.ID = id] *)
Definition with_ID (ep : Endpoint) (id : gostring) : Endpoint :=
  {| ID := id; Name := Name ep; URL := URL ep; Symbol := Symbol ep |}.

(** Go's [error] values, by the way they are built: [fmt.Errorf] of a
    constant message, of [prefix: %w] around a cause, of
    [endpoint %q not found], and the errors of the libraries. *)
Inductive error : Type :=
  | Errorf (message : gostring)
  | Wrap (prefix : gostring) (cause : error)
  | NotFound (id : gostring)
  | Library (code : nat).

(** The library calls whose result depends on Unicode tables or on the URL
    grammar. *)
Class Strings : Type := {
  TrimSpace : gostring -> gostring;
  ToLower : gostring -> gostring;
  ParseRequestURI : gostring -> option error
}.

Record Store : Type := {
  endpoints : list Endpoint;
  path : gostring
}.

Definition set_endpoints (s : Store) (eps : list Endpoint) : Store :=
  {| endpoints := eps; path := path s |}.

(** The file system as [save] meets it: [faults k] is the error of the
    [k]-th [os.WriteFile], if it fails; [saved] is the list whose JSON
    document the last successful write stored. *)
Record Disk : Type := {
  faults : nat -> option error;
  writes : nat;
  saved : option (list Endpoint)
}.

(** [s.save()]: marshalling a list of records of strings cannot fail, so the
    only error is the one of [os.WriteFile]. *)
Definition save (s : Store) (d : Disk) : option error * Disk :=
  match faults d (writes d) with
  | Some e =>
      (Some (Wrap (Js.lit "write endpoints: ") e),
       {| faults := faults d; writes := S (writes d); saved := saved d |})
  | None =>
      (None,
       {| faults := faults d; writes := S (writes d);
          saved := Some (endpoints s) |})
  end.

(** The class [[a-z0-9-]] whose complement [slugRe] matches. *)
Definition slug_byte (c : Z) : bool :=
  ((0x61 <=? c) && (c <=? 0x7A)) || ((0x30 <=? c) && (c <=? 0x39)) || (c =? 0x2D).

(** [strings.ReplaceAll(s, " ", "-")] *)
Definition ReplaceAll_space_hyphen (s : gostring) : gostring :=
  map (fun c => if c =? 0x20 then 0x2D else c) s.

(** [slugRe.ReplaceAllString(s, "")]: every maximal run of characters
    outside the class is removed.  A byte of a multi-byte or malformed
    sequence is at least 0x80 and belongs to a character outside the class,
    so exactly the bytes of the class stay. *)
Definition slugRe_ReplaceAllString_empty (s : gostring) : gostring :=
  List.filter slug_byte s.

Fixpoint TrimLeft_hyphen (s : gostring) : gostring :=
  match s with
  | [] => []
  | c :: s' => if c =? 0x2D then TrimLeft_hyphen s' else s
  end.

(** [strings.Trim(s, "-")] *)
Definition Trim_hyphen (s : gostring) : gostring :=
  rev (TrimLeft_hyphen (rev (TrimLeft_hyphen s))).

Section Methods.

Context `{strings : Strings}.

Definition slugify (name : gostring) : gostring :=
  let s := ToLower (TrimSpace name) in
  let s := ReplaceAll_space_hyphen s in
  let s := slugRe_ReplaceAllString_empty s in
  let s := Trim_hyphen s in
  match s with
  | [] => Js.lit "endpoint"
  | _ => s
  end.

(** The four checks that open [Add] and [Update], in their order. *)
Definition validate (ep : Endpoint) : option error :=
  if decide (TrimSpace (Name ep) = []) then
    Some (Errorf (Js.lit "name is required"))
  else if decide (TrimSpace (URL ep) = []) then
    Some (Errorf (Js.lit "url is required"))
  else
    match ParseRequestURI (URL ep) with
    | Some err => Some (Wrap (Js.lit "invalid url: ") err)
    | None =>
        if decide (TrimSpace (Symbol ep) = []) then
          Some (Errorf (Js.lit "symbol is required"))
        else None
    end.

(** The index at which a loop over the list that tests [ID == id] stops:
    the loop of [findLocked] and the [range] loops of [Update] and
    [Delete]. *)
Fixpoint first_index (id : gostring) (eps : list Endpoint) : option nat :=
  match eps with
  | [] => None
  | e :: eps' =>
      if decide (ID e = id) then Some O
      else option_map S (first_index id eps')
  end.

(** [s.findLocked(id)]: a pointer to the element, or [nil]. *)
Definition findLocked (s : Store) (id : gostring) : option nat :=
  first_index id (endpoints s).

(** [fmt.Sprintf("%s-%d", base, n)] *)
Definition Sprintf_s_d (base : gostring) (n : nat) : gostring :=
  base ++ Js.lit "-" ++ Js.lit (DecimalString.NilZero.string_of_uint (Nat.to_uint n)).

(** [for n := 2; s.findLocked(id) != nil; n++ { id = Sprintf(base, n) }],
    with a bound on the number of tests of the condition. *)
Fixpoint unique_id (fuel : nat) (s : Store) (base id : gostring) (n : nat)
  : option gostring :=
  match fuel with
  | O => None
  | S fuel' =>
      match findLocked s id with
      | Some _ => unique_id fuel' s base (Sprintf_s_d base n) (S n)
      | None => Some id
      end
  end.

(** [s.Add(ep)]; [None] when the loop needs more than [fuel] tests. *)
Definition Add (fuel : nat) (ep : Endpoint) (s : Store) (d : Disk)
  : option (Endpoint * option error * Store * Disk) :=
  match validate ep with
  | Some err => Some (zero, Some err, s, d)
  | None =>
      let base := slugify (Name ep) in
      match unique_id fuel s base base 2 with
      | None => None
      | Some id =>
          let ep := with_ID ep id in
          let s1 := set_endpoints s (endpoints s ++ [ep]) in
          match save s1 d with
          | (Some err, d') =>
              Some (zero, Some err,
                    set_endpoints s1
                      (take (length (endpoints s1) - 1) (endpoints s1)), d')
          | (None, d') => Some (ep, None, s1, d')
          end
      end
  end.

(** [s.Update(id, ep)] *)
Definition Update (id : gostring) (ep : Endpoint) (s : Store) (d : Disk)
  : Endpoint * option error * Store * Disk :=
  match validate ep with
  | Some err => (zero, Some err, s, d)
  | None =>
      match first_index id (endpoints s) with
      | Some i =>
          let ep := with_ID ep id in
          let old := nth i (endpoints s) zero in
          let s1 := set_endpoints s (<[i := ep]> (endpoints s)) in
          match save s1 d with
          | (Some err, d') =>
              (zero, Some err, set_endpoints s1 (<[i := old]> (endpoints s1)), d')
          | (None, d') => (ep, None, s1, d')
          end
      | None => (zero, Some (NotFound id), s, d)
      end
  end.

(** [append(a[:i], a[i+1:]...)] for [i < len(a)]: the result fits in the
    array under [a], so the elements after [i] are copied one cell down in
    place and the last cell keeps its value.  The first component is the
    slice returned; the second is what a slice header taken of [a] before
    the call, [old := a], reads afterwards from the same array. *)
Definition remove_in_place (i : nat) (a : list Endpoint)
  : list Endpoint * list Endpoint :=
  let moved := drop (S i) a in
  (take i a ++ moved, take i a ++ moved ++ drop (length a - 1) a).

(** [s.Delete(id)] *)
Definition Delete (id : gostring) (s : Store) (d : Disk)
  : option error * Store * Disk :=
  match first_index id (endpoints s) with
  | Some i =>
      let shifted := remove_in_place i (endpoints s) in
      let s1 := set_endpoints s shifted.1 in
      match save s1 d with
      | (Some err, d') => (Some err, set_endpoints s1 shifted.2, d')
      | (None, d') => (None, s1, d')
      end
  | None => (Some (NotFound id), s, d)
  end.

End Methods.

End endpoint.

(** The identifiers of the store's endpoints, in order. *)
Definition ids (s : endpoint.Store) : list endpoint.gostring :=
  map endpoint.ID (endpoint.endpoints s).

(** The [k]-th identifier that [Add] tries for a name whose slug is [base]:
    the slug, then the slug with [-2], [-3], ... *)
Definition candidate (base : endpoint.gostring) (k : nat) : endpoint.gostring :=
  match k with
  | O => base
  | S _ => endpoint.Sprintf_s_d base (S k)
  end.

(** A small library for running the store: ASCII strings, and a URL parser
    that wants a scheme separator. *)
Module ToyStore.

Definition lower (c : Z) : Z :=
  if (0x41 <=? c) && (c <=? 0x5A) then c + 0x20 else c.

#[export] Instance strings : endpoint.Strings := {|
  endpoint.TrimSpace := Js.trim;
  endpoint.ToLower := map lower;
  endpoint.ParseRequestURI := fun u =>
    if existsb (Z.eqb 0x3A) u then None else Some (endpoint.Library 1)
|}.

Definition ep (name url symbol : String.string) : endpoint.Endpoint :=
  {| endpoint.ID := []; endpoint.Name := Js.lit name;
     endpoint.URL := Js.lit url; endpoint.Symbol := Js.lit symbol |}.

Definition stored (id name : String.string) : endpoint.Endpoint :=
  {| endpoint.ID := Js.lit id; endpoint.Name := Js.lit name;
     endpoint.URL := Js.lit "http://node:9650"; endpoint.Symbol := Js.lit "AVAX" |}.

Definition three : endpoint.Store :=
  {| endpoint.endpoints :=
       [stored "main-net" "Main Net"; stored "main-net-2" "Main Net";
        stored "test" "test"];
     endpoint.path := Js.lit "endpoints.json" |}.

(** A disk whose writes succeed, and one whose writes fail. *)
Definition sound : endpoint.Disk :=
  {| endpoint.faults := fun _ => None; endpoint.writes := 0;
     endpoint.saved := Some (endpoint.endpoints three) |}.

Definition full : endpoint.Disk :=
  {| endpoint.faults := fun _ => Some (endpoint.Library 28); endpoint.writes := 0;
     endpoint.saved := Some (endpoint.endpoints three) |}.

(** Both disks after one write. *)
Definition sound_with (eps : list endpoint.Endpoint) : endpoint.Disk :=
  {| endpoint.faults := fun _ => None; endpoint.writes := 1;
     endpoint.saved := Some eps |}.

Definition full_after : endpoint.Disk :=
  {| endpoint.faults := fun _ => Some (endpoint.Library 28); endpoint.writes := 1;
     endpoint.saved := Some (endpoint.endpoints three) |}.

Definition write_error : endpoint.error :=
  endpoint.Wrap (Js.lit "write endpoints: ") (endpoint.Library 28).

(** A second endpoint named like the first two, and the store with it. *)
Definition wanted : endpoint.Endpoint := ep "Main Net" "http://other:9650" "AVAX".

Definition added : endpoint.Endpoint :=
  endpoint.with_ID wanted (Js.lit "main-net-3").

Definition four : endpoint.Store :=
  endpoint.set_endpoints three (endpoint.endpoints three ++ [added]).

(** The store with its last endpoint edited, and with its first deleted. *)
Definition edited : endpoint.Store :=
  endpoint.set_endpoints three
    [stored "main-net" "Main Net"; stored "main-net-2" "Main Net";
     endpoint.with_ID wanted (Js.lit "test")].

Definition two : endpoint.Store :=
  endpoint.set_endpoints three
    [stored "main-net-2" "Main Net"; stored "test" "test"].

(** What a failed deletion of the first endpoint leaves. *)
Definition shifted : endpoint.Store :=
  endpoint.set_endpoints three
    [stored "main-net-2" "Main Net"; stored "test" "test"; stored "test" "test"].

End ToyStore.

(** ** The host language on examples *)

Example lit_hello : Js.lit "0x" = [0x30; 0x78].
Proof. reflexivity. Qed.

Example trim_example : Js.trim (Js.lit "  ab c ") = Js.lit "ab c".
Proof. reflexivity. Qed.

Example parseInt_example : Js.parseInt10 (Js.lit " -12px") = Js.Int (-12).
Proof. reflexivity. Qed.

Example of_nat_example : Js.of_nat 12 = Js.lit "12".
Proof. reflexivity. Qed.

Example utf8_euro : Utf8.decode (Utf8.encode [0x20AC; 0xD83D; 0xDE00]) = [0x20AC; 0xD83D; 0xDE00].
Proof. reflexivity. Qed.

Example utf8_lone_surrogate : Utf8.decode (Utf8.encode [0xD800]) = [0xFFFD].
Proof. reflexivity. Qed.

(** ** Octets and text *)

Lemma to_octet_octet (b : Byte.byte) : to_octet (octet b) = b.
Proof. destruct b; reflexivity. Qed.

Lemma octet_to_octet (z : Z) : 0 <= z < 256 -> octet (to_octet z) = z.
Proof.
  intros Hz. unfold octet, to_octet.
  rewrite Z.mod_small by lia.
  destruct (Byte.of_N (Z.to_N z)) as [b|] eqn:E.
  - apply Byte.to_of_N in E. rewrite E. lia.
  - apply Byte.of_N_None_iff in E. lia.
Qed.

Lemma Uint8Array_from_Array_from (u : Uint8Array) :
  Uint8Array_from (Array_from u) = u.
Proof.
  unfold Uint8Array_from, Array_from.
  induction u as [|b u IH]; simpl; [reflexivity|].
  now rewrite to_octet_octet, IH.
Qed.

Lemma Array_from_Uint8Array_from (a : list Z) :
  Forall (fun z => 0 <= z < 256) a -> Array_from (Uint8Array_from a) = a.
Proof.
  unfold Uint8Array_from, Array_from.
  induction 1 as [|z a Hz _ IH]; simpl; [reflexivity|].
  now rewrite octet_to_octet, IH.
Qed.

Lemma ascii_octets (s : jsstring) : ascii s -> Forall (fun z => 0 <= z < 256) s.
Proof. apply List.Forall_impl. intros; lia. Qed.

Lemma encode_ascii (s : jsstring) : ascii s -> Utf8.encode s = s.
Proof.
  induction 1 as [|c s Hc _ IH]; simpl; [reflexivity|].
  unfold Utf8.is_high, Utf8.is_low, Utf8.encode_scalar.
  replace (0xD800 <=? c) with false by (symmetry; apply Z.leb_gt; lia).
  replace (0xDC00 <=? c) with false by (symmetry; apply Z.leb_gt; lia).
  replace (c <? 0x80) with true by (symmetry; apply Z.ltb_lt; lia).
  simpl. now rewrite IH.
Qed.

Lemma run_ascii (s : jsstring) : ascii s -> Utf8.run Utf8.d0 s = s.
Proof.
  unfold Utf8.d0.
  induction 1 as [|c s Hc _ IH]; simpl; [reflexivity|].
  unfold Utf8.step, Utf8.lead, Utf8.d0; simpl.
  replace (c <=? 0x7F) with true by (symmetry; apply Z.leb_le; lia).
  simpl. now rewrite IH.
Qed.

Lemma units_ascii (s : jsstring) : ascii s -> concat (map Utf8.units s) = s.
Proof.
  induction 1 as [|c s Hc _ IH]; simpl; [reflexivity|].
  rewrite IH. unfold Utf8.units.
  replace (c <? 0x10000) with true by (symmetry; apply Z.ltb_lt; lia).
  reflexivity.
Qed.

Lemma decode_ascii (s : jsstring) : ascii s -> Utf8.decode s = s.
Proof.
  intros Hs. unfold Utf8.decode. rewrite run_ascii by assumption.
  assert (Utf8.strip_bom s = s) as ->.
  { destruct Hs as [|c s Hc _]; simpl; [reflexivity|].
    replace (c =? 0xFEFF) with false by (symmetry; apply Z.eqb_neq; lia).
    reflexivity. }
  now apply units_ascii.
Qed.

(** Text below 0x80 survives the encoder and the decoder. *)
Lemma text_roundtrip (s : jsstring) :
  ascii s -> TextDecoder_decode (TextEncoder_encode s) = s.
Proof.
  intros Hs. unfold TextDecoder_decode, TextEncoder_encode.
  rewrite encode_ascii by assumption.
  rewrite Array_from_Uint8Array_from by now apply ascii_octets.
  now apply decode_ascii.
Qed.

Lemma is_hex_ascii (c : Z) : Js.is_hex c = true -> 0 <= c < 0x80.
Proof. unfold Js.is_hex, Js.is_digit. lia. Qed.

Lemma key_pattern_ascii (key : jsstring) :
  key_pattern_test key = true -> ascii key /\ length key = 66%nat.
Proof.
  destruct key as [|c0 [|c1 digits]]; simpl; try discriminate.
  rewrite !andb_true_iff. intros [[[H0 H1] Hlen] Hhex].
  apply Z.eqb_eq in H0, H1. apply Nat.eqb_eq in Hlen. subst c0 c1.
  split; [|simpl; lia].
  repeat (constructor; [lia|]).
  rewrite forallb_forall in Hhex. apply List.Forall_forall.
  intros c Hc. apply is_hex_ascii. now apply Hhex.
Qed.

(** ** Key derivation and the cipher *)

Section Derivation.

Context {crypto : SubtleCrypto}.

Example PRF_SALT_length : length PRF_SALT = 20%nat.
Proof. reflexivity. Qed.

Example HKDF_INFO_length : length HKDF_INFO = 32%nat.
Proof. reflexivity. Qed.

(** C5: [deriveAESKeyFromPRF] is HKDF with SHA-256, the octets of
    "wallet-encryption-v1" as salt and those of "AES-GCM Wallet Encryption Key
    V1" as info, over the PRF output; [deriveAESKeyFromPassword] is PBKDF2 with
    HMAC-SHA-256 and 600000 iterations over the encoded password and the salt
    it is given.  Either yields a non-extractable 256-bit AES-GCM key for
    encrypt and decrypt, and either is a function of its inputs: equal inputs
    give the same key. *)
Theorem key_derivation_parameters
    (prfOutput : Uint8Array) (password : jsstring) (salt : Uint8Array) :
  Array_from PRF_SALT = Js.lit "wallet-encryption-v1"
  /\ Array_from HKDF_INFO = Js.lit "AES-GCM Wallet Encryption Key V1"
  /\ PBKDF2_ITERATIONS = 600000
  /\ deriveAESKeyFromPRF prfOutput =
       {| algorithm := AES_GCM 256; extractable := false;
          usages := [usage_encrypt; usage_decrypt];
          material := hkdf SHA_256 PRF_SALT HKDF_INFO prfOutput 256 |}
  /\ deriveAESKeyFromPassword password salt =
       {| algorithm := AES_GCM 256; extractable := false;
          usages := [usage_encrypt; usage_decrypt];
          material :=
            pbkdf2 SHA_256 (TextEncoder_encode password) salt PBKDF2_ITERATIONS 256 |}
  /\ (forall prfOutput', prfOutput' = prfOutput ->
        deriveAESKeyFromPRF prfOutput' = deriveAESKeyFromPRF prfOutput)
  /\ (forall password' salt', password' = password -> salt' = salt ->
        deriveAESKeyFromPassword password' salt'
        = deriveAESKeyFromPassword password salt).
Proof.
  repeat split; try reflexivity.
  - now intros ? ->.
  - now intros ? ? -> ->.
Qed.

Context {sound : AesGcmSound crypto}.

(** What [encryptPrivateKey] returns opens again under the same key, for any
    text below 0x80. *)
Lemma encrypt_then_decrypt (plaintext : jsstring) (key : CryptoKey) (p : Page) :
  ascii plaintext ->
  exists encrypted iv,
    encryptPrivateKey plaintext key p
    = (Normal (encrypted, iv), (set_drawn (drawn p.1 + 12) p.1, p.2))
    /\ length iv = 12%nat
    /\ forall q, decryptPrivateKey encrypted iv key q = (Normal plaintext, q).
Proof.
  intros Hascii.
  eexists _, _. split; [reflexivity|]. split.
  - now rewrite length_map, length_seq.
  - intros q. unfold decryptPrivateKey.
    rewrite decrypt_encrypt, text_roundtrip by assumption. reflexivity.
Qed.

(** C6: a private-key string (["0x"] and 64 hexadecimal digits, what import
    admits and what the key generator hands out) that is encrypted and then
    decrypted with the same key and the IV the encryption drew comes back
    unchanged. *)
Theorem encrypt_decrypt_roundtrip (K : jsstring) (key : CryptoKey) (p : Page) :
  key_pattern_test K = true ->
  exists encrypted iv p',
    encryptPrivateKey K key p = (Normal (encrypted, iv), p')
    /\ decryptPrivateKey encrypted iv key p' = (Normal K, p').
Proof.
  intros HK. apply key_pattern_ascii in HK as [Hascii _].
  destruct (encrypt_then_decrypt K key p Hascii) as (encrypted & iv & He & _ & Hd).
  exists encrypted, iv. eexists. split; [exact He|apply Hd].
Qed.

End Derivation.

(** ** Password setup *)

Section Setup.

Context {crypto : SubtleCrypto}.

(** C8: a password of fewer than 8 code units is turned down by
    [setupWithPassword] itself, with a message in the modal, and nothing has
    happened by then: no octet drawn, no key derived, no credential written,
    no global assigned. *)
Theorem setupWithPassword_short (pw confirm : jsstring) (p : Page) :
  (length pw < 8)%nat ->
  exists msg,
    setupWithPassword pw confirm p = (Normal (Shown msg), p)
    /\ (msg = Js.lit "Please enter a password."
        \/ msg = Js.lit "Password must be at least 8 characters.").
Proof.
  intros Hlen. unfold setupWithPassword.
  destruct pw as [|c pw]; simpl Js.falsy; cbv iota.
  - eexists. split; [reflexivity|now left].
  - apply Nat.ltb_lt in Hlen. rewrite Hlen.
    eexists. split; [reflexivity|now right].
Qed.

End Setup.

(** ** Lock *)

Lemma set_objects_same (s : Session) : set_objects (objects s) s = s.
Proof. now destruct s. Qed.

Lemma lockWallet_wipe_run (slots : list nat) (w : World) (s : Session) :
  lockWallet_wipe slots (w, s)
  = (Normal tt, (w, set_objects (wiped slots (objects s)) s)).
Proof.
  revert s. induction slots as [|r slots IH]; intros s.
  - simpl. now rewrite set_objects_same.
  - cbn -[alter]. unfold mbind, M_bind, assign. cbn -[alter lockWallet_wipe].
    now rewrite IH.
Qed.

Lemma wiped_length (slots : list nat) (objs : list DecryptedKey) :
  length (wiped slots objs) = length objs.
Proof.
  revert objs. induction slots as [|r slots IH]; intros objs; simpl; [reflexivity|].
  now rewrite IH, length_alter.
Qed.

(** What the loop has blanked stays blank. *)
Lemma wiped_stays_blank (slots : list nat) (objs : list DecryptedKey) (r : nat) :
  dk_key (default blank (objs !! r)) = [] ->
  dk_key (default blank (wiped slots objs !! r)) = [].
Proof.
  revert objs. induction slots as [|r' slots IH]; intros objs Hr; simpl; [exact Hr|].
  apply IH. destruct (decide (r' = r)) as [->|Hne].
  - rewrite list_lookup_alter_eq. now destruct (objs !! r).
  - now rewrite list_lookup_alter_ne.
Qed.

Lemma wiped_key (slots : list nat) (objs : list DecryptedKey) (r : nat) :
  In r slots -> dk_key (default blank (wiped slots objs !! r)) = [].
Proof.
  revert objs. induction slots as [|r' slots IH]; intros objs; simpl; [tauto|].
  intros [->|Hin]; [|now apply IH].
  apply wiped_stays_blank. rewrite list_lookup_alter_eq. now destruct (objs !! r).
Qed.

(** The loop writes the [key] property and no other. *)
Lemma wiped_other_fields (slots : list nat) (objs : list DecryptedKey) (r : nat) :
  let o := default blank (objs !! r) in
  let o' := default blank (wiped slots objs !! r) in
  dk_id o' = dk_id o /\ dk_label o' = dk_label o /\ dk_address o' = dk_address o.
Proof.
  revert objs. induction slots as [|r' slots IH]; intros objs; simpl; [tauto|].
  destruct (IH (alter (set_dk_key []) r' objs)) as (H1 & H2 & H3).
  rewrite H1, H2, H3. destruct (decide (r' = r)) as [->|Hne].
  - rewrite list_lookup_alter_eq. now destruct (objs !! r).
  - now rewrite list_lookup_alter_ne.
Qed.

(** [lockWallet] always ends in a Locked state with no key and no entry. *)
Lemma lockWallet_run (w : World) (s : Session) :
  lockWallet (w, s)
  = (Normal tt,
     (w, set_walletState locked
           (set_activeKeyIndex (Js.Int 0)
              (set_aesKey None
                 (set_decryptedKeys []
                    (set_objects (wiped (decryptedKeys s) (objects s)) s)))))).
Proof.
  unfold lockWallet, mbind, M_bind, global. cbn [fst snd].
  rewrite lockWallet_wipe_run. reflexivity.
Qed.

(** C4: from every state, and so from every Unlocked one, [lockWallet]
    blanks the [key] of every entry while the array still holds them, then
    drops the array, forgets the AES key, puts [activeKeyIndex] back to 0 and
    leaves the state Locked, touching nothing in the stores.  It makes no
    test of the state it is called in: on a state whose [walletState] is
    Locked already it changes nothing at all exactly when that state holds no
    key, no entry and the index 0, and clears what is held otherwise. *)
Theorem lockWallet_spec (w : World) (s : Session) :
  (exists s1 s',
     lockWallet_wipe (decryptedKeys s) (w, s) = (Normal tt, (w, s1))
     /\ decryptedKeys s1 = decryptedKeys s
     /\ Forall (fun e => dk_key e = []) (entries s1)
     /\ lockWallet (w, s) = (Normal tt, (w, s'))
     /\ (forall r, In r (decryptedKeys s) -> dk_key (deref s' r) = [])
     /\ decryptedKeys s' = []
     /\ aesKey s' = None
     /\ activeKeyIndex s' = Js.Int 0
     /\ walletState s' = locked)
  /\ (walletState s = locked ->
      (lockWallet (w, s) = (Normal tt, (w, s))
       <-> aesKey s = None /\ decryptedKeys s = []
           /\ activeKeyIndex s = Js.Int 0)).
Proof.
  split.
  - eexists _, _. split; [apply lockWallet_wipe_run|].
    split; [reflexivity|]. split.
    + unfold entries. apply List.Forall_forall. intros e He.
      apply in_map_iff in He as (r & <- & Hr). now apply wiped_key.
    + split; [apply lockWallet_run|].
      split; [|repeat split].
      intros r Hr. now apply wiped_key.
  - intros Hst. rewrite lockWallet_run. split.
    + intros Hsame.
      assert (set_walletState locked
                (set_activeKeyIndex (Js.Int 0)
                   (set_aesKey None
                      (set_decryptedKeys []
                         (set_objects (wiped (decryptedKeys s) (objects s)) s))))
              = s) as Hs by congruence.
      split; [|split].
      * now rewrite <- Hs.
      * now rewrite <- Hs.
      * now rewrite <- Hs.
    + intros (Hkey & Hkeys & Hidx). rewrite Hkeys. simpl wiped.
      destruct s; simpl in *; subst. reflexivity.
Qed.

(** Every run of [lockWallet] ends Locked in the data model's sense. *)
Lemma lockWallet_clean (w : World) (s : Session) :
  clean_locked (lockWallet (w, s)).2.2.
Proof. rewrite lockWallet_run. now repeat split. Qed.

(** ** Rendering and the active index *)

Lemma index_in_bounds {A} (l : list A) (i : Z) :
  0 <= i < Z.of_nat (length l) -> is_Some (Js.index l (Js.Int i)).
Proof.
  intros Hi. unfold Js.index.
  replace (i <? 0) with false by (symmetry; apply Z.ltb_ge; lia).
  apply lookup_lt_is_Some_2. lia.
Qed.

Lemma index_out_of_bounds {A} (l : list A) (i : Z) :
  ~ 0 <= i < Z.of_nat (length l) -> Js.index l (Js.Int i) = None.
Proof.
  intros Hi. unfold Js.index.
  destruct (i <? 0) eqn:E; [reflexivity|].
  apply Z.ltb_ge in E. apply lookup_ge_None_2. lia.
Qed.

Lemma renderWalletBar_ok (w : World) (s : Session) :
  (walletState s = unlocked -> decryptedKeys s <> [] ->
   is_Some (Js.index (decryptedKeys s) (activeKeyIndex s))) ->
  renderWalletBar (w, s) = (Normal tt, (w, s)).
Proof.
  intros H. unfold renderWalletBar, mbind, M_bind, global. cbn [fst snd id].
  destruct (walletState s); try reflexivity.
  destruct (decryptedKeys s) as [|r l] eqn:E; [reflexivity|].
  destruct H as [x Hx]; [reflexivity|discriminate|].
  cbn [length Nat.ltb Nat.leb]. now rewrite Hx.
Qed.

Lemma renderWalletBar_throws (w : World) (s : Session) :
  walletState s = unlocked -> decryptedKeys s <> [] ->
  Js.index (decryptedKeys s) (activeKeyIndex s) = None ->
  renderWalletBar (w, s) = (Throw undefined_address, (w, s)).
Proof.
  intros Hst Hne Hidx. unfold renderWalletBar, mbind, M_bind, global.
  cbn [fst snd id]. rewrite Hst, Hidx.
  destruct (decryptedKeys s); [congruence|reflexivity].
Qed.

(** C3, as the script has it: [switchKey] stores the parsed index whatever it
    is and checks no range.  Within the bounds of the entry list that is all
    it does.  Outside them the index is stored all the same; the render that
    follows then throws a [TypeError] when there are entries, and nothing is
    thrown when there are none. *)
Theorem switchKey_sets_index (index : jsstring) (i : Z) (w : World) (s : Session) :
  walletState s = unlocked ->
  Js.parseInt10 index = Js.Int i ->
  let n := Z.of_nat (length (decryptedKeys s)) in
  let s' := set_activeKeyIndex (Js.Int i) s in
  (0 <= i < n -> switchKey index (w, s) = (Normal tt, (w, s')))
  /\ (~ 0 <= i < n -> n <> 0 ->
      switchKey index (w, s) = (Throw undefined_address, (w, s')))
  /\ (n = 0 -> switchKey index (w, s) = (Normal tt, (w, s'))).
Proof.
  intros Hst Hparse n s'.
  assert (Hrun : forall c,
             renderWalletBar (w, s') = (c, (w, s')) ->
             switchKey index (w, s)
             = (match c with Normal _ => Normal tt | Throw e => Throw e end, (w, s'))).
  { intros c Hc. unfold switchKey, mbind, M_bind, assign. cbn [fst snd].
    rewrite Hparse. fold s'. rewrite Hc. now destruct c. }
  repeat split.
  - intros Hi. apply (Hrun (Normal tt)). apply renderWalletBar_ok.
    intros _ _. now apply index_in_bounds.
  - intros Hi Hn. apply (Hrun (Throw undefined_address)).
    apply renderWalletBar_throws; [exact Hst| |now apply index_out_of_bounds].
    simpl. intros E. apply Hn. subst n. now rewrite E.
  - intros Hn. apply (Hrun (Normal tt)). apply renderWalletBar_ok.
    intros _ Hne. exfalso. apply Hne. subst n. simpl.
    destruct (decryptedKeys s); [reflexivity|simpl in Hn; lia].
Qed.

(** ** The [keys] store *)

Lemma put_below (r : KeyRecord) (rows : list KeyRecord) :
  Idb.below (rec_id r) rows -> Idb.put r rows = rows ++ [r].
Proof.
  induction 1 as [|x rows Hx _ IH]; simpl; [reflexivity|].
  replace (rec_id r <? rec_id x) with false by (symmetry; apply Z.ltb_ge; lia).
  replace (rec_id r =? rec_id x) with false by (symmetry; apply Z.eqb_neq; lia).
  now rewrite IH.
Qed.

Lemma below_put (r : KeyRecord) (rows : list KeyRecord) :
  Idb.below (rec_id r) rows -> Idb.below (rec_id r + 1) (Idb.put r rows).
Proof.
  intros H. rewrite put_below by assumption. apply Forall_app. split.
  - eapply List.Forall_impl; [|exact H]. simpl. intros; lia.
  - constructor; [lia|constructor].
Qed.

(** ** Adding keys *)

Section Adding.

Context {crypto : SubtleCrypto} {ethers : Ethers}.

Lemma ensureEthers_run (w : World) (s : Session) :
  ethersLoaded s = true \/ cdn w = true ->
  ensureEthers (w, s) = (Normal tt, (w, set_ethersLoaded true s)).
Proof.
  intros H. unfold ensureEthers, mbind, M_bind, global, world, assign.
  cbn [fst snd]. destruct (ethersLoaded s) eqn:E.
  - destruct s; simpl in *; subst. reflexivity.
  - destruct H as [H|H]; [discriminate|]. cbn [fst snd]. now rewrite H.
Qed.

Lemma store_key_run (label address key : jsstring) (aes : CryptoKey)
    (w : World) (s : Session) :
  aesKey s = Some aes ->
  Idb.below (keyGenerator w) (keys w) ->
  let rec := stored_record w aes label address key in
  store_key label address key (w, s)
  = (Normal tt,
     (world_after_store w rec,
      session_after_store s
        {| dk_id := rec_id rec; dk_label := label; dk_address := address;
           dk_key := key |})).
Proof.
  intros Haes Hbelow rec.
  unfold store_key, the_aesKey, encryptPrivateKey, getRandomValues, Date_now,
    saveEncryptedKey, getEncryptedKeys, push, mbind, M_bind, mret, M_ret,
    global, world, assign, write_world.
  cbn [fst snd]. rewrite Haes. cbn [fst snd keys keyGenerator set_keys set_ticks
    set_drawn entropy drawn clock ticks].
  rewrite put_below by exact Hbelow.
  rewrite last_snoc. reflexivity.
Qed.

Lemma entries_push (s : Session) (o : DecryptedKey) :
  Forall (fun r => (r < length (objects s))%nat) (decryptedKeys s) ->
  entries (session_after_store s o) = entries s ++ [o].
Proof.
  intros Hwf. unfold entries, session_after_store, deref. cbn [decryptedKeys objects
    set_storedKeyCount set_activeKeyIndex set_decryptedKeys set_objects].
  rewrite map_app. f_equal.
  - apply map_ext_in. intros r Hr.
    rewrite List.Forall_forall in Hwf. now rewrite lookup_app_l by now apply Hwf.
  - simpl. now rewrite list_lookup_middle.
Qed.

Lemma well_formed_push (s : Session) (o : DecryptedKey) :
  well_formed s -> well_formed (session_after_store s o).
Proof.
  intros [Hlt Hnd]. split; cbn [decryptedKeys objects session_after_store
    set_storedKeyCount set_activeKeyIndex set_decryptedKeys set_objects].
  - rewrite length_app. simpl. apply Forall_app. split.
    + eapply List.Forall_impl; [|exact Hlt]. simpl. intros; lia.
    + constructor; [lia|constructor].
  - apply NoDup_app. split; [exact Hnd|]. split; [|apply NoDup_singleton].
    intros r Hr Hr'. apply list_elem_of_singleton in Hr'. subst r.
    rewrite Forall_forall in Hlt. specialize (Hlt _ Hr). lia.
Qed.

(** The statements import and generate share, from the encryption to the
    re-render, on a state that holds a key. *)
Lemma add_key_run (label address key : jsstring) (aes : CryptoKey)
    (w : World) (s : Session) :
  aesKey s = Some aes ->
  Idb.below (keyGenerator w) (keys w) ->
  let rec := stored_record w aes label address key in
  (store_key label address key;; renderWalletBar;; refresh;; mret Completed) (w, s)
  = (Normal Completed,
     (world_after_store w rec,
      session_after_store s
        {| dk_id := rec_id rec; dk_label := label; dk_address := address;
           dk_key := key |})).
Proof.
  intros Haes Hbelow rec. unfold mbind at 1. unfold M_bind.
  rewrite (store_key_run _ _ _ aes) by assumption.
  unfold mbind at 1. unfold M_bind.
  rewrite renderWalletBar_ok; [reflexivity|].
  intros _ _. cbn [decryptedKeys activeKeyIndex session_after_store
    set_storedKeyCount set_activeKeyIndex set_decryptedKeys set_objects].
  apply index_in_bounds. rewrite length_app. simpl. lia.
Qed.

(** A key input that does not match after normalisation is turned down with
    the page as it was. *)
Lemma doImportKey_rejects (labelInput keyInput : jsstring) (p : Page) :
  key_pattern_test (normalized_key keyInput) = false ->
  exists msg,
    doImportKey labelInput keyInput p = (Normal (Shown msg), p)
    /\ (msg = Js.lit "Please enter a private key."
        \/ msg = Js.lit "Invalid key format. Expected 64 hex characters.").
Proof.
  intros Hpat. unfold doImportKey, normalized_key in *.
  unfold mbind at 1. unfold M_bind, global.
  destruct (Js.falsy (Js.trim keyInput)).
  - eexists. split; [reflexivity|now left].
  - rewrite Hpat. eexists. split; [reflexivity|now right].
Qed.

Lemma doImportKey_run (labelInput keyInput address : jsstring) (aes : CryptoKey)
    (w : World) (s : Session) :
  key_pattern_test (normalized_key keyInput) = true ->
  aesKey s = Some aes ->
  computeAddress (normalized_key keyInput) = Some address ->
  ethersLoaded s = true \/ cdn w = true ->
  Idb.below (keyGenerator w) (keys w) ->
  let key := normalized_key keyInput in
  let label := Js.or_else (Js.trim labelInput) (default_label (storedKeyCount s)) in
  let rec := stored_record w aes label address key in
  doImportKey labelInput keyInput (w, s)
  = (Normal Completed,
     (world_after_store w rec,
      session_after_store (set_ethersLoaded true s)
        {| dk_id := rec_id rec; dk_label := label; dk_address := address;
           dk_key := key |})).
Proof.
  intros Hpat Haes Haddr Hload Hbelow key label rec.
  subst key label rec. unfold doImportKey, normalized_key in *.
  unfold mbind at 1. unfold M_bind at 1. unfold global at 1. cbn [fst snd].
  destruct (Js.trim keyInput) as [|c k] eqn:Etrim; [discriminate|].
  cbn [Js.falsy]. rewrite Hpat. cbn [negb].
  unfold mbind at 1. unfold M_bind at 1. unfold global at 1. cbn [fst snd].
  rewrite Haes. unfold try_catch.
  unfold mbind at 1. unfold M_bind at 1.
  rewrite ensureEthers_run by assumption.
  unfold mbind at 1. unfold M_bind at 1.
  unfold new_Wallet. rewrite Haddr. unfold mret at 1. unfold M_ret at 1.
  rewrite (add_key_run _ _ _ aes) by assumption.
  reflexivity.
Qed.

(** Import when the address derivation throws: the handler reports it and no
    row has been written. *)
Lemma doImportKey_deriver_fails (labelInput keyInput : jsstring) (aes : CryptoKey)
    (w : World) (s : Session) :
  key_pattern_test (normalized_key keyInput) = true ->
  aesKey s = Some aes ->
  computeAddress (normalized_key keyInput) = None ->
  ethersLoaded s = true \/ cdn w = true ->
  doImportKey labelInput keyInput (w, s)
  = (Normal (Shown (Js.lit "Failed: invalid private key")),
     (w, set_ethersLoaded true s)).
Proof.
  intros Hpat Haes Haddr Hload.
  unfold doImportKey, normalized_key in *.
  unfold mbind at 1. unfold M_bind at 1. unfold global at 1. cbn [fst snd].
  destruct (Js.trim keyInput) as [|c k] eqn:Etrim; [discriminate|].
  cbn [Js.falsy]. rewrite Hpat. cbn [negb].
  unfold mbind at 1. unfold M_bind at 1. unfold global at 1. cbn [fst snd].
  rewrite Haes. unfold try_catch.
  unfold mbind at 1. unfold M_bind at 1.
  rewrite ensureEthers_run by assumption.
  unfold mbind at 1. unfold M_bind at 1.
  unfold new_Wallet. rewrite Haddr. reflexivity.
Qed.

Lemma generateKey_run (aes : CryptoKey) (w : World) (s : Session) :
  aesKey s = Some aes ->
  ethersLoaded s = true \/ cdn w = true ->
  Idb.below (keyGenerator w) (keys w) ->
  let wallet := minted w (mints w) in
  let label := default_label (storedKeyCount s) in
  let w1 := set_mints (S (mints w)) w in
  let rec := stored_record w1 aes label (wallet_address wallet) (privateKey wallet) in
  generateKey (w, s)
  = (Normal Completed,
     (world_after_store w1 rec,
      session_after_store (set_ethersLoaded true s)
        {| dk_id := rec_id rec; dk_label := label;
           dk_address := wallet_address wallet; dk_key := privateKey wallet |})).
Proof.
  intros Haes Hload Hbelow wallet label w1 rec. subst wallet label w1 rec.
  unfold generateKey.
  unfold mbind at 1. unfold M_bind at 1. unfold global at 1. cbn [fst snd].
  rewrite Haes. unfold try_catch.
  unfold mbind at 1. unfold M_bind at 1.
  rewrite ensureEthers_run by assumption.
  unfold mbind at 1. unfold M_bind at 1. unfold createRandom at 1. cbn [fst snd].
  unfold mbind at 1. unfold M_bind at 1. unfold global at 1. cbn [fst snd].
  rewrite (add_key_run _ _ _ aes) by assumption.
  reflexivity.
Qed.

Context {sound : AesGcmSound crypto}.

(** C7: with the vault Unlocked, [doImportKey] takes the key input exactly
    through the pattern ["0x"] and 64 hexadecimal digits, after trimming it and
    putting ["0x"] in front if it is not there.  An input that does not match
    is turned down with a message and the page as it was: nothing drawn,
    nothing encrypted, nothing written.  An input that matches, for which the
    address derivation answers, ends with one more row in the store, whose
    ciphertext opens to the 66 code units of the normalised key and whose
    address is the one derived, with one more entry at the end of the list and
    [activeKeyIndex] on it. *)
Theorem doImportKey_spec (labelInput keyInput : jsstring) (aes : CryptoKey)
    (w : World) (s : Session) :
  walletState s = unlocked ->
  aesKey s = Some aes ->
  let key := normalized_key keyInput in
  let label := Js.or_else (Js.trim labelInput) (default_label (storedKeyCount s)) in
  (key_pattern_test key = false ->
   exists msg,
     doImportKey labelInput keyInput (w, s) = (Normal (Shown msg), (w, s))
     /\ (msg = Js.lit "Please enter a private key."
         \/ msg = Js.lit "Invalid key format. Expected 64 hex characters."))
  /\ (key_pattern_test key = true ->
      forall address,
        computeAddress key = Some address ->
        ethersLoaded s = true \/ cdn w = true ->
        Idb.below (keyGenerator w) (keys w) ->
        well_formed s ->
        exists w' s' rec,
          doImportKey labelInput keyInput (w, s) = (Normal Completed, (w', s'))
          /\ keys w' = keys w ++ [rec]
          /\ credentials w' = credentials w
          /\ rec_label rec = label
          /\ rec_address rec = address
          /\ (forall q,
                decryptPrivateKey (Uint8Array_from (rec_encrypted rec))
                  (Uint8Array_from (rec_iv rec)) aes q
                = (Normal key, q))
          /\ length key = 66%nat
          /\ entries s'
             = entries s ++ [{| dk_id := rec_id rec; dk_label := label;
                                dk_address := address; dk_key := key |}]
          /\ activeKeyIndex s' = Js.Int (Z.of_nat (length (entries s)))
          /\ walletState s' = unlocked
          /\ aesKey s' = Some aes).
Proof.
  intros Hst Haes key label. split.
  - now apply doImportKey_rejects.
  - intros Hpat address Haddr Hload Hbelow [Hwf _].
    eexists _, _, _. split.
    { now apply (doImportKey_run labelInput keyInput address aes). }
    fold key label.
    destruct (key_pattern_ascii key Hpat) as [Hascii Hlen].
    repeat split; try assumption.
    + intros q. unfold decryptPrivateKey, stored_record.
      cbn [rec_encrypted rec_iv]. rewrite !Uint8Array_from_Array_from.
      rewrite decrypt_encrypt, text_roundtrip by assumption. reflexivity.
    + now rewrite entries_push.
    + cbn [activeKeyIndex session_after_store set_storedKeyCount
        set_activeKeyIndex]. f_equal. unfold entries.
      rewrite length_app, length_map. cbn [decryptedKeys set_ethersLoaded length].
      lia.
Qed.

(** C9: with the vault Unlocked and [storedKeyCount] at [c], [generateKey]
    labels the new row and the new entry ["Key "] followed by [c + 1], gives
    them the address of the wallet the generator made, appends the entry and
    sets [activeKeyIndex] to its position.  Two calls in a row on an empty
    vault leave the rows "Key 1" and "Key 2", in that order, with the addresses
    of the two wallets generated (distinct when those are), and the index at 0
    and then at 1. *)
Theorem generateKey_default_labels (aes : CryptoKey) (w : World) (s : Session) :
  walletState s = unlocked ->
  aesKey s = Some aes ->
  ethersLoaded s = true \/ cdn w = true ->
  Idb.below (keyGenerator w) (keys w) ->
  let first := minted w (mints w) in
  let second := minted w (S (mints w)) in
  exists w1 s1 rec1 r1,
    generateKey (w, s) = (Normal Completed, (w1, s1))
    /\ keys w1 = keys w ++ [rec1]
    /\ rec_label rec1 = Js.lit "Key " ++ Js.of_nat (storedKeyCount s + 1)
    /\ rec_address rec1 = wallet_address first
    /\ decryptedKeys s1 = decryptedKeys s ++ [r1]
    /\ deref s1 r1
       = {| dk_id := rec_id rec1; dk_label := rec_label rec1;
            dk_address := wallet_address first; dk_key := privateKey first |}
    /\ activeKeyIndex s1 = Js.Int (Z.of_nat (length (decryptedKeys s)))
    /\ Js.index (decryptedKeys s1) (activeKeyIndex s1) = Some r1
    /\ storedKeyCount s1 = S (length (decryptedKeys s))
    /\ (keys w = [] -> decryptedKeys s = [] -> storedKeyCount s = 0%nat ->
        exists w2 s2 rec2 r2,
          generateKey (w1, s1) = (Normal Completed, (w2, s2))
          /\ keys w2 = [rec1; rec2]
          /\ rec_label rec1 = Js.lit "Key 1"
          /\ rec_label rec2 = Js.lit "Key 2"
          /\ rec_address rec2 = wallet_address second
          /\ (wallet_address first <> wallet_address second ->
              rec_address rec1 <> rec_address rec2)
          /\ decryptedKeys s2 = [r1; r2]
          /\ map dk_label (entries s2) = [Js.lit "Key 1"; Js.lit "Key 2"]
          /\ activeKeyIndex s1 = Js.Int 0
          /\ activeKeyIndex s2 = Js.Int 1).
Proof.
  intros Hst Haes Hload Hbelow first second.
  pose proof (generateKey_run aes w s Haes Hload Hbelow) as Hrun1.
  cbv zeta in Hrun1.
  eexists _, _, _, _. split; [exact Hrun1|].
  split; [reflexivity|]. split; [reflexivity|]. split; [reflexivity|].
  split; [reflexivity|]. split.
  { unfold deref. cbn [objects session_after_store set_storedKeyCount
      set_activeKeyIndex set_decryptedKeys set_objects set_ethersLoaded].
    now rewrite list_lookup_middle. }
  split.
  { cbn [activeKeyIndex session_after_store set_storedKeyCount set_activeKeyIndex].
    f_equal. rewrite length_app. cbn [decryptedKeys set_ethersLoaded length]. lia. }
  split.
  { cbn [activeKeyIndex decryptedKeys session_after_store set_storedKeyCount
      set_activeKeyIndex set_decryptedKeys set_objects set_ethersLoaded].
    unfold Js.index. rewrite length_app. cbn [length].
    replace (_ <? 0) with false by (symmetry; apply Z.ltb_ge; lia).
    replace (Z.to_nat _) with (length (decryptedKeys s)) by lia.
    now rewrite list_lookup_middle. }
  split.
  { cbn [storedKeyCount session_after_store set_storedKeyCount].
    rewrite length_app. cbn [decryptedKeys set_ethersLoaded length]. lia. }
  intros Hkeys Hdk Hcount.
  match type of Hrun1 with _ = (_, (?w1, ?s1)) =>
    assert (Hbelow1 : Idb.below (keyGenerator w1) (keys w1))
  end.
  { cbn [keyGenerator keys world_after_store set_keys set_ticks set_drawn set_mints].
    rewrite Hkeys. constructor; [|constructor]. cbn. lia. }
  match type of Hrun1 with _ = (_, (?w1, ?s1)) =>
    pose proof (generateKey_run aes w1 s1 Haes (or_introl eq_refl) Hbelow1) as Hrun2
  end.
  cbv zeta in Hrun2.
  eexists _, _, _, _. split; [exact Hrun2|].
  cbn [keys world_after_store set_keys set_ticks set_drawn set_mints mints minted
       rec_label rec_address stored_record decryptedKeys session_after_store
       set_storedKeyCount set_activeKeyIndex set_decryptedKeys set_objects
       set_ethersLoaded activeKeyIndex storedKeyCount objects].
  rewrite Hkeys, Hdk, Hcount. cbn [app length].
  repeat split.
  - intros Hne. exact Hne.
  - unfold entries, deref. cbn [decryptedKeys objects session_after_store
      set_storedKeyCount set_activeKeyIndex set_decryptedKeys set_objects
      set_ethersLoaded map storedKeyCount].
    rewrite Hdk. cbn [app List.map].
    rewrite lookup_app_l by (rewrite length_app; simpl; lia).
    rewrite !list_lookup_middle by reflexivity.
    reflexivity.
Qed.

End Adding.

(** ** Renaming *)

Lemma get_id (k : Z) (rows : list KeyRecord) (r : KeyRecord) :
  Idb.get k rows = Some r -> rec_id r = k.
Proof.
  induction rows as [|x rows IH]; simpl; [discriminate|].
  destruct (rec_id x =? k) eqn:E; [|exact IH].
  intros [= <-]. now apply Z.eqb_eq.
Qed.

Lemma get_above (k lo : Z) (rows : list KeyRecord) (r : KeyRecord) :
  Idb.ascending lo rows -> Idb.get k rows = Some r -> lo < k.
Proof.
  revert lo. induction rows as [|x rows IH]; intros lo; simpl; [discriminate|].
  intros [Hlo Hasc]. destruct (rec_id x =? k) eqn:E.
  - apply Z.eqb_eq in E. lia.
  - intros Hget. specialize (IH _ Hasc Hget). lia.
Qed.

Lemma relabel_above (k lo : Z) (l : jsstring) (rows : list KeyRecord) :
  Idb.ascending lo rows -> k <= lo ->
  map (fun x => if rec_id x =? k then set_rec_label l x else x) rows = rows.
Proof.
  revert lo. induction rows as [|x rows IH]; intros lo; simpl; [reflexivity|].
  intros [Hlo Hasc] Hk.
  replace (rec_id x =? k) with false by (symmetry; apply Z.eqb_neq; lia).
  f_equal. apply (IH (rec_id x)); [exact Hasc|lia].
Qed.

(** Putting back a row read from a well-kept store replaces that row and
    leaves the others where they are. *)
Lemma put_relabel (k lo : Z) (l : jsstring) (rows : list KeyRecord) (r : KeyRecord) :
  Idb.ascending lo rows ->
  Idb.get k rows = Some r ->
  Idb.put (set_rec_label l r) rows
  = map (fun x => if rec_id x =? k then set_rec_label l x else x) rows.
Proof.
  revert lo. induction rows as [|x rows IH]; intros lo; simpl; [discriminate|].
  intros [Hlo Hasc]. destruct (rec_id x =? k) eqn:E.
  - intros [= <-]. rewrite Z.ltb_irrefl, Z.eqb_refl.
    apply Z.eqb_eq in E. f_equal. symmetry.
    apply (relabel_above k (rec_id x)); [exact Hasc|lia].
  - intros Hget. pose proof (get_id _ _ _ Hget) as Hid.
    pose proof (get_above _ _ _ _ Hasc Hget) as Hgt.
    cbn [rec_id set_rec_label]. rewrite Hid.
    replace (k <? rec_id x) with false by (symmetry; apply Z.ltb_ge; lia).
    rewrite Z.eqb_sym, E. f_equal. now apply (IH (rec_id x)).
Qed.

Lemma get_relabel (j k : Z) (l : jsstring) (rows : list KeyRecord) :
  Idb.get j (map (fun x => if rec_id x =? k then set_rec_label l x else x) rows)
  = (fun x => if rec_id x =? k then set_rec_label l x else x) <$> Idb.get j rows.
Proof.
  induction rows as [|x rows IH]; simpl; [reflexivity|].
  assert (rec_id (if rec_id x =? k then set_rec_label l x else x) = rec_id x) as ->
    by now destruct (rec_id x =? k).
  now destruct (rec_id x =? j).
Qed.

(** The entries after [dk.label = newLabel] on the entry [find] returned. *)
Lemma relabel_objects (k : Z) (l : jsstring) (objs : list DecryptedKey)
    (slots : list nat) :
  Forall (fun r => (r < length objs)%nat) slots -> NoDup slots ->
  let found := find (fun r => dk_id (default blank (objs !! r)) =? k) slots in
  let objs' :=
    match found with
    | Some r0 => alter (set_dk_label l) r0 objs
    | None => objs
    end in
  map (fun r => default blank (objs' !! r)) slots
  = relabel_first k l (map (fun r => default blank (objs !! r)) slots).
Proof.
  induction slots as [|a slots IH]; intros Hlt Hnd; [reflexivity|].
  apply Forall_cons in Hlt as [Ha Hlt]. apply NoDup_cons in Hnd as [Hna Hnd].
  specialize (IH Hlt Hnd). cbn [find List.map relabel_first].
  destruct (dk_id (default blank (objs !! a)) =? k) eqn:E.
  - cbv zeta. f_equal.
    + rewrite list_lookup_alter_eq.
      destruct (lookup_lt_is_Some_2 objs a Ha) as [o Ho]. now rewrite Ho.
    + apply map_ext_in. intros r Hr. rewrite list_lookup_alter_ne; [reflexivity|].
      intros ->. apply Hna. now apply list_elem_of_In.
  - cbv zeta in IH |- *. rewrite <- IH. f_equal.
    destruct (find _ slots) as [r0|] eqn:F; [|reflexivity].
    apply find_some in F as [_ F]. rewrite list_lookup_alter_ne; [reflexivity|].
    intros ->. congruence.
Qed.

Lemma renderWalletBar_reads (p : Page) : exists c, renderWalletBar p = (c, p).
Proof.
  destruct p as [w s]. unfold renderWalletBar, mbind, M_bind, global.
  cbn [fst snd id]. destruct (walletState s); try (eexists; reflexivity).
  destruct (0 <? length (decryptedKeys s))%nat; [|eexists; reflexivity].
  destruct (Js.index _ _); eexists; reflexivity.
Qed.

Lemma updateKeyLabel_run (k : Z) (l : jsstring) (r : KeyRecord) (w : World) (s : Session) :
  Idb.get k (keys w) = Some r ->
  updateKeyLabel (Js.Int k) l (w, s)
  = (Normal tt,
     (set_keys (Idb.put (set_rec_label l r) (keys w))
        (Z.max (keyGenerator w) (k + 1)) w, s)).
Proof.
  intros Hget. unfold updateKeyLabel, getEncryptedKeys, mbind, M_bind, world,
    write_world. cbn [fst snd]. now rewrite Hget.
Qed.

(** C10: renaming a row that is in the store, to a label that is not empty
    once trimmed, writes that label into the row of that id and nothing else:
    the row keeps its id, address, ciphertext, IV and creation time, every
    other row is as it was, and so is the credential.  In memory the first
    entry of that id takes the label and every other entry, and every other
    global, is as it was. *)
Theorem doRenameKey_frame (keyIdInput labelInput : jsstring) (k lo : Z)
    (r : KeyRecord) (w : World) (s : Session) :
  Js.parseInt10 keyIdInput = Js.Int k ->
  Idb.get k (keys w) = Some r ->
  Js.trim labelInput <> [] ->
  Idb.ascending lo (keys w) ->
  well_formed s ->
  let newLabel := Js.trim labelInput in
  let relabel := fun x => if rec_id x =? k then set_rec_label newLabel x else x in
  exists report w' s',
    doRenameKey keyIdInput labelInput (w, s) = (Normal report, (w', s'))
    /\ keys w' = map relabel (keys w)
    /\ Idb.get k (keys w')
       = Some {| rec_id := rec_id r; rec_label := newLabel;
                 rec_address := rec_address r; rec_encrypted := rec_encrypted r;
                 rec_iv := rec_iv r; rec_createdAt := rec_createdAt r |}
    /\ (forall j, j <> k -> Idb.get j (keys w') = Idb.get j (keys w))
    /\ credentials w' = credentials w
    /\ entries s' = relabel_first k newLabel (entries s)
    /\ decryptedKeys s' = decryptedKeys s
    /\ walletState s' = walletState s
    /\ aesKey s' = aesKey s
    /\ activeKeyIndex s' = activeKeyIndex s
    /\ storedKeyCount s' = storedKeyCount s.
Proof.
  intros Hparse Hget Hlabel Hasc [Hlt Hnd] newLabel relabel.
  assert (Hf : Js.falsy newLabel = false).
  { subst newLabel. destruct (Js.trim labelInput); [congruence|reflexivity]. }
  set (found := find_entry (Js.Int k) s).
  set (s1 := match found with
             | Some r0 => set_objects (alter (set_dk_label newLabel) r0 (objects s)) s
             | None => s
             end).
  set (w1 := set_keys (Idb.put (set_rec_label newLabel r) (keys w))
               (Z.max (keyGenerator w) (k + 1)) w).
  assert (Hrun : exists report,
             doRenameKey keyIdInput labelInput (w, s) = (Normal report, (w1, s1))).
  { unfold doRenameKey. rewrite Hparse. fold newLabel. rewrite Hf.
    unfold try_catch. unfold mbind at 1. unfold M_bind at 1.
    rewrite (updateKeyLabel_run k _ r) by exact Hget. fold w1.
    unfold mbind at 1. unfold M_bind at 1. unfold global at 1. cbn [fst snd].
    fold found.
    assert (Hassign :
      (match found with
       | Some r0 =>
           assign (fun s0 => set_objects (alter (set_dk_label newLabel) r0 (objects s0)) s0)
       | None => mret tt
       end) (w1, s) = (Normal tt, (w1, s1))).
    { subst s1. now destruct found. }
    unfold mbind at 1. unfold M_bind at 1. rewrite Hassign.
    unfold mbind at 1. unfold M_bind at 1.
    destruct (renderWalletBar_reads (w1, s1)) as [c0 ->].
    destruct c0; eexists; reflexivity. }
  destruct Hrun as [report Hrun].
  exists report, w1, s1. split; [exact Hrun|].
  assert (Hkeys : keys w1 = map relabel (keys w)).
  { subst w1. cbn [keys set_keys]. now apply (put_relabel k lo). }
  split; [exact Hkeys|]. split.
  { rewrite Hkeys. subst relabel. rewrite get_relabel, Hget. cbn.
    replace (rec_id r =? k) with true
      by (symmetry; apply Z.eqb_eq; now apply (get_id k (keys w))).
    reflexivity. }
  split.
  { intros j Hj. rewrite Hkeys. subst relabel. rewrite get_relabel.
    destruct (Idb.get j (keys w)) as [x|] eqn:Hx; [|reflexivity].
    cbn. apply get_id in Hx. rewrite Hx.
    replace (j =? k) with false by (symmetry; now apply Z.eqb_neq). reflexivity. }
  split; [reflexivity|]. split.
  { pose proof (relabel_objects k newLabel (objects s) (decryptedKeys s) Hlt Hnd)
      as Hrel. cbv zeta in Hrel.
    unfold entries, deref. rewrite <- Hrel.
    subst s1 found. unfold find_entry, deref. cbn [Js.num_eqb].
    destruct (find _ (decryptedKeys s)); reflexivity. }
  subst s1. destruct found; repeat split; reflexivity.
Qed.

(** ** Unlock *)

Section Unlock.

Context {crypto : SubtleCrypto}.

(** Where the unlock attempt does fail clean: the first row already refuses
    the key, as every row does under the key of a wrong password. *)
Lemma unlockWithPassword_first_row_fails (pw : jsstring) (cred : Credential)
    (salt : list Z) (rec : KeyRecord) (rest : list KeyRecord)
    (w : World) (s : Session) :
  pw <> [] ->
  credentials w = Some cred ->
  cred_pbkdf2Salt cred = Some salt ->
  keys w = rec :: rest ->
  aes_gcm_decrypt
    (material (deriveAESKeyFromPassword pw (Uint8Array_from salt)))
    (Uint8Array_from (rec_iv rec)) (Uint8Array_from (rec_encrypted rec)) = None ->
  unlockWithPassword pw (w, s)
  = (Normal (Shown (Js.lit "Wrong password or decryption failed.")),
     (w, set_aesKey None (set_decryptedKeys [] s))).
Proof.
  intros Hpw Hcred Hsalt Hkeys Hfail.
  unfold unlockWithPassword. destruct pw as [|c pw]; [congruence|].
  cbn [Js.falsy]. unfold try_catch.
  unfold mbind at 1. unfold M_bind at 1. unfold getCredential, world at 1.
  cbn [fst snd]. rewrite Hcred. cbn [mbind option_bind]. rewrite Hsalt.
  unfold mbind at 1. unfold M_bind at 1. unfold assign at 1. cbn [fst snd].
  unfold mbind at 1. unfold M_bind at 1.
  unfold decryptAllKeys.
  unfold mbind at 1. unfold M_bind at 1. unfold getEncryptedKeys, world at 1.
  cbn [fst snd]. rewrite Hkeys.
  unfold mbind at 1. unfold M_bind at 1. unfold assign at 1. cbn [fst snd].
  unfold mbind at 1. unfold M_bind at 1.
  cbn [decryptAllKeys_loop].
  unfold mbind at 1. unfold M_bind at 1. unfold the_aesKey.
  unfold mbind at 1. unfold M_bind at 1. unfold global at 1.
  cbn [fst snd aesKey set_decryptedKeys set_aesKey].
  unfold mret at 1. unfold M_ret at 1.
  unfold mbind at 1. unfold M_bind at 1. unfold decryptPrivateKey.
  rewrite Hfail. unfold throw.
  unfold mbind at 1. unfold M_bind at 1. unfold assign at 1. cbn [fst snd].
  reflexivity.
Qed.

(** C1, where the script departs from it: a row that opens under the derived
    key followed by one that does not.  The attempt is reported as failed and
    the handler forgets the key, but the entry pushed for the first row stays
    in [decryptedKeys], plaintext and all, with the state still Locked: the
    list is left partly populated. *)
Theorem unlockWithPassword_later_row_fails (pw : jsstring) (cred : Credential)
    (salt : list Z) (rec1 rec2 : KeyRecord) (rest : list KeyRecord)
    (opened : Uint8Array) (w : World) (s : Session) :
  pw <> [] ->
  credentials w = Some cred ->
  cred_pbkdf2Salt cred = Some salt ->
  keys w = rec1 :: rec2 :: rest ->
  let key := deriveAESKeyFromPassword pw (Uint8Array_from salt) in
  aes_gcm_decrypt (material key)
    (Uint8Array_from (rec_iv rec1)) (Uint8Array_from (rec_encrypted rec1))
  = Some opened ->
  aes_gcm_decrypt (material key)
    (Uint8Array_from (rec_iv rec2)) (Uint8Array_from (rec_encrypted rec2))
  = None ->
  unlockWithPassword pw (w, s)
  = (Normal (Shown (Js.lit "Wrong password or decryption failed.")),
     (w, set_aesKey None
           (set_decryptedKeys [length (objects s)]
              (set_objects
                 (objects s ++
                  [{| dk_id := rec_id rec1; dk_label := rec_label rec1;
                      dk_address := rec_address rec1;
                      dk_key := TextDecoder_decode opened |}]) s)))).
Proof.
  intros Hpw Hcred Hsalt Hkeys key Hopen Hfail. subst key.
  unfold unlockWithPassword. destruct pw as [|c pw]; [congruence|].
  cbn [Js.falsy]. unfold try_catch.
  unfold mbind at 1. unfold M_bind at 1. unfold getCredential, world at 1.
  cbn [fst snd]. rewrite Hcred. cbn [mbind option_bind]. rewrite Hsalt.
  unfold mbind at 1. unfold M_bind at 1. unfold assign at 1. cbn [fst snd].
  unfold mbind at 1. unfold M_bind at 1.
  unfold decryptAllKeys.
  unfold mbind at 1. unfold M_bind at 1. unfold getEncryptedKeys, world at 1.
  cbn [fst snd]. rewrite Hkeys.
  unfold mbind at 1. unfold M_bind at 1. unfold assign at 1. cbn [fst snd].
  unfold mbind at 1. unfold M_bind at 1.
  cbn [decryptAllKeys_loop].
  unfold the_aesKey, decryptPrivateKey, push, throw, assign, global, mbind,
    M_bind, mret, M_ret.
  cbn [fst snd aesKey set_decryptedKeys set_aesKey set_objects objects
       decryptedKeys].
  rewrite Hopen.
  cbn [fst snd aesKey set_decryptedKeys set_aesKey set_objects objects
       decryptedKeys].
  rewrite Hfail. reflexivity.
Qed.

(** C2, where the script departs from it: the same rows on the authenticator
    path.  The failed attempt leaves the state Locked with the derived key
    still in [aesKey] (this handler does not forget it) and with the first
    row's plaintext in [decryptedKeys]. *)
Theorem unlockWallet_later_row_fails (cred : Credential) (first : Uint8Array)
    (rec1 rec2 : KeyRecord) (rest : list KeyRecord)
    (opened : Uint8Array) (w : World) (s : Session) :
  walletState s = locked ->
  credMethod s <> Js.lit "password" ->
  credentials w = Some cred ->
  authenticator w (prompts w) = Asserted (Some first) ->
  keys w = rec1 :: rec2 :: rest ->
  let key := deriveAESKeyFromPRF first in
  aes_gcm_decrypt (material key)
    (Uint8Array_from (rec_iv rec1)) (Uint8Array_from (rec_encrypted rec1))
  = Some opened ->
  aes_gcm_decrypt (material key)
    (Uint8Array_from (rec_iv rec2)) (Uint8Array_from (rec_encrypted rec2))
  = None ->
  unlockWallet (w, s)
  = (Normal (Logged OperationError),
     (set_prompts (S (prompts w)) (set_drawn (drawn w + 32) w),
      set_decryptedKeys [length (objects s)]
        (set_objects
           (objects s ++
            [{| dk_id := rec_id rec1; dk_label := rec_label rec1;
                dk_address := rec_address rec1;
                dk_key := TextDecoder_decode opened |}])
           (set_aesKey (Some key) s)))).
Proof.
  intros Hst Hmethod Hcred Hauth Hkeys key Hopen Hfail. subst key.
  unfold unlockWallet.
  unfold mbind at 1. unfold M_bind at 1. unfold global at 1. cbn [fst snd].
  rewrite bool_decide_eq_false_2 by exact Hmethod.
  unfold try_catch.
  unfold mbind at 1. unfold M_bind at 1. unfold getCredential, world at 1.
  cbn [fst snd]. rewrite Hcred.
  unfold mbind at 1. unfold M_bind at 1. unfold getRandomValues at 1.
  cbn [fst snd].
  unfold mbind at 1. unfold M_bind at 1. unfold credentials_get at 1.
  cbn [fst snd authenticator prompts set_drawn]. rewrite Hauth.
  unfold mbind at 1. unfold M_bind at 1. unfold assign at 1. cbn [fst snd].
  unfold mbind at 1. unfold M_bind at 1.
  unfold decryptAllKeys.
  unfold mbind at 1. unfold M_bind at 1. unfold getEncryptedKeys, world at 1.
  cbn [fst snd keys set_prompts set_drawn]. rewrite Hkeys.
  unfold mbind at 1. unfold M_bind at 1. unfold assign at 1. cbn [fst snd].
  unfold mbind at 1. unfold M_bind at 1.
  cbn [decryptAllKeys_loop].
  unfold the_aesKey, decryptPrivateKey, push, throw, assign, global, mbind,
    M_bind, mret, M_ret.
  cbn [fst snd aesKey set_decryptedKeys set_aesKey set_objects objects
       decryptedKeys].
  rewrite Hopen.
  cbn [fst snd aesKey set_decryptedKeys set_aesKey set_objects objects
       decryptedKeys].
  rewrite Hfail.
  unfold renderWalletBar, global, mbind, M_bind, mret, M_ret.
  cbn [fst snd id walletState set_decryptedKeys set_aesKey set_objects].
  rewrite Hst. reflexivity.
Qed.

(** The page as loaded over a vault that has a credential is Locked with no
    key and no entry. *)
Lemma init_clean (cred : Credential) (w : World) :
  credentials w = Some cred ->
  exists w', init (w, initial) = (Normal tt, (w', (init (w, initial)).2.2))
    /\ clean_locked (init (w, initial)).2.2
    /\ storedKeyCount (init (w, initial)).2.2 = length (keys w).
Proof.
  intros Hcred. unfold init, try_catch, getCredential, getEncryptedKeys, world,
    assign, renderWalletBar, refresh, global, mbind, M_bind, mret, M_ret.
  cbn [fst snd]. rewrite Hcred. cbn [fst snd id walletState set_walletState].
  eexists. repeat split.
Qed.

End Unlock.

(** ** The script on the small platform *)

Lemma strip_app (a l : Uint8Array) : Toy.strip a (a ++ l) = Some l.
Proof.
  induction a as [|b a IH]; simpl; [reflexivity|].
  assert (Byte.eqb b b = true) as -> by now apply Byte.byte_dec_lb.
  exact IH.
Qed.

Lemma toy_sound : AesGcmSound Toy.crypto.
Proof.
  intros key iv plaintext. simpl.
  rewrite app_assoc. apply strip_app.
Qed.

Ltac evaluate := vm_compute; reflexivity.

Lemma unlockWithPassword_later_row_fails_witness :
  clean_locked Toy.reloaded.2
  /\ exists p',
       @unlockWithPassword Toy.crypto Toy.password (Toy.reloaded.1, Toy.reloaded.2)
       = (Normal (Shown (Js.lit "Wrong password or decryption failed.")), p')
       /\ walletState p'.2 = locked
       /\ aesKey p'.2 = None
       /\ map dk_key (entries p'.2) = [Toy.key_11].
Proof.
  split; [repeat split|].
  eexists. split.
  - refine (@unlockWithPassword_later_row_fails Toy.crypto Toy.password
              _ _ _ _ _ _ _ _ _ _ _ _ _ _); try evaluate.
    vm_compute. discriminate.
  - repeat split.
Defined.

Lemma unlockWallet_later_row_fails_witness :
  clean_locked Toy.prf_reloaded.2
  /\ exists p',
       @unlockWallet Toy.crypto (Toy.prf_reloaded.1, Toy.prf_reloaded.2)
       = (Normal (Logged OperationError), p')
       /\ walletState p'.2 = locked
       /\ aesKey p'.2 = Some (@deriveAESKeyFromPRF Toy.crypto Toy.prf_output)
       /\ map dk_key (entries p'.2) = [Toy.key_11].
Proof.
  split; [repeat split|].
  eexists. split.
  - refine (@unlockWallet_later_row_fails Toy.crypto
              _ _ _ _ _ _ _ _ _ _ _ _ _ _ _); try evaluate.
    vm_compute. discriminate.
  - repeat split.
Defined.

(** C3 as stated fails: an index outside the entry list is taken without
    any range error.  With no entry nothing is thrown at all; with entries the
    index is stored before the render throws a [TypeError]. *)
Lemma switchKey_no_range_check :
  (walletState Toy.fresh.2 = unlocked
   /\ decryptedKeys Toy.fresh.2 = []
   /\ switchKey (Js.lit "3") (Toy.fresh.1, Toy.fresh.2)
      = (Normal tt, (Toy.fresh.1, set_activeKeyIndex (Js.Int 3) Toy.fresh.2)))
  /\ (walletState Toy.two_keys.2 = unlocked
      /\ length (decryptedKeys Toy.two_keys.2) = 2%nat
      /\ switchKey (Js.lit "5") (Toy.two_keys.1, Toy.two_keys.2)
         = (Throw undefined_address,
            (Toy.two_keys.1, set_activeKeyIndex (Js.Int 5) Toy.two_keys.2))).
Proof. split; (split; [|split]); evaluate. Qed.

Lemma switchKey_sets_index_witness :
  switchKey (Js.lit "1") (Toy.two_keys.1, Toy.two_keys.2)
  = (Normal tt, (Toy.two_keys.1, set_activeKeyIndex (Js.Int 1) Toy.two_keys.2)).
Proof.
  refine (proj1 (switchKey_sets_index (Js.lit "1") 1 Toy.two_keys.1 Toy.two_keys.2
                   _ _) _); try evaluate.
  vm_compute. split; [discriminate|reflexivity].
Defined.

(** C4 as stated fails: the pages that a failed unlock leaves have
    [walletState] Locked, and [lockWallet] is no no-op on them.  After the
    authenticator path it drops the AES key that is still held; after the
    password path it empties the entry list that still holds the first
    row's entry. *)
Lemma lockWallet_changes_locked_state :
  (walletState
     (@unlockWallet Toy.crypto (Toy.prf_reloaded.1, Toy.prf_reloaded.2)).2.2
   = locked
   /\ lockWallet (@unlockWallet Toy.crypto (Toy.prf_reloaded.1, Toy.prf_reloaded.2)).2
      <> (Normal tt,
          (@unlockWallet Toy.crypto (Toy.prf_reloaded.1, Toy.prf_reloaded.2)).2))
  /\ (walletState
        (@unlockWithPassword Toy.crypto Toy.password
           (Toy.reloaded.1, Toy.reloaded.2)).2.2
      = locked
      /\ lockWallet
           (@unlockWithPassword Toy.crypto Toy.password
              (Toy.reloaded.1, Toy.reloaded.2)).2
         <> (Normal tt,
             (@unlockWithPassword Toy.crypto Toy.password
                (Toy.reloaded.1, Toy.reloaded.2)).2)).
Proof.
  split; (split; [evaluate|]); intros H.
  - apply (f_equal (fun r => aesKey r.2.2)) in H. vm_compute in H. discriminate.
  - apply (f_equal (fun r => decryptedKeys r.2.2)) in H. vm_compute in H.
    discriminate.
Qed.

Lemma lockWallet_spec_witness :
  (exists s',
     lockWallet (Toy.two_keys.1, Toy.two_keys.2) = (Normal tt, (Toy.two_keys.1, s'))
     /\ (forall r, In r (decryptedKeys Toy.two_keys.2) -> dk_key (deref s' r) = [])
     /\ clean_locked s')
  /\ (clean_locked Toy.reloaded.2
      /\ lockWallet (Toy.reloaded.1, Toy.reloaded.2)
         = (Normal tt, (Toy.reloaded.1, Toy.reloaded.2))).
Proof.
  split.
  - destruct (proj1 (lockWallet_spec Toy.two_keys.1 Toy.two_keys.2))
      as (s1 & s' & _ & _ & _ & Hrun & Hwiped & Hkeys & Haes & Hidx & Hst).
    exists s'. split; [exact Hrun|]. split; [exact Hwiped|].
    split; [exact Hst|]. split; [exact Haes|]. split; [exact Hkeys|exact Hidx].
  - assert (Hclean : clean_locked Toy.reloaded.2).
    { unfold clean_locked. split; [|split; [|split]]; evaluate. }
    split; [exact Hclean|].
    exact (proj2 (proj2 (lockWallet_spec Toy.reloaded.1 Toy.reloaded.2)
                    (proj1 Hclean)) (proj2 Hclean)).
Defined.

Lemma key_derivation_parameters_witness :
  @deriveAESKeyFromPRF Toy.crypto Toy.prf_output
  = {| algorithm := AES_GCM 256; extractable := false;
       usages := [usage_encrypt; usage_decrypt];
       material := Toy.pad32 (Toy.prf_output ++ PRF_SALT ++ HKDF_INFO) |}.
Proof.
  exact (proj1 (proj2 (proj2 (proj2
           (@key_derivation_parameters Toy.crypto Toy.prf_output Toy.password [])))))
  .
Defined.

Lemma encrypt_decrypt_roundtrip_witness :
  key_pattern_test Toy.key_11 = true
  /\ exists encrypted iv p',
       @encryptPrivateKey Toy.crypto Toy.key_11
         (@deriveAESKeyFromPRF Toy.crypto Toy.prf_output) Toy.fresh
       = (Normal (encrypted, iv), p')
       /\ @decryptPrivateKey Toy.crypto encrypted iv
            (@deriveAESKeyFromPRF Toy.crypto Toy.prf_output) p'
          = (Normal Toy.key_11, p').
Proof.
  split; [reflexivity|].
  apply (@encrypt_decrypt_roundtrip Toy.crypto toy_sound). reflexivity.
Defined.

Lemma setupWithPassword_short_witness :
  (length (Js.lit "horse12") < 8)%nat
  /\ exists msg,
       @setupWithPassword Toy.crypto (Js.lit "horse12") (Js.lit "horse12")
         (Toy.world, initial)
       = (Normal (Shown msg), (Toy.world, initial))
       /\ (msg = Js.lit "Please enter a password."
           \/ msg = Js.lit "Password must be at least 8 characters.").
Proof.
  split; [simpl; lia|].
  apply (@setupWithPassword_short Toy.crypto). simpl. lia.
Defined.

Lemma doImportKey_spec_witness :
  exists w' s' rec,
    @doImportKey Toy.crypto Toy.ethers (Js.lit "Main") Toy.key_11
      (Toy.fresh.1, Toy.fresh.2)
    = (Normal Completed, (w', s'))
    /\ keys w' = [rec]
    /\ rec_label rec = Js.lit "Main"
    /\ length (rec_address rec) = 42%nat
    /\ map dk_key (entries s') = [Toy.key_11]
    /\ activeKeyIndex s' = Js.Int 0.
Proof.
  assert (Hst : walletState Toy.fresh.2 = unlocked) by evaluate.
  assert (Haes : aesKey Toy.fresh.2
                 = Some (@deriveAESKeyFromPassword Toy.crypto Toy.password
                           (firstn 32 Toy.octets))) by evaluate.
  destruct (proj2 (@doImportKey_spec Toy.crypto Toy.ethers toy_sound
                     (Js.lit "Main") Toy.key_11 _ Toy.fresh.1 Toy.fresh.2 Hst Haes)
              ltac:(evaluate) (firstn 42 Toy.key_11) ltac:(evaluate)
              ltac:(right; evaluate) ltac:(constructor)
              ltac:(split; constructor))
    as (w' & s' & rec & Hrun & Hkeys & _ & Hlabel & Haddr & _ & _ & Hentries & Hidx & _).
  exists w', s', rec. split; [exact Hrun|]. split; [exact Hkeys|].
  split; [rewrite Hlabel; evaluate|]. split; [rewrite Haddr; evaluate|].
  split; [rewrite Hentries; evaluate|exact Hidx].
Defined.

Lemma generateKey_default_labels_witness :
  exists w2 s2,
    (let '(_, p1) := @generateKey Toy.crypto (Toy.fresh.1, Toy.fresh.2) in
     @generateKey Toy.crypto p1) = (Normal Completed, (w2, s2))
    /\ map rec_label (keys w2) = [Js.lit "Key 1"; Js.lit "Key 2"]
    /\ map dk_label (entries s2) = [Js.lit "Key 1"; Js.lit "Key 2"]
    /\ activeKeyIndex s2 = Js.Int 1.
Proof.
  assert (Hst : walletState Toy.fresh.2 = unlocked) by evaluate.
  assert (Haes : aesKey Toy.fresh.2
                 = Some (@deriveAESKeyFromPassword Toy.crypto Toy.password
                           (firstn 32 Toy.octets))) by evaluate.
  destruct (@generateKey_default_labels Toy.crypto _ Toy.fresh.1 Toy.fresh.2 Hst Haes
              ltac:(right; evaluate) ltac:(constructor))
    as (w1 & s1 & rec1 & r1 & Hrun1 & _ & _ & _ & _ & _ & _ & _ & _ & Htwo).
  destruct (Htwo ltac:(evaluate) ltac:(evaluate) ltac:(evaluate))
    as (w2 & s2 & rec2 & r2 & Hrun2 & Hkeys & Hl1 & Hl2 & _ & _ & _ & Hlabels & _ & Hidx).
  exists w2, s2. rewrite Hrun1. split; [exact Hrun2|].
  split; [rewrite Hkeys; simpl; now rewrite Hl1, Hl2|].
  split; [exact Hlabels|exact Hidx].
Defined.

Lemma doRenameKey_frame_witness :
  exists report w' s',
    doRenameKey (Js.lit "2") (Js.lit " Hot ") (Toy.two_keys.1, Toy.two_keys.2)
    = (Normal report, (w', s'))
    /\ map rec_label (keys w') = [Js.lit "Main"; Js.lit "Hot"]
    /\ map dk_label (entries s') = [Js.lit "Main"; Js.lit "Hot"].
Proof.
  destruct (Idb.get 2 (keys Toy.two_keys.1)) as [r|] eqn:Hget;
    [|vm_compute in Hget; discriminate].
  destruct (doRenameKey_frame (Js.lit "2") (Js.lit " Hot ") 2 0 r
              Toy.two_keys.1 Toy.two_keys.2
              ltac:(evaluate) Hget ltac:(vm_compute; discriminate)
              ltac:(vm_compute; repeat split)
              ltac:(split; [vm_compute; repeat constructor
                           |apply (bool_decide_unpack _); evaluate]))
    as (report & w' & s' & Hrun & Hkeys & _ & _ & _ & Hentries & _).
  exists report, w', s'. split; [exact Hrun|].
  split; [rewrite Hkeys; evaluate|rewrite Hentries; evaluate].
Defined.

(** ** Unlocking a vault whose rows all open *)

Section Unlocking.

Context {crypto : SubtleCrypto}.

Lemma decryptAllKeys_loop_run (aes : CryptoKey) (rows : list KeyRecord)
    (plain : list jsstring) (w : World) (s : Session) :
  aesKey s = Some aes ->
  Forall2 (fun r k => opens aes r = Some k) rows plain ->
  decryptAllKeys_loop rows (w, s)
  = (Normal tt,
     (w, set_decryptedKeys
           (decryptedKeys s ++ seq (length (objects s)) (length rows))
           (set_objects (objects s ++ zip_with entry_of rows plain) s))).
Proof.
  intros Haes Hopen. revert s Haes.
  induction Hopen as [|r k rows plain Hr _ IH]; intros s Haes.
  - simpl. rewrite !app_nil_r. now destruct s.
  - cbn [decryptAllKeys_loop].
    unfold the_aesKey, decryptPrivateKey, push.
    unfold mbind at 1. unfold M_bind at 1.
    unfold mbind at 1. unfold M_bind at 1. unfold global at 1. cbn [fst snd].
    rewrite Haes. unfold mret at 1. unfold M_ret at 1.
    unfold mbind at 1. unfold M_bind at 1.
    unfold opens in Hr.
    destruct (aes_gcm_decrypt _ _ _) as [d|]; [|discriminate].
    injection Hr as Hr. unfold mret at 1. unfold M_ret at 1.
    unfold mbind at 1. unfold M_bind at 1. unfold assign at 1. cbn [fst snd].
    rewrite IH by exact Haes.
    cbn [decryptedKeys objects set_decryptedKeys set_objects zip_with length seq].
    rewrite Hr, length_app, <- !app_assoc. cbn [length app].
    replace (length (objects s) + 1)%nat with (S (length (objects s))) by lia.
    reflexivity.
Qed.

(** Reading a run of fresh slots gives back the objects put there. *)
Lemma entries_fresh (s : Session) (es : list DecryptedKey) :
  map (fun r => default blank ((objects s ++ es) !! r))
      (seq (length (objects s)) (length es))
  = es.
Proof.
  revert s. induction es as [|e es IH] using rev_ind; intros s; [reflexivity|].
  rewrite length_app. cbn [length]. rewrite seq_app, map_app. cbn [seq map].
  f_equal.
  - rewrite <- (IH s) at 2. apply map_ext_in. intros r Hr.
    apply in_seq in Hr. rewrite app_assoc.
    rewrite lookup_app_l by (rewrite length_app; lia). reflexivity.
  - rewrite app_assoc, list_lookup_middle by (rewrite length_app; lia).
    reflexivity.
Qed.

Lemma unlockWithPassword_run (pw : jsstring) (cred : Credential) (salt : list Z)
    (plain : list jsstring) (w : World) (s : Session) :
  pw <> [] ->
  credentials w = Some cred ->
  cred_pbkdf2Salt cred = Some salt ->
  let aes := deriveAESKeyFromPassword pw (Uint8Array_from salt) in
  Forall2 (fun r k => opens aes r = Some k) (keys w) plain ->
  unlockWithPassword pw (w, s)
  = (Normal Completed,
     (w, session_after_unlock s aes (zip_with entry_of (keys w) plain))).
Proof.
  intros Hpw Hcred Hsalt aes Hopen.
  unfold unlockWithPassword. destruct pw as [|c pw]; [congruence|].
  cbn [Js.falsy]. unfold try_catch.
  unfold mbind at 1. unfold M_bind at 1. unfold getCredential, world at 1.
  cbn [fst snd]. rewrite Hcred. cbn [mbind option_bind]. rewrite Hsalt.
  unfold mbind at 1. unfold M_bind at 1. unfold assign at 1. cbn [fst snd].
  unfold mbind at 1. unfold M_bind at 1.
  unfold decryptAllKeys.
  unfold mbind at 1. unfold M_bind at 1. unfold getEncryptedKeys, world at 1.
  cbn [fst snd].
  unfold mbind at 1. unfold M_bind at 1. unfold assign at 1. cbn [fst snd].
  unfold mbind at 1. unfold M_bind at 1.
  rewrite (decryptAllKeys_loop_run aes (keys w) plain) by (reflexivity || exact Hopen).
  unfold mbind at 1. unfold M_bind at 1. unfold assign at 1. cbn [fst snd].
  unfold assign at 1. cbn [fst snd].
  unfold mbind at 1. unfold M_bind at 1. unfold assign at 1. cbn [fst snd].
  unfold mbind at 1. unfold M_bind at 1.
  rewrite renderWalletBar_ok.
  - unfold refresh, mbind, M_bind, mret, M_ret. cbn [fst snd].
    unfold session_after_unlock.
    cbn [decryptedKeys objects set_decryptedKeys set_objects set_aesKey
         set_activeKeyIndex set_storedKeyCount set_walletState app].
    rewrite length_seq, length_zip_with.
    apply Forall2_length in Hopen. rewrite <- Hopen, Nat.min_id.
    reflexivity.
  - intros _ Hne.
    cbn [decryptedKeys activeKeyIndex set_decryptedKeys set_objects set_aesKey
         set_activeKeyIndex set_storedKeyCount set_walletState app] in *.
    apply index_in_bounds. destruct (seq _ _); [congruence|]. simpl. lia.
Qed.

End Unlocking.

Section Mirror.

Context {crypto : SubtleCrypto} {ethers : Ethers}.

Lemma entries_after_unlock (s : Session) (aes : CryptoKey) (es : list DecryptedKey) :
  entries (session_after_unlock s aes es) = es.
Proof. unfold entries, deref. apply entries_fresh. Qed.

Lemma synced_plain (aes : CryptoKey) (w : World) (s : Session) :
  synced aes w s ->
  Forall2 (fun r k => opens aes r = Some k) (keys w) (map dk_key (entries s))
  /\ zip_with entry_of (keys w) (map dk_key (entries s)) = entries s.
Proof.
  unfold synced. generalize (entries s) (keys w).
  induction 1 as [|e r es rows [Hopen He] _ [IH1 IH2]]; [now split|].
  split; [now constructor|]. simpl. now rewrite IH2, <- He.
Qed.

Lemma synced_zip (aes : CryptoKey) (rows : list KeyRecord) (plain : list jsstring) :
  Forall2 (fun r k => opens aes r = Some k) rows plain ->
  Forall2 (fun e r => opens aes r = Some (dk_key e) /\ e = entry_of r (dk_key e))
    (zip_with entry_of rows plain) rows.
Proof. induction 1; constructor; [now split|assumption]. Qed.

Lemma vault_ok_after_unlock (aes : CryptoKey) (w : World) (s : Session)
    (plain : list jsstring) :
  store_ok w ->
  Forall2 (fun r k => opens aes r = Some k) (keys w) plain ->
  vault_ok aes w (session_after_unlock s aes (zip_with entry_of (keys w) plain)).
Proof.
  intros Hstore Hopen. split; [reflexivity|]. split; [reflexivity|].
  split; [|split; [exact Hstore|]].
  - split; cbn [decryptedKeys objects session_after_unlock set_walletState
      set_storedKeyCount set_activeKeyIndex set_decryptedKeys set_objects].
    + apply List.Forall_forall. intros r Hr. apply in_seq in Hr.
      rewrite length_app. lia.
    + apply NoDup_ListNoDup, List.seq_NoDup.
  - unfold synced. rewrite entries_after_unlock. now apply synced_zip.
Qed.

(** X1: when every row of the store opens under the key derived from the
    password and the stored salt, [unlockWithPassword] ends Unlocked with that
    key, one entry per row in the store's order (the row's id, label and
    address, and its plaintext), the first entry active and [storedKeyCount]
    the number of rows; the stores are not written, and over a store in order
    the vault is then in good order. *)
Theorem unlockWithPassword_opens_all (pw : jsstring) (cred : Credential)
    (salt : list Z) (plain : list jsstring) (w : World) (s : Session) :
  pw <> [] ->
  credentials w = Some cred ->
  cred_pbkdf2Salt cred = Some salt ->
  let aes := deriveAESKeyFromPassword pw (Uint8Array_from salt) in
  Forall2 (fun r k => opens aes r = Some k) (keys w) plain ->
  exists s',
    unlockWithPassword pw (w, s) = (Normal Completed, (w, s'))
    /\ walletState s' = unlocked
    /\ aesKey s' = Some aes
    /\ entries s' = zip_with entry_of (keys w) plain
    /\ activeKeyIndex s' = Js.Int 0
    /\ storedKeyCount s' = length (keys w)
    /\ (store_ok w -> vault_ok aes w s').
Proof.
  intros Hpw Hcred Hsalt aes Hopen.
  eexists. split; [now apply (unlockWithPassword_run pw cred salt plain)|].
  split; [reflexivity|]. split; [reflexivity|].
  split; [apply entries_after_unlock|]. split; [reflexivity|]. split.
  - cbn [storedKeyCount session_after_unlock set_walletState set_storedKeyCount].
    rewrite length_zip_with. apply Forall2_length in Hopen. lia.
  - intros Hstore. now apply vault_ok_after_unlock.
Qed.

(** X2: locking and unlocking again with the password gives the entries
    back.  From a state whose entries mirror the store under the key of that
    password, [lockWallet] followed by [unlockWithPassword] ends Unlocked with
    the same key and the same entries (id, label, address and plaintext) in
    the same order. *)
Theorem lock_then_unlock_restores (pw : jsstring) (cred : Credential)
    (salt : list Z) (w : World) (s : Session) :
  pw <> [] ->
  credentials w = Some cred ->
  cred_pbkdf2Salt cred = Some salt ->
  synced (deriveAESKeyFromPassword pw (Uint8Array_from salt)) w s ->
  exists s1 s2,
    lockWallet (w, s) = (Normal tt, (w, s1))
    /\ walletState s1 = locked
    /\ entries s1 = []
    /\ unlockWithPassword pw (w, s1) = (Normal Completed, (w, s2))
    /\ walletState s2 = unlocked
    /\ aesKey s2 = Some (deriveAESKeyFromPassword pw (Uint8Array_from salt))
    /\ entries s2 = entries s.
Proof.
  intros Hpw Hcred Hsalt Hsync.
  destruct (synced_plain _ _ _ Hsync) as [Hopen Hzip].
  eexists _, _. split; [apply lockWallet_run|].
  split; [reflexivity|]. split; [reflexivity|].
  split; [now apply (unlockWithPassword_run pw cred salt (map dk_key (entries s)))|].
  split; [reflexivity|]. split; [reflexivity|].
  now rewrite entries_after_unlock.
Qed.

(** X3: with a password credential and no row in the store there is nothing
    to check a password against: [unlockWithPassword] unlocks for every
    non-empty password, with the key derived from it. *)
Theorem unlockWithPassword_empty_store (pw : jsstring) (cred : Credential)
    (salt : list Z) (w : World) (s : Session) :
  pw <> [] ->
  credentials w = Some cred ->
  cred_pbkdf2Salt cred = Some salt ->
  keys w = [] ->
  exists s',
    unlockWithPassword pw (w, s) = (Normal Completed, (w, s'))
    /\ walletState s' = unlocked
    /\ aesKey s' = Some (deriveAESKeyFromPassword pw (Uint8Array_from salt))
    /\ entries s' = [].
Proof.
  intros Hpw Hcred Hsalt Hkeys.
  eexists. split.
  - apply (unlockWithPassword_run pw cred salt []); try assumption.
    rewrite Hkeys. constructor.
  - rewrite Hkeys. split; [reflexivity|]. split; [reflexivity|].
    apply entries_after_unlock.
Qed.

End Mirror.

(** ** Password setup, the accepted case *)

Section SetupAccepted.

Context {crypto : SubtleCrypto}.

Lemma setupWithPassword_run (pw : jsstring) (w : World) (s : Session) :
  (8 <= length pw)%nat ->
  setupWithPassword pw pw (w, s)
  = (Normal Completed, (world_after_setup w, session_after_setup pw w s)).
Proof.
  intros Hlen. unfold setupWithPassword.
  destruct pw as [|c pw]; [simpl in Hlen; lia|]. cbn [Js.falsy].
  replace (length (c :: pw) <? 8)%nat with false
    by (symmetry; apply Nat.ltb_ge; exact Hlen).
  rewrite bool_decide_eq_true_2 by reflexivity. cbn [negb].
  unfold try_catch, getRandomValues, Date_now, saveCredential, write_world, assign,
    renderWalletBar, global, mbind, M_bind, mret, M_ret.
  cbn [fst snd id walletState decryptedKeys set_storedKeyCount set_decryptedKeys
       set_walletState set_credMethod set_aesKey length Nat.ltb Nat.leb].
  reflexivity.
Qed.

(** X4: a password of at least 8 code units, typed the same twice, sets the
    vault up: 32 octets are drawn as salt, the credential row holds method
    'password' and those 32 numbers, the state is Unlocked with no entry and
    [storedKeyCount] 0, and the session key is the one the stored salt gives
    back at any later unlock.  The operation does not look at what is there:
    a credential already stored is overwritten, and the rows of the [keys]
    store stay as they were. *)
Theorem setupWithPassword_accepts (pw : jsstring) (w : World) (s : Session) :
  (8 <= length pw)%nat ->
  exists w' s' cred salt,
    setupWithPassword pw pw (w, s) = (Normal Completed, (w', s'))
    /\ credentials w' = Some cred
    /\ cred_method cred = Some (Js.lit "password")
    /\ cred_pbkdf2Salt cred = Some salt
    /\ length salt = 32%nat
    /\ keys w' = keys w
    /\ walletState s' = unlocked
    /\ entries s' = []
    /\ storedKeyCount s' = 0%nat
    /\ aesKey s' = Some (deriveAESKeyFromPassword pw (Uint8Array_from salt)).
Proof.
  intros Hlen. eexists _, _, _, _.
  split; [now apply setupWithPassword_run|].
  split; [reflexivity|]. split; [reflexivity|]. split; [reflexivity|].
  split; [unfold Array_from; now rewrite !length_map, length_seq|].
  split; [reflexivity|]. split; [reflexivity|]. split; [reflexivity|].
  split; [reflexivity|].
  cbn [aesKey session_after_setup set_storedKeyCount set_decryptedKeys
       set_walletState set_credMethod set_aesKey].
  now rewrite Uint8Array_from_Array_from.
Qed.

(** Two different entries for password and confirmation are turned down with
    'Passwords do not match.' and the page as it was. *)
Lemma setupWithPassword_mismatch (pw confirm : jsstring) (p : Page) :
  (8 <= length pw)%nat ->
  pw <> confirm ->
  setupWithPassword pw confirm p
  = (Normal (Shown (Js.lit "Passwords do not match.")), p).
Proof.
  intros Hlen Hne. unfold setupWithPassword.
  destruct pw as [|c pw]; [simpl in Hlen; lia|]. cbn [Js.falsy].
  replace (length (c :: pw) <? 8)%nat with false
    by (symmetry; apply Nat.ltb_ge; exact Hlen).
  rewrite bool_decide_eq_false_2 by exact Hne. reflexivity.
Qed.

End SetupAccepted.

(** ** The vault stays in good order *)

Section GoodOrder.

Context {crypto : SubtleCrypto} {ethers : Ethers}.

Lemma ascending_snoc (lo : Z) (rows : list KeyRecord) (r : KeyRecord) :
  Idb.ascending lo rows -> Idb.below (rec_id r) rows -> lo < rec_id r ->
  Idb.ascending lo (rows ++ [r]).
Proof.
  revert lo. induction rows as [|x rows IH]; intros lo; simpl.
  - intros _ _ Hlo. now split.
  - intros [Hlo Hasc] Hbelow _. apply Forall_cons in Hbelow as [Hx Hbelow].
    split; [exact Hlo|]. now apply IH.
Qed.

Lemma store_ok_after_store (w : World) (rec : KeyRecord) :
  store_ok w -> rec_id rec = keyGenerator w ->
  store_ok (world_after_store w rec).
Proof.
  intros (Hasc & Hbelow & Hgen) Hid. unfold store_ok, world_after_store.
  cbn [keys keyGenerator set_keys]. repeat split.
  - apply ascending_snoc; [exact Hasc|now rewrite Hid|lia].
  - apply Forall_app. split.
    + eapply List.Forall_impl; [|exact Hbelow]. simpl. intros; lia.
    + constructor; [lia|constructor].
  - lia.
Qed.

Lemma ascending_relabel (lo k : Z) (l : jsstring) (rows : list KeyRecord) :
  Idb.ascending lo rows ->
  Idb.ascending lo
    (map (fun x => if rec_id x =? k then set_rec_label l x else x) rows).
Proof.
  revert lo. induction rows as [|x rows IH]; intros lo; simpl; [tauto|].
  intros [Hlo Hasc].
  assert (rec_id (if rec_id x =? k then set_rec_label l x else x) = rec_id x) as ->
    by now destruct (rec_id x =? k).
  split; [exact Hlo|now apply IH].
Qed.

Lemma below_relabel (gen k : Z) (l : jsstring) (rows : list KeyRecord) :
  Idb.below gen rows ->
  Idb.below gen
    (map (fun x => if rec_id x =? k then set_rec_label l x else x) rows).
Proof.
  unfold Idb.below. induction 1 as [|x rows Hx _ IH]; simpl; constructor; [|exact IH].
  now destruct (rec_id x =? k).
Qed.

Lemma store_ok_after_rename (w : World) (k : Z) (r : KeyRecord) (l : jsstring) :
  store_ok w -> Idb.get k (keys w) = Some r ->
  store_ok (world_after_rename w k r l).
Proof.
  intros (Hasc & Hbelow & Hgen) Hget. unfold store_ok, world_after_rename.
  cbn [keys keyGenerator set_keys].
  rewrite (put_relabel k 0) by assumption. repeat split.
  - now apply ascending_relabel.
  - apply below_relabel. eapply List.Forall_impl; [|exact Hbelow].
    simpl. intros; lia.
  - lia.
Qed.

Lemma opens_relabel (aes : CryptoKey) (l : jsstring) (r : KeyRecord) :
  opens aes (set_rec_label l r) = opens aes r.
Proof. reflexivity. Qed.

(** Under a store in order, relabelling the first entry of an id and the
    rows of that id keeps entries and rows in step. *)
Lemma synced_relabel (aes : CryptoKey) (k lo : Z) (l : jsstring)
    (es : list DecryptedKey) (rows : list KeyRecord) :
  Idb.ascending lo rows ->
  Forall2 (fun e r => opens aes r = Some (dk_key e) /\ e = entry_of r (dk_key e))
    es rows ->
  Forall2 (fun e r => opens aes r = Some (dk_key e) /\ e = entry_of r (dk_key e))
    (relabel_first k l es)
    (map (fun x => if rec_id x =? k then set_rec_label l x else x) rows).
Proof.
  intros Hasc Hsync. revert lo Hasc.
  induction Hsync as [|e r es rows [Hopen He] Hrest IH]; intros lo Hasc;
    [constructor|].
  destruct Hasc as [Hlo Hasc]. cbn [relabel_first map].
  assert (Hid : dk_id e = rec_id r) by now rewrite He.
  rewrite Hid. destruct (rec_id r =? k) eqn:E.
  - apply Z.eqb_eq in E. constructor.
    + split; [exact Hopen|]. rewrite He at 1. reflexivity.
    + rewrite (relabel_above k (rec_id r)) by (assumption || lia). exact Hrest.
  - constructor; [now split|]. now apply (IH (rec_id r)).
Qed.

Lemma well_formed_alter (s : Session) (f : DecryptedKey -> DecryptedKey) (r : nat) :
  well_formed s -> well_formed (set_objects (alter f r (objects s)) s).
Proof.
  intros [Hlt Hnd]. split; [|exact Hnd].
  cbn [objects decryptedKeys set_objects]. now rewrite length_alter.
Qed.

Lemma vault_ok_ethersLoaded (aes : CryptoKey) (w : World) (s : Session) (b : bool) :
  vault_ok aes w s -> vault_ok aes w (set_ethersLoaded b s).
Proof. intros H. exact H. Qed.

Lemma doRenameKey_cases (keyIdInput labelInput : jsstring) (w : World) (s : Session) :
  (exists report, doRenameKey keyIdInput labelInput (w, s) = (Normal report, (w, s)))
  \/ (exists k r report,
        Js.parseInt10 keyIdInput = Js.Int k
        /\ Idb.get k (keys w) = Some r
        /\ Js.trim labelInput <> []
        /\ doRenameKey keyIdInput labelInput (w, s)
           = (Normal report,
              (world_after_rename w k r (Js.trim labelInput),
               session_after_rename s k (Js.trim labelInput)))).
Proof.
  unfold doRenameKey.
  destruct (Js.trim labelInput) as [|c l] eqn:Hlabel.
  { left. eexists. reflexivity. }
  cbn [Js.falsy]. unfold try_catch.
  destruct (Js.parseInt10 keyIdInput) as [|k] eqn:Hparse.
  { left. eexists. reflexivity. }
  destruct (Idb.get k (keys w)) as [r|] eqn:Hget.
  - right. exists k, r.
    unfold mbind at 1. unfold M_bind at 1.
    rewrite (updateKeyLabel_run k _ r) by exact Hget.
    unfold mbind at 1. unfold M_bind at 1. unfold global at 1. cbn [fst snd].
    unfold mbind at 1. unfold M_bind at 1.
    unfold world_after_rename, session_after_rename.
    set (w1 := set_keys _ _ w).
    destruct (find_entry (Js.Int k) s) as [r0|]; unfold assign, mret, M_ret;
      cbn [fst snd].
    + unfold mbind at 1. unfold M_bind at 1.
      destruct (renderWalletBar_reads (w1, set_objects
                  (alter (set_dk_label (c :: l)) r0 (objects s)) s)) as [c0 ->].
      destruct c0; eexists; (split; [reflexivity|]); (split; [exact Hget|]);
        (split; [discriminate|]); reflexivity.
    + unfold mbind at 1. unfold M_bind at 1.
      destruct (renderWalletBar_reads (w1, s)) as [c0 ->].
      destruct c0; eexists; (split; [reflexivity|]); (split; [exact Hget|]);
        (split; [discriminate|]); reflexivity.
  - left. unfold mbind at 1. unfold M_bind at 1.
    unfold updateKeyLabel, getEncryptedKeys, mbind, M_bind, world. cbn [fst snd].
    rewrite Hget. eexists. reflexivity.
Qed.

(** X5: whatever is typed into the rename dialog, [doRenameKey] leaves an
    unlocked vault in good order: the store's ids stay ascending and below the
    generator, the entry array stays sound, and entries and rows still carry
    the same ids, labels, addresses and plaintexts, pairwise. *)
Theorem doRenameKey_keeps_order (keyIdInput labelInput : jsstring)
    (aes : CryptoKey) (w : World) (s : Session) :
  vault_ok aes w s ->
  vault_ok aes (doRenameKey keyIdInput labelInput (w, s)).2.1
               (doRenameKey keyIdInput labelInput (w, s)).2.2.
Proof.
  intros (Hst & Haes & Hwf & Hstore & Hsync).
  destruct (doRenameKey_cases keyIdInput labelInput w s)
    as [[report ->]|(k & r & report & Hparse & Hget & Hlabel & ->)];
    cbn [fst snd];
    [exact (conj Hst (conj Haes (conj Hwf (conj Hstore Hsync))))|].
  pose proof Hstore as (Hasc & Hbelow & Hgen).
  split; [|split; [|split; [|split]]].
  - unfold session_after_rename. now destruct (find_entry _ s).
  - unfold session_after_rename. now destruct (find_entry _ s).
  - unfold session_after_rename. destruct (find_entry _ s); [|exact Hwf].
    now apply well_formed_alter.
  - now apply store_ok_after_rename.
  - unfold synced, world_after_rename. cbn [keys set_keys].
    rewrite (put_relabel k 0) by assumption.
    replace (entries (session_after_rename s k (Js.trim labelInput)))
      with (relabel_first k (Js.trim labelInput) (entries s)).
    + now apply (synced_relabel aes k 0).
    + destruct Hwf as [Hlt Hnd].
      pose proof (relabel_objects k (Js.trim labelInput) (objects s)
                    (decryptedKeys s) Hlt Hnd) as Hrel.
      cbv zeta in Hrel. unfold entries, deref. rewrite <- Hrel.
      unfold session_after_rename, find_entry, deref. cbn [Js.num_eqb].
      destruct (find _ (decryptedKeys s)); reflexivity.
Qed.

End GoodOrder.

Section GoodOrderAdding.

Context {crypto : SubtleCrypto} {ethers : Ethers}.

Lemma ensureEthers_fails (w : World) (s : Session) :
  ethersLoaded s = false -> cdn w = false ->
  ensureEthers (w, s)
  = (Throw (mkError (Js.lit "Failed to load ethers.js")), (w, s)).
Proof.
  intros Hl Hc. unfold ensureEthers, mbind, M_bind, global, world.
  cbn [fst snd]. rewrite Hl. cbn [fst snd]. now rewrite Hc.
Qed.

Lemma doImportKey_no_ethers (labelInput keyInput : jsstring) (aes : CryptoKey)
    (w : World) (s : Session) :
  key_pattern_test (normalized_key keyInput) = true ->
  aesKey s = Some aes ->
  ethersLoaded s = false -> cdn w = false ->
  doImportKey labelInput keyInput (w, s)
  = (Normal (Shown (Js.lit "Failed: Failed to load ethers.js")), (w, s)).
Proof.
  intros Hpat Haes Hl Hc.
  unfold doImportKey, normalized_key in *.
  unfold mbind at 1. unfold M_bind at 1. unfold global at 1. cbn [fst snd].
  destruct (Js.trim keyInput) as [|c k] eqn:Etrim; [discriminate|].
  cbn [Js.falsy]. rewrite Hpat. cbn [negb].
  unfold mbind at 1. unfold M_bind at 1. unfold global at 1. cbn [fst snd].
  rewrite Haes. unfold try_catch.
  unfold mbind at 1. unfold M_bind at 1.
  rewrite ensureEthers_fails by assumption. reflexivity.
Qed.

Lemma generateKey_no_ethers (aes : CryptoKey) (w : World) (s : Session) :
  aesKey s = Some aes ->
  ethersLoaded s = false -> cdn w = false ->
  generateKey (w, s)
  = (Normal (Shown (Js.lit "Failed: Failed to load ethers.js")), (w, s)).
Proof.
  intros Haes Hl Hc. unfold generateKey.
  unfold mbind at 1. unfold M_bind at 1. unfold global at 1. cbn [fst snd].
  rewrite Haes. unfold try_catch.
  unfold mbind at 1. unfold M_bind at 1.
  rewrite ensureEthers_fails by assumption. reflexivity.
Qed.

Context {sound : AesGcmSound crypto}.

Lemma opens_stored (w : World) (aes : CryptoKey) (label address key : jsstring) :
  ascii key ->
  opens aes (stored_record w aes label address key) = Some key.
Proof.
  intros Hascii. unfold opens, stored_record. cbn [rec_iv rec_encrypted].
  rewrite !Uint8Array_from_Array_from, decrypt_encrypt. cbn [fmap option_fmap option_map].
  now rewrite text_roundtrip.
Qed.

(** An entry added by the shared tail of import and generate keeps the vault
    in good order. *)
Lemma vault_ok_after_store (aes : CryptoKey) (w : World) (s : Session)
    (label address key : jsstring) :
  ascii key ->
  vault_ok aes w s ->
  let rec := stored_record w aes label address key in
  vault_ok aes (world_after_store w rec)
    (session_after_store s
       {| dk_id := rec_id rec; dk_label := label; dk_address := address;
          dk_key := key |}).
Proof.
  intros Hascii (Hst & Haes & Hwf & Hstore & Hsync) rec.
  split; [exact Hst|]. split; [exact Haes|].
  split; [now apply well_formed_push|].
  split; [now apply store_ok_after_store|].
  unfold synced. rewrite entries_push by apply Hwf.
  unfold world_after_store. cbn [keys set_keys set_ticks set_drawn].
  apply Forall2_app; [exact Hsync|].
  constructor; [|constructor]. split; [|reflexivity].
  now apply opens_stored.
Qed.

(** X6: whatever is typed into the import dialog, and whether or not the
    address derivation and the script load succeed, [doImportKey] leaves an
    unlocked vault in good order; a row is never written without its entry,
    nor an entry pushed without its row. *)
Theorem doImportKey_keeps_order (labelInput keyInput : jsstring)
    (aes : CryptoKey) (w : World) (s : Session) :
  vault_ok aes w s ->
  vault_ok aes (doImportKey labelInput keyInput (w, s)).2.1
               (doImportKey labelInput keyInput (w, s)).2.2.
Proof.
  intros Hok. pose proof Hok as (Hst & Haes & Hwf & Hstore & Hsync).
  destruct (key_pattern_test (normalized_key keyInput)) eqn:Hpat.
  2:{ destruct (doImportKey_rejects labelInput keyInput (w, s) Hpat)
        as (msg & -> & _). exact Hok. }
  destruct (ethersLoaded s) eqn:Hl; [|destruct (cdn w) eqn:Hc].
  3:{ rewrite (doImportKey_no_ethers _ _ aes) by assumption. exact Hok. }
  all: destruct (computeAddress (normalized_key keyInput)) as [address|] eqn:Ha.
  1,3: rewrite (doImportKey_run _ _ address aes)
         by (try assumption; (now left) || (now right) || apply Hstore);
       cbn [fst snd]; apply vault_ok_after_store;
       [now apply key_pattern_ascii|exact Hok].
  all: rewrite (doImportKey_deriver_fails _ _ aes)
         by (try assumption; (now left) || (now right));
       exact Hok.
Qed.

(** X7: [generateKey] leaves an unlocked vault in good order, given that the
    key the generator hands out is a private-key string. *)
Theorem generateKey_keeps_order (aes : CryptoKey) (w : World) (s : Session) :
  key_pattern_test (privateKey (minted w (mints w))) = true ->
  vault_ok aes w s ->
  vault_ok aes (generateKey (w, s)).2.1 (generateKey (w, s)).2.2.
Proof.
  intros Hkey Hok. pose proof Hok as (Hst & Haes & Hwf & Hstore & Hsync).
  destruct (ethersLoaded s) eqn:Hl; [|destruct (cdn w) eqn:Hc].
  3:{ rewrite (generateKey_no_ethers aes) by assumption. exact Hok. }
  all: rewrite (generateKey_run aes)
         by (try assumption; (now left) || (now right) || apply Hstore);
       cbn [fst snd];
       apply (vault_ok_after_store aes (set_mints (S (mints w)) w)
                (set_ethersLoaded true s));
       [now apply key_pattern_ascii|exact Hok].
Qed.

End GoodOrderAdding.

Section Scenario.

Context {crypto : SubtleCrypto} {ethers : Ethers} {sound : AesGcmSound crypto}.

Lemma vault_ok_after_setup (pw : jsstring) (w : World) (s : Session) :
  keys w = [] -> 0 < keyGenerator w ->
  vault_ok (deriveAESKeyFromPassword pw (map (entropy w) (seq (drawn w) 32)))
    (world_after_setup w) (session_after_setup pw w s).
Proof.
  intros Hkeys Hgen. split; [reflexivity|]. split; [reflexivity|].
  split; [split; constructor|]. split.
  - unfold store_ok, world_after_setup.
    cbn [keys keyGenerator set_credentials set_ticks set_drawn].
    rewrite Hkeys. repeat split; [constructor|exact Hgen].
  - unfold synced, world_after_setup.
    cbn [keys set_credentials set_ticks set_drawn]. rewrite Hkeys. constructor.
Qed.

(** X8: set up with a password, import a key, lock, unlock with the same
    password: every step completes, and the unlocked vault holds again the
    one entry that import made, with its label, its derived address and the
    normalised key as plaintext; locking and unlocking wrote nothing to the
    stores. *)
Theorem setup_import_lock_unlock (pw labelInput keyInput address : jsstring)
    (w : World) (s : Session) :
  (8 <= length pw)%nat ->
  keys w = [] ->
  0 < keyGenerator w ->
  key_pattern_test (normalized_key keyInput) = true ->
  computeAddress (normalized_key keyInput) = Some address ->
  ethersLoaded s = true \/ cdn w = true ->
  exists p1 p2 p3 p4,
    setupWithPassword pw pw (w, s) = (Normal Completed, p1)
    /\ doImportKey labelInput keyInput p1 = (Normal Completed, p2)
    /\ lockWallet p2 = (Normal tt, p3)
    /\ unlockWithPassword pw p3 = (Normal Completed, p4)
    /\ walletState p3.2 = locked
    /\ walletState p4.2 = unlocked
    /\ p4.1 = p2.1
    /\ entries p4.2 = entries p2.2
    /\ map (fun e => (dk_label e, dk_address e, dk_key e)) (entries p4.2)
       = [(Js.or_else (Js.trim labelInput) (Js.lit "Key 1"), address,
           normalized_key keyInput)].
Proof.
  intros Hlen Hkeys Hgen Hpat Haddr Hload.
  set (salt := map (entropy w) (seq (drawn w) 32)).
  set (aes := deriveAESKeyFromPassword pw salt).
  pose proof (vault_ok_after_setup pw w s Hkeys Hgen) as Hok1. fold salt aes in Hok1.
  set (w1 := world_after_setup w) in *. set (s1 := session_after_setup pw w s) in *.
  assert (Hrun2 := doImportKey_run labelInput keyInput address aes w1 s1 Hpat
                     eq_refl Haddr Hload (proj1 (proj2 (proj1 (proj2 (proj2 (proj2 Hok1))))))).
  cbv zeta in Hrun2.
  assert (Hok2 := vault_ok_after_store aes w1 (set_ethersLoaded true s1)
                    (Js.or_else (Js.trim labelInput) (default_label (storedKeyCount s1)))
                    address (normalized_key keyInput)
                    (proj1 (key_pattern_ascii _ Hpat)) Hok1).
  cbv zeta in Hok2.
  match type of Hrun2 with _ = (_, (?w2', ?s2')) =>
    set (w2 := w2') in *; set (s2 := s2') in * end.
  destruct Hok2 as (_ & _ & Hwf2 & _ & Hsync2).
  destruct (synced_plain _ _ _ Hsync2) as [Hopen Hzip].
  assert (Hpw : pw <> []) by (destruct pw; [simpl in Hlen; lia|discriminate]).
  assert (Hrun4 := unlockWithPassword_run pw
                     (password_credential salt (clock w (ticks w))) (Array_from salt)
                     (map dk_key (entries s2)) w2
                     (lockWallet (w2, s2)).2.2 Hpw eq_refl eq_refl).
  cbv zeta in Hrun4. rewrite Uint8Array_from_Array_from in Hrun4.
  specialize (Hrun4 Hopen).
  exists (w1, s1), (w2, s2). eexists. eexists.
  split; [now apply setupWithPassword_run|].
  split; [exact Hrun2|].
  split; [apply lockWallet_run|].
  split; [rewrite lockWallet_run in Hrun4; exact Hrun4|].
  split; [reflexivity|]. split; [reflexivity|]. split; [reflexivity|].
  cbn [snd]. rewrite entries_after_unlock, Hzip.
  split; [reflexivity|].
  subst s2. rewrite entries_push by (subst s1; constructor).
  reflexivity.
Qed.

End Scenario.

(** ** The added properties on the small platform *)

Lemma toy_aes :
  aesKey Toy.two_keys.2
  = Some (@deriveAESKeyFromPassword Toy.crypto Toy.password (firstn 32 Toy.octets)).
Proof. evaluate. Qed.

Lemma synced_by_lists {crypto : SubtleCrypto} (aes : CryptoKey) (w : World)
    (s : Session) (es : list DecryptedKey) (rows : list KeyRecord) :
  entries s = es -> keys w = rows ->
  Forall2 (fun e r => opens aes r = Some (dk_key e) /\ e = entry_of r (dk_key e))
    es rows ->
  synced aes w s.
Proof. intros <- <-. exact id. Qed.

Lemma Forall2_by_lists {A B} (R : A -> B -> Prop) (l l' : list A) (k k' : list B) :
  l = l' -> k = k' -> Forall2 R l' k' -> Forall2 R l k.
Proof. intros -> ->. exact id. Qed.

Ltac pairwise :=
  eapply Forall2_by_lists;
  [vm_compute; reflexivity
  |vm_compute; reflexivity
  |repeat (constructor; [vm_compute; reflexivity|]); constructor].

Ltac mirror :=
  eapply synced_by_lists;
  [vm_compute; reflexivity
  |vm_compute; reflexivity
  |repeat (constructor; [split; vm_compute; reflexivity|]); constructor].

Lemma toy_fresh_ok :
  @vault_ok Toy.crypto
    (@deriveAESKeyFromPassword Toy.crypto Toy.password (firstn 32 Toy.octets))
    Toy.fresh.1 Toy.fresh.2.
Proof.
  split; [evaluate|]. split; [evaluate|]. split.
  - split; vm_compute; constructor.
  - split; [|mirror].
    unfold store_ok. vm_compute. repeat split; constructor.
Qed.

Lemma toy_two_keys_ok :
  @vault_ok Toy.crypto
    (@deriveAESKeyFromPassword Toy.crypto Toy.password (firstn 32 Toy.octets))
    Toy.two_keys.1 Toy.two_keys.2.
Proof.
  split; [evaluate|]. split; [evaluate|]. split.
  - split; [vm_compute; repeat constructor|].
    apply (bool_decide_unpack _). evaluate.
  - split.
    + unfold store_ok. vm_compute. repeat split; repeat constructor.
    + mirror.
Qed.

Lemma unlockWithPassword_opens_all_witness :
  exists s',
    @unlockWithPassword Toy.crypto Toy.password (Toy.two_keys.1, initial)
    = (Normal Completed, (Toy.two_keys.1, s'))
    /\ map dk_key (entries s') = [Toy.key_11; privateKey (Toy.wallet 0)].
Proof.
  destruct (@unlockWithPassword_opens_all Toy.crypto Toy.password
              (password_credential (firstn 32 Toy.octets) 1700000000000)
              (Array_from (firstn 32 Toy.octets))
              [Toy.key_11; privateKey (Toy.wallet 0)] Toy.two_keys.1 initial
              ltac:(discriminate) ltac:(evaluate) ltac:(reflexivity)
              ltac:(pairwise))
    as (s' & Hrun & _ & _ & Hentries & _).
  exists s'. split; [exact Hrun|]. rewrite Hentries. evaluate.
Defined.

Lemma lock_then_unlock_restores_witness :
  exists s1 s2,
    lockWallet (Toy.two_keys.1, Toy.two_keys.2) = (Normal tt, (Toy.two_keys.1, s1))
    /\ @unlockWithPassword Toy.crypto Toy.password (Toy.two_keys.1, s1)
       = (Normal Completed, (Toy.two_keys.1, s2))
    /\ entries s2 = entries Toy.two_keys.2.
Proof.
  destruct (@lock_then_unlock_restores Toy.crypto Toy.password
              (password_credential (firstn 32 Toy.octets) 1700000000000)
              (Array_from (firstn 32 Toy.octets)) Toy.two_keys.1 Toy.two_keys.2
              ltac:(discriminate) ltac:(evaluate) ltac:(reflexivity)
              (proj2 (proj2 (proj2 (proj2 toy_two_keys_ok)))))
    as (s1 & s2 & Hlock & _ & _ & Hunlock & _ & _ & Hentries).
  exists s1, s2. split; [exact Hlock|]. split; [exact Hunlock|exact Hentries].
Defined.

Lemma unlockWithPassword_empty_store_witness :
  exists s',
    @unlockWithPassword Toy.crypto (Js.lit "not the password") (Toy.fresh.1, initial)
    = (Normal Completed, (Toy.fresh.1, s'))
    /\ walletState s' = unlocked.
Proof.
  destruct (@unlockWithPassword_empty_store Toy.crypto (Js.lit "not the password")
              (password_credential (firstn 32 Toy.octets) 1700000000000)
              (Array_from (firstn 32 Toy.octets)) Toy.fresh.1 initial
              ltac:(discriminate) ltac:(evaluate) ltac:(reflexivity) ltac:(evaluate))
    as (s' & Hrun & Hst & _).
  exists s'. split; [exact Hrun|exact Hst].
Defined.

Lemma setupWithPassword_accepts_witness :
  exists w' s',
    @setupWithPassword Toy.crypto Toy.password Toy.password (Toy.world, initial)
    = (Normal Completed, (w', s'))
    /\ walletState s' = unlocked
    /\ storedKeyCount s' = 0%nat.
Proof.
  destruct (@setupWithPassword_accepts Toy.crypto Toy.password Toy.world initial
              ltac:(vm_compute; repeat constructor))
    as (w' & s' & cred & salt & Hrun & _ & _ & _ & _ & _ & Hst & _ & Hcount & _).
  exists w', s'. split; [exact Hrun|]. split; [exact Hst|exact Hcount].
Defined.

Lemma doRenameKey_keeps_order_witness :
  @vault_ok Toy.crypto
    (@deriveAESKeyFromPassword Toy.crypto Toy.password (firstn 32 Toy.octets))
    (doRenameKey (Js.lit "2") (Js.lit " Hot ") (Toy.two_keys.1, Toy.two_keys.2)).2.1
    (doRenameKey (Js.lit "2") (Js.lit " Hot ") (Toy.two_keys.1, Toy.two_keys.2)).2.2.
Proof. exact (doRenameKey_keeps_order _ _ _ _ _ toy_two_keys_ok). Defined.

Lemma doImportKey_keeps_order_witness :
  @vault_ok Toy.crypto
    (@deriveAESKeyFromPassword Toy.crypto Toy.password (firstn 32 Toy.octets))
    (@doImportKey Toy.crypto Toy.ethers (Js.lit "Main") Toy.key_11
       (Toy.fresh.1, Toy.fresh.2)).2.1
    (@doImportKey Toy.crypto Toy.ethers (Js.lit "Main") Toy.key_11
       (Toy.fresh.1, Toy.fresh.2)).2.2.
Proof.
  exact (@doImportKey_keeps_order Toy.crypto Toy.ethers toy_sound _ _ _ _ _
           toy_fresh_ok).
Defined.

Lemma generateKey_keeps_order_witness :
  @vault_ok Toy.crypto
    (@deriveAESKeyFromPassword Toy.crypto Toy.password (firstn 32 Toy.octets))
    (@generateKey Toy.crypto (Toy.fresh.1, Toy.fresh.2)).2.1
    (@generateKey Toy.crypto (Toy.fresh.1, Toy.fresh.2)).2.2.
Proof.
  exact (@generateKey_keeps_order Toy.crypto toy_sound _ Toy.fresh.1 Toy.fresh.2
           ltac:(evaluate) toy_fresh_ok).
Defined.

Lemma setup_import_lock_unlock_witness :
  exists p1 p2 p3 p4,
    @setupWithPassword Toy.crypto Toy.password Toy.password (Toy.world, initial)
    = (Normal Completed, p1)
    /\ @doImportKey Toy.crypto Toy.ethers (Js.lit "Main") Toy.key_11 p1
       = (Normal Completed, p2)
    /\ lockWallet p2 = (Normal tt, p3)
    /\ @unlockWithPassword Toy.crypto Toy.password p3 = (Normal Completed, p4)
    /\ map dk_key (entries p4.2) = [Toy.key_11].
Proof.
  destruct (@setup_import_lock_unlock Toy.crypto Toy.ethers toy_sound
              Toy.password (Js.lit "Main") Toy.key_11 (firstn 42 Toy.key_11)
              Toy.world initial
              ltac:(vm_compute; repeat constructor) ltac:(reflexivity)
              ltac:(reflexivity) ltac:(evaluate) ltac:(evaluate)
              ltac:(right; reflexivity))
    as (p1 & p2 & p3 & p4 & H1 & H2 & H3 & H4 & _ & _ & _ & _ & Hentries).
  exists p1, p2, p3, p4. repeat (split; [assumption|]).
  apply (f_equal (map snd)) in Hentries. rewrite map_map in Hentries.
  exact Hentries.
Defined.

(** ** Page load and the authenticator path *)

Section Loading.

Context {crypto : SubtleCrypto}.

(** X9: loading the page reads the stores and writes nothing: no octet is
    drawn, no key derived, no row decrypted.  Without a credential the
    globals stay as declared (state 'none'); with one the state is Locked,
    with no key and no entry, [storedKeyCount] the number of rows and
    [credMethod] the credential's method, 'prf' when it has none. *)
Theorem init_loads (w : World) :
  exists s',
    init (w, initial) = (Normal tt, (w, s'))
    /\ aesKey s' = None
    /\ entries s' = []
    /\ (credentials w = None -> s' = initial)
    /\ (forall cred, credentials w = Some cred ->
          walletState s' = locked
          /\ storedKeyCount s' = length (keys w)
          /\ credMethod s'
             = match cred_method cred with
               | Some (c :: m) => c :: m
               | _ => Js.lit "prf"
               end).
Proof.
  unfold init, try_catch, getCredential, getEncryptedKeys, world, assign,
    renderWalletBar, refresh, global, mbind, M_bind, mret, M_ret.
  cbn [fst snd]. destruct (credentials w) as [cred|];
    cbn [fst snd id walletState set_walletState initial].
  - eexists. split; [reflexivity|]. split; [reflexivity|]. split; [reflexivity|].
    split; [discriminate|]. intros c [= <-].
    split; [reflexivity|]. split; [reflexivity|].
    cbn [credMethod set_walletState set_credMethod].
    destruct (cred_method cred) as [[|c m]|]; reflexivity.
  - eexists. split; [reflexivity|]. split; [reflexivity|]. split; [reflexivity|].
    split; [reflexivity|]. discriminate.
Qed.

(** X10: on the authenticator path an attempt that does not get a PRF output
    changes nothing in the session.  With method 'password' the function only
    opens the password dialog.  Otherwise, when the prompt is rejected or the
    assertion carries no PRF result, the state stays Locked with the globals
    as they were, and the stores are not written; a rejection named
    'NotAllowedError' is not even logged, anything else is. *)
Theorem unlockWallet_without_prf (cred : Credential) (w : World) (s : Session) :
  walletState s = locked ->
  credentials w = Some cred ->
  (credMethod s = Js.lit "password" ->
   unlockWallet (w, s) = (Normal Completed, (w, s)))
  /\ (credMethod s <> Js.lit "password" ->
      let w' := set_prompts (S (prompts w)) (set_drawn (drawn w + 32) w) in
      match authenticator w (prompts w) with
      | Rejected e =>
          unlockWallet (w, s)
          = (Normal (if bool_decide (name e = Js.lit "NotAllowedError")
                     then Dismissed else Logged e), (w', s))
      | Asserted None =>
          unlockWallet (w, s)
          = (Normal (Logged (mkError (Js.lit "PRF evaluation failed."))), (w', s))
      | Asserted (Some _) => True
      end).
Proof.
  intros Hst Hcred. split; intros Hmethod.
  - unfold unlockWallet, mbind, M_bind, global. cbn [fst snd].
    now rewrite bool_decide_eq_true_2.
  - intros w'.
    destruct (authenticator w (prompts w)) as [e|[first|]] eqn:Hauth;
      [|exact I|];
      unfold unlockWallet;
      (unfold mbind at 1; unfold M_bind at 1; unfold global at 1; cbn [fst snd]);
      rewrite bool_decide_eq_false_2 by exact Hmethod;
      unfold try_catch;
      (unfold mbind at 1; unfold M_bind at 1; unfold getCredential, world at 1;
       cbn [fst snd]); rewrite Hcred;
      (unfold mbind at 1; unfold M_bind at 1; unfold getRandomValues at 1;
       cbn [fst snd]);
      (unfold mbind at 1; unfold M_bind at 1; unfold credentials_get at 1;
       cbn [fst snd authenticator prompts set_drawn]); rewrite Hauth;
      unfold throw, renderWalletBar, global, mbind, M_bind, mret, M_ret;
      cbn [fst snd id walletState]; rewrite Hst; reflexivity.
Qed.

End Loading.

(** ** Adding is gated on the key *)

Section Gate.

Context {crypto : SubtleCrypto} {ethers : Ethers}.

Lemma doImportKey_no_key (labelInput keyInput : jsstring) (w : World) (s : Session) :
  aesKey s = None ->
  exists msg, doImportKey labelInput keyInput (w, s) = (Normal (Shown msg), (w, s)).
Proof.
  intros Haes. unfold doImportKey.
  unfold mbind at 1. unfold M_bind at 1. unfold global at 1. cbn [fst snd].
  destruct (Js.falsy (Js.trim keyInput)); [eexists; reflexivity|].
  destruct (negb _); [eexists; reflexivity|].
  unfold mbind at 1. unfold M_bind at 1. unfold global at 1. cbn [fst snd].
  rewrite Haes. eexists. reflexivity.
Qed.

(** X11: import and generate look at [aesKey] and at nothing else of the
    lock state.  Without a key both end with a message and the page as it
    was, whatever the input.  With a key held, [generateKey] persists a row
    and pushes its entry also when [walletState] says Locked, which is the
    state a failed authenticator unlock leaves behind. *)
Theorem adding_gated_on_key (labelInput keyInput : jsstring) (w : World)
    (s : Session) :
  (aesKey s = None ->
   (exists msg,
      doImportKey labelInput keyInput (w, s) = (Normal (Shown msg), (w, s)))
   /\ generateKey (w, s)
      = (Normal (Shown (Js.lit "Wallet is not unlocked.")), (w, s)))
  /\ (forall aes,
        aesKey s = Some aes ->
        walletState s = locked ->
        ethersLoaded s = true \/ cdn w = true ->
        Idb.below (keyGenerator w) (keys w) ->
        exists w' s' rec,
          generateKey (w, s) = (Normal Completed, (w', s'))
          /\ keys w' = keys w ++ [rec]
          /\ length (decryptedKeys s') = S (length (decryptedKeys s))
          /\ walletState s' = locked).
Proof.
  split.
  - intros Haes. split; [now apply doImportKey_no_key|].
    unfold generateKey, mbind, M_bind, global. cbn [fst snd]. now rewrite Haes.
  - intros aes Haes Hst Hload Hbelow.
    eexists _, _, _. split; [now apply (generateKey_run aes)|].
    split; [reflexivity|]. split; [|exact Hst].
    cbn [decryptedKeys session_after_store set_storedKeyCount set_activeKeyIndex
         set_decryptedKeys set_objects set_ethersLoaded].
    rewrite length_app. simpl. lia.
Qed.

End Gate.

(** ** The IndexedDB helpers *)

Section Helpers.

Lemma get_none_above (k lo : Z) (rows : list KeyRecord) :
  Idb.ascending lo rows -> k <= lo -> Idb.get k rows = None.
Proof.
  revert lo. induction rows as [|x rows IH]; intros lo; simpl; [reflexivity|].
  intros [Hlo Hasc] Hk.
  replace (rec_id x =? k) with false by (symmetry; apply Z.eqb_neq; lia).
  apply (IH (rec_id x)); [exact Hasc|lia].
Qed.

Lemma ascending_weaken (lo lo' : Z) (rows : list KeyRecord) :
  Idb.ascending lo rows -> lo' <= lo -> Idb.ascending lo' rows.
Proof. destruct rows; simpl; [tauto|]. intros [H1 H2] H. split; [lia|exact H2]. Qed.

Lemma get_delete_same (k lo : Z) (rows : list KeyRecord) :
  Idb.ascending lo rows -> Idb.get k (Idb.delete k rows) = None.
Proof.
  revert lo. induction rows as [|x rows IH]; intros lo; simpl; [reflexivity|].
  intros [Hlo Hasc]. destruct (rec_id x =? k) eqn:E.
  - apply Z.eqb_eq in E. apply (get_none_above k (rec_id x)); [exact Hasc|lia].
  - simpl. rewrite E. now apply (IH (rec_id x)).
Qed.

Lemma get_delete_other (j k : Z) (rows : list KeyRecord) :
  j <> k -> Idb.get j (Idb.delete k rows) = Idb.get j rows.
Proof.
  intros Hne. induction rows as [|x rows IH]; simpl; [reflexivity|].
  destruct (rec_id x =? k) eqn:E.
  - apply Z.eqb_eq in E.
    replace (rec_id x =? j) with false by (symmetry; apply Z.eqb_neq; lia).
    reflexivity.
  - simpl. now rewrite IH.
Qed.

Lemma ascending_delete (k lo : Z) (rows : list KeyRecord) :
  Idb.ascending lo rows -> Idb.ascending lo (Idb.delete k rows).
Proof.
  revert lo. induction rows as [|x rows IH]; intros lo; simpl; [tauto|].
  intros [Hlo Hasc]. destruct (rec_id x =? k).
  - apply (ascending_weaken (rec_id x)); [exact Hasc|lia].
  - simpl. split; [exact Hlo|now apply IH].
Qed.

Lemma below_delete (k gen : Z) (rows : list KeyRecord) :
  Idb.below gen rows -> Idb.below gen (Idb.delete k rows).
Proof.
  unfold Idb.below. induction 1 as [|x rows Hx Hrest IH]; simpl; [constructor|].
  destruct (rec_id x =? k); [exact Hrest|now constructor].
Qed.

(** X12: [saveEncryptedKey] followed by [getEncryptedKeys], over a store in
    order: the rows come back as before with the new row last, under an id
    that no row had, and the store is in order again; the globals are not
    touched. *)
Theorem saveEncryptedKey_then_list (record : KeyData) (w : World) (s : Session) :
  store_ok w ->
  exists w',
    (saveEncryptedKey record;; getEncryptedKeys) (w, s)
    = (Normal (keys w ++ [with_id (keyGenerator w) record]), (w', s))
    /\ keys w' = keys w ++ [with_id (keyGenerator w) record]
    /\ Idb.get (keyGenerator w) (keys w) = None
    /\ Idb.get (keyGenerator w) (keys w') = Some (with_id (keyGenerator w) record)
    /\ (forall j, j <> keyGenerator w -> Idb.get j (keys w') = Idb.get j (keys w))
    /\ credentials w' = credentials w
    /\ store_ok w'.
Proof.
  intros (Hasc & Hbelow & Hgen).
  assert (Hput : Idb.put (with_id (keyGenerator w) record) (keys w)
                 = keys w ++ [with_id (keyGenerator w) record])
    by now apply put_below.
  assert (Hnone : Idb.get (keyGenerator w) (keys w) = None).
  { clear Hput Hasc. induction Hbelow as [|x rows Hx _ IH]; simpl; [reflexivity|].
    replace (rec_id x =? keyGenerator w) with false
      by (symmetry; apply Z.eqb_neq; lia).
    exact IH. }
  assert (Hget : forall j rows r,
             Idb.get j (rows ++ [r])
             = match Idb.get j rows with
               | Some x => Some x
               | None => if rec_id r =? j then Some r else None
               end).
  { intros j rows r. induction rows as [|x rows IH]; simpl; [reflexivity|].
    now destruct (rec_id x =? j). }
  eexists. split.
  { unfold saveEncryptedKey, getEncryptedKeys, write_world, world, mbind, M_bind.
    cbn [fst snd keys set_keys]. rewrite Hput. reflexivity. }
  cbn [keys set_keys credentials].
  split; [reflexivity|]. split; [exact Hnone|]. split.
  { rewrite Hget, Hnone. cbn [rec_id with_id]. now rewrite Z.eqb_refl. }
  split.
  { intros j Hj. rewrite Hget. destruct (Idb.get j (keys w)); [reflexivity|].
    cbn [rec_id with_id].
    replace (keyGenerator w =? j) with false by (symmetry; apply Z.eqb_neq; lia).
    reflexivity. }
  split; [reflexivity|].
  unfold store_ok. cbn [keys keyGenerator set_keys]. repeat split.
  - apply ascending_snoc; [exact Hasc|exact Hbelow|exact Hgen].
  - apply Forall_app. split.
    + eapply List.Forall_impl; [|exact Hbelow]. simpl. intros; lia.
    + constructor; [cbn; lia|constructor].
  - lia.
Qed.

(** X13: [deleteEncryptedKey] over a store in order removes the row of that
    id and no other, keeps the order of the rest and the store in order, and
    leaves the key generator, the credential and every global as they were:
    the entry list in memory is not told. *)
Theorem deleteEncryptedKey_removes (id : Z) (w : World) (s : Session) :
  store_ok w ->
  exists w',
    deleteEncryptedKey id (w, s) = (Normal tt, (w', s))
    /\ keys w' = List.filter (fun r => negb (rec_id r =? id)) (keys w)
    /\ Idb.get id (keys w') = None
    /\ (forall j, j <> id -> Idb.get j (keys w') = Idb.get j (keys w))
    /\ keyGenerator w' = keyGenerator w
    /\ credentials w' = credentials w
    /\ store_ok w'.
Proof.
  intros (Hasc & Hbelow & Hgen). eexists. split; [reflexivity|].
  cbn [fst snd keys keyGenerator credentials set_keys].
  split.
  { clear Hbelow. revert Hasc. generalize 0.
    induction (keys w) as [|x rows IH]; intros lo; simpl; [reflexivity|].
    intros [Hlo Hasc]. destruct (rec_id x =? id) eqn:E; simpl.
    - apply Z.eqb_eq in E. symmetry.
      apply List.forallb_filter_id. apply forallb_forall. intros r Hr.
      assert (Hnone := get_none_above id (rec_id x) rows Hasc ltac:(lia)).
      destruct (rec_id r =? id) eqn:E'; [|reflexivity].
      exfalso. clear -Hr E' Hnone. induction rows as [|y rows IH]; [easy|].
      simpl in Hnone. destruct Hr as [->|Hr].
      + now rewrite E' in Hnone.
      + destruct (rec_id y =? id); [discriminate|]. now apply IH.
    - f_equal. now apply (IH (rec_id x)). }
  split; [now apply (get_delete_same id 0)|].
  split; [intros j Hj; now apply get_delete_other|].
  split; [reflexivity|]. split; [reflexivity|].
  repeat split; [now apply ascending_delete|now apply below_delete|exact Hgen].
Qed.

End Helpers.

(** ** Input handling *)

Section Inputs.

Context {crypto : SubtleCrypto} {ethers : Ethers}.

(** X14: a rename that cannot be carried out changes nothing.  A label that
    is empty once trimmed is turned down with 'Label cannot be empty.'; an id
    field that is not a number, or the id of no row, ends in the handler's
    'Failed: ...' message.  In each case the stores and the globals are as
    before. *)
Theorem doRenameKey_refusals (keyIdInput labelInput : jsstring) (w : World)
    (s : Session) :
  (Js.trim labelInput = [] ->
   doRenameKey keyIdInput labelInput (w, s)
   = (Normal (Shown (Js.lit "Label cannot be empty.")), (w, s)))
  /\ (Js.trim labelInput <> [] ->
      Js.parseInt10 keyIdInput = Js.NaN ->
      exists msg,
        doRenameKey keyIdInput labelInput (w, s) = (Normal (Shown msg), (w, s)))
  /\ (forall k,
        Js.trim labelInput <> [] ->
        Js.parseInt10 keyIdInput = Js.Int k ->
        Idb.get k (keys w) = None ->
        doRenameKey keyIdInput labelInput (w, s)
        = (Normal (Shown (Js.lit "Failed: Key not found")), (w, s))).
Proof.
  unfold doRenameKey. split; [|split].
  - intros ->. reflexivity.
  - intros Hlabel ->. destruct (Js.trim labelInput); [congruence|].
    eexists. reflexivity.
  - intros k Hlabel -> Hget. destruct (Js.trim labelInput); [congruence|].
    cbn [Js.falsy]. unfold try_catch, updateKeyLabel, getEncryptedKeys, world,
      mbind, M_bind. cbn [fst snd]. now rewrite Hget.
Qed.

Lemma is_hex_not_space (c : Z) : Js.is_hex c = true -> Js.is_space c = false.
Proof.
  intros H. apply is_hex_ascii in H as Hlt.
  assert (0x30 <= c) by (unfold Js.is_hex, Js.is_digit in H; lia).
  unfold Js.is_space.
  repeat (apply orb_false_intro); try (apply Z.eqb_neq; lia).
  apply andb_false_iff. left. apply Z.leb_gt. lia.
Qed.

Lemma trimStart_head (c : Z) (s : jsstring) :
  Js.is_space c = false -> Js.trimStart (c :: s) = c :: s.
Proof. intros H. simpl. now rewrite H. Qed.

(** Trimming leaves alone a string that starts and ends with something else
    than white space. *)
Lemma trim_tight (s : jsstring) :
  Forall (fun c => Js.is_space c = false) s -> Js.trim s = s.
Proof.
  intros H. unfold Js.trim, Js.trimEnd.
  assert (Hstart : forall t, Forall (fun c => Js.is_space c = false) t ->
                             Js.trimStart t = t).
  { intros t [|c t' Hc _]; [reflexivity|now apply trimStart_head]. }
  rewrite (Hstart s H), Hstart, rev_involutive; [reflexivity|].
  now apply Forall_rev.
Qed.

Lemma hex_no_prefix (h : jsstring) :
  Forall (fun c => Js.is_hex c = true) h ->
  Js.startsWith (Js.lit "0x") h = false.
Proof.
  intros H. destruct H as [|c0 h Hc0 H]; [reflexivity|].
  cbn [Js.startsWith Js.lit map list_ascii_of_string].
  destruct H as [|c1 h Hc1 _].
  - now rewrite andb_false_r.
  - apply andb_false_iff. right. apply andb_false_iff. left.
    apply Z.eqb_neq. intros <-. discriminate.
Qed.

(** X15: the "0x" prefix is optional on import.  Hexadecimal digits typed
    with or without it are treated alike in everything: [doImportKey] returns
    the same report and leaves the same page. *)
Theorem doImportKey_prefix_optional (labelInput h : jsstring) (p : Page) :
  h <> [] ->
  Forall (fun c => Js.is_hex c = true) h ->
  doImportKey labelInput (Js.lit "0x" ++ h) p = doImportKey labelInput h p.
Proof.
  intros Hne Hhex.
  assert (Hspace : Forall (fun c => Js.is_space c = false) h).
  { eapply List.Forall_impl; [|exact Hhex]. apply is_hex_not_space. }
  assert (Ht1 : Js.trim h = h) by now apply trim_tight.
  assert (Ht2 : Js.trim (Js.lit "0x" ++ h) = Js.lit "0x" ++ h).
  { apply trim_tight. repeat (constructor; [reflexivity|]). exact Hspace. }
  unfold doImportKey. rewrite Ht1, Ht2.
  assert (Js.startsWith (Js.lit "0x") (Js.lit "0x" ++ h) = true) as -> by reflexivity.
  rewrite (hex_no_prefix h Hhex).
  destruct h as [|c h]; [congruence|]. reflexivity.
Qed.

(** X16: after an import that completes, [getActiveAddress] is the address
    derived for the imported key; after [lockWallet] it is the empty string.
    Neither call throws. *)
Theorem active_address_follows (labelInput keyInput address : jsstring)
    (aes : CryptoKey) (w : World) (s : Session) :
  walletState s = unlocked ->
  aesKey s = Some aes ->
  key_pattern_test (normalized_key keyInput) = true ->
  computeAddress (normalized_key keyInput) = Some address ->
  ethersLoaded s = true \/ cdn w = true ->
  Idb.below (keyGenerator w) (keys w) ->
  exists p1 p2,
    doImportKey labelInput keyInput (w, s) = (Normal Completed, p1)
    /\ getActiveAddress p1 = (Normal address, p1)
    /\ lockWallet p1 = (Normal tt, p2)
    /\ getActiveAddress p2 = (Normal [], p2).
Proof.
  intros Hst Haes Hpat Haddr Hload Hbelow.
  eexists _, _. split; [now apply (doImportKey_run _ _ address aes)|].
  split; [|split; [apply lockWallet_run|reflexivity]].
  unfold getActiveAddress, mbind, M_bind, global.
  cbn [fst snd id walletState decryptedKeys activeKeyIndex objects
       session_after_store set_storedKeyCount set_activeKeyIndex
       set_decryptedKeys set_objects set_ethersLoaded].
  rewrite Hst, length_app. cbn [length].
  replace (length (decryptedKeys s) + 1 =? 0)%nat with false
    by (symmetry; apply Nat.eqb_neq; lia).
  unfold Js.index.
  replace (_ <? 0) with false by (symmetry; apply Z.ltb_ge; lia).
  replace (Z.to_nat _) with (length (decryptedKeys s)) by lia.
  rewrite list_lookup_middle by reflexivity.
  unfold deref. cbn [objects session_after_store set_storedKeyCount
    set_activeKeyIndex set_decryptedKeys set_objects set_ethersLoaded].
  rewrite list_lookup_middle by reflexivity. reflexivity.
Qed.

End Inputs.

Lemma init_loads_witness :
  exists s',
    init (Toy.two_keys.1, initial) = (Normal tt, (Toy.two_keys.1, s'))
    /\ walletState s' = locked
    /\ storedKeyCount s' = 2%nat.
Proof.
  destruct (init_loads Toy.two_keys.1) as (s' & Hrun & _ & _ & _ & Hcred).
  destruct (Hcred (password_credential (firstn 32 Toy.octets) 1700000000000)
              ltac:(evaluate)) as (Hst & Hcount & _).
  exists s'. split; [exact Hrun|]. split; [exact Hst|].
  rewrite Hcount. evaluate.
Defined.

Lemma unlockWallet_without_prf_witness :
  @unlockWallet Toy.crypto (ToyMore.dismissing_page.1, ToyMore.dismissing_page.2)
  = (Normal Dismissed,
     (set_prompts 1 (set_drawn 32 ToyMore.dismissing_page.1),
      ToyMore.dismissing_page.2)).
Proof.
  exact (proj2 (@unlockWallet_without_prf Toy.crypto Toy.prf_credential
                  ToyMore.dismissing_page.1 ToyMore.dismissing_page.2
                  ltac:(evaluate) ltac:(evaluate))
           ltac:(vm_compute; discriminate)).
Defined.

Lemma adding_gated_on_key_witness :
  @generateKey Toy.crypto (Toy.reloaded.1, Toy.reloaded.2)
  = (Normal (Shown (Js.lit "Wallet is not unlocked.")),
     (Toy.reloaded.1, Toy.reloaded.2))
  /\ exists w' s' rec,
       @generateKey Toy.crypto
         (ToyMore.locked_with_key.1, ToyMore.locked_with_key.2)
       = (Normal Completed, (w', s'))
       /\ keys w' = keys ToyMore.locked_with_key.1 ++ [rec]
       /\ walletState s' = locked.
Proof.
  split.
  - exact (proj2 (proj1 (@adding_gated_on_key Toy.crypto Toy.ethers [] []
                           Toy.reloaded.1 Toy.reloaded.2) ltac:(evaluate))).
  - destruct (proj2 (@adding_gated_on_key Toy.crypto Toy.ethers [] []
                       ToyMore.locked_with_key.1 ToyMore.locked_with_key.2)
                (@deriveAESKeyFromPRF Toy.crypto Toy.prf_output)
                ltac:(evaluate) ltac:(evaluate) ltac:(right; evaluate)
                ltac:(vm_compute; repeat constructor))
      as (w' & s' & rec & Hrun & Hkeys & _ & Hst).
    exists w', s', rec. split; [exact Hrun|]. split; [exact Hkeys|exact Hst].
Defined.

Lemma saveEncryptedKey_then_list_witness :
  exists w' rows,
    (saveEncryptedKey
       {| new_label := Js.lit "Spare"; new_address := []; new_encrypted := [];
          new_iv := []; new_createdAt := 0 |};; getEncryptedKeys)
      (Toy.two_keys.1, Toy.two_keys.2)
    = (Normal rows, (w', Toy.two_keys.2))
    /\ map rec_id rows = [1; 2; 3].
Proof.
  destruct (saveEncryptedKey_then_list
              {| new_label := Js.lit "Spare"; new_address := []; new_encrypted := [];
                 new_iv := []; new_createdAt := 0 |}
              Toy.two_keys.1 Toy.two_keys.2
              (proj1 (proj2 (proj2 (proj2 toy_two_keys_ok)))))
    as (w' & Hrun & _).
  eexists _, _. split; [exact Hrun|]. evaluate.
Defined.

Lemma deleteEncryptedKey_removes_witness :
  exists w',
    deleteEncryptedKey 1 (Toy.two_keys.1, Toy.two_keys.2)
    = (Normal tt, (w', Toy.two_keys.2))
    /\ map rec_id (keys w') = [2]
    /\ length (entries Toy.two_keys.2) = 2%nat.
Proof.
  destruct (deleteEncryptedKey_removes 1 Toy.two_keys.1 Toy.two_keys.2
              (proj1 (proj2 (proj2 (proj2 toy_two_keys_ok)))))
    as (w' & Hrun & Hkeys & _).
  exists w'. split; [exact Hrun|]. split; [rewrite Hkeys|]; evaluate.
Defined.

Lemma doRenameKey_refusals_witness :
  doRenameKey (Js.lit "7") (Js.lit "Hot") (Toy.two_keys.1, Toy.two_keys.2)
  = (Normal (Shown (Js.lit "Failed: Key not found")),
     (Toy.two_keys.1, Toy.two_keys.2)).
Proof.
  exact (proj2 (proj2 (doRenameKey_refusals (Js.lit "7") (Js.lit "Hot")
                         Toy.two_keys.1 Toy.two_keys.2))
           7 ltac:(vm_compute; discriminate) ltac:(evaluate) ltac:(evaluate)).
Defined.

Lemma doImportKey_prefix_optional_witness :
  @doImportKey Toy.crypto Toy.ethers (Js.lit "Main") Toy.key_11
    (Toy.fresh.1, Toy.fresh.2)
  = @doImportKey Toy.crypto Toy.ethers (Js.lit "Main") (repeat 0x31 64)
      (Toy.fresh.1, Toy.fresh.2).
Proof.
  exact (@doImportKey_prefix_optional Toy.crypto Toy.ethers (Js.lit "Main")
           (repeat 0x31 64) (Toy.fresh.1, Toy.fresh.2)
           ltac:(vm_compute; discriminate)
           ltac:(vm_compute; repeat constructor)).
Defined.

Lemma active_address_follows_witness :
  exists p1 p2,
    @doImportKey Toy.crypto Toy.ethers (Js.lit "Main") Toy.key_11
      (Toy.fresh.1, Toy.fresh.2) = (Normal Completed, p1)
    /\ getActiveAddress p1 = (Normal (firstn 42 Toy.key_11), p1)
    /\ lockWallet p1 = (Normal tt, p2)
    /\ getActiveAddress p2 = (Normal [], p2).
Proof.
  exact (@active_address_follows Toy.crypto Toy.ethers (Js.lit "Main") Toy.key_11
           (firstn 42 Toy.key_11)
           (@deriveAESKeyFromPassword Toy.crypto Toy.password (firstn 32 Toy.octets))
           Toy.fresh.1 Toy.fresh.2
           ltac:(evaluate) ltac:(evaluate) ltac:(evaluate) ltac:(evaluate)
           ltac:(right; evaluate) ltac:(constructor)).
Defined.

(** ** The endpoint store *)

Section EndpointStore.

Import endpoint.
Context `{strings : Strings}.

Lemma head_rev {A} (l : list A) : head (rev l) = last l.
Proof.
  induction l as [|x l _] using rev_ind; [reflexivity|].
  by rewrite rev_unit, last_snoc.
Qed.

Lemma last_rev {A} (l : list A) : last (rev l) = head l.
Proof. by rewrite <- (rev_involutive l) at 2; rewrite head_rev. Qed.

Lemma TrimLeft_hyphen_suffix s : exists p, s = p ++ TrimLeft_hyphen s.
Proof.
  induction s as [|c s [p IH]]; [by exists []|].
  simpl. destruct (c =? 0x2D).
  - exists (c :: p). simpl. by f_equal.
  - by exists [].
Qed.

Lemma TrimLeft_hyphen_head s : head (TrimLeft_hyphen s) <> Some 0x2D.
Proof.
  induction s as [|c s IH]; [discriminate|].
  simpl. destruct (c =? 0x2D) eqn:E; [exact IH|].
  simpl. intros [= ->]. discriminate.
Qed.

Lemma TrimLeft_hyphen_Forall (P : Z -> Prop) s :
  Forall P s -> Forall P (TrimLeft_hyphen s).
Proof.
  intros H. destruct (TrimLeft_hyphen_suffix s) as [p E].
  rewrite E in H. by apply Forall_app in H as [_ H].
Qed.

Lemma Forall_rev_iff {A} (P : A -> Prop) (l : list A) :
  Forall P l -> Forall P (rev l).
Proof.
  rewrite !List.Forall_forall. intros H x Hx. apply H. by apply in_rev.
Qed.

Lemma Trim_hyphen_Forall (P : Z -> Prop) s :
  Forall P s -> Forall P (Trim_hyphen s).
Proof.
  intros H. unfold Trim_hyphen.
  by apply Forall_rev_iff, TrimLeft_hyphen_Forall, Forall_rev_iff,
    TrimLeft_hyphen_Forall.
Qed.

Lemma Trim_hyphen_edges s :
  head (Trim_hyphen s) <> Some 0x2D /\ last (Trim_hyphen s) <> Some 0x2D.
Proof.
  unfold Trim_hyphen. rewrite head_rev, last_rev. split.
  - destruct (TrimLeft_hyphen_suffix (rev (TrimLeft_hyphen s))) as [p E].
    destruct (TrimLeft_hyphen (rev (TrimLeft_hyphen s))) as [|c u] eqn:Eu;
      [discriminate|].
    intros Hl.
    assert (last (rev (TrimLeft_hyphen s)) = Some 0x2D) as Hr.
    { rewrite E. by rewrite last_app, Hl. }
    rewrite last_rev in Hr. by apply TrimLeft_hyphen_head in Hr.
  - apply TrimLeft_hyphen_head.
Qed.

(** X17: Whatever the name, the identifier [slugify] makes of it is not
    empty, consists of lower-case ASCII letters, digits and hyphens only, and
    neither starts nor ends with a hyphen. *)
Theorem slugify_shape (name : gostring) :
  slugify name <> []
  /\ Forall (fun c => slug_byte c = true) (slugify name)
  /\ head (slugify name) <> Some 0x2D
  /\ last (slugify name) <> Some 0x2D.
Proof.
  unfold slugify.
  set (t := slugRe_ReplaceAllString_empty _).
  assert (Forall (fun c => slug_byte c = true) (Trim_hyphen t)) as HF.
  { apply Trim_hyphen_Forall. unfold t, slugRe_ReplaceAllString_empty.
    apply List.Forall_forall. intros c Hc. by apply List.filter_In in Hc as [_ Hc]. }
  pose proof (Trim_hyphen_edges t) as [Hh Hl].
  destruct (Trim_hyphen t) as [|c u] eqn:E.
  - split; [discriminate|]. split; [|split]; [|discriminate..].
    vm_compute. repeat constructor.
  - split; [discriminate|]. by split; [|split].
Qed.

Lemma first_index_None id eps :
  first_index id eps = None <-> id ∉ map ID eps.
Proof.
  induction eps as [|e eps IH]; simpl.
  - split; [intros _; apply not_elem_of_nil | done].
  - rewrite not_elem_of_cons. destruct (decide (ID e = id)) as [E|E].
    + split; [discriminate | intros [H _]; by destruct H].
    + destruct (first_index id eps); simpl.
      * split; [discriminate|]. intros [_ H]. by apply IH in H.
      * split; [|done]. intros _. split; [congruence | by apply IH].
Qed.

Lemma first_index_Some id eps i :
  first_index id eps = Some i ->
  exists e, eps !! i = Some e /\ ID e = id
            /\ forall j e', (j < i)%nat -> eps !! j = Some e' -> ID e' <> id.
Proof.
  revert i. induction eps as [|e eps IH]; intros i; simpl; [discriminate|].
  destruct (decide (ID e = id)) as [E|E].
  - intros [= <-]. exists e. repeat split; [done|]. intros j e' Hj. lia.
  - destruct (first_index id eps) as [k|]; [|discriminate].
    intros [= <-]. destruct (IH k eq_refl) as (e0 & H1 & H2 & H3).
    exists e0. repeat split; [done..|].
    intros [|j] e' Hj; simpl.
    + by intros [= <-].
    + apply H3. lia.
Qed.

Lemma first_index_split id eps i :
  first_index id eps = Some i ->
  exists e, eps = take i eps ++ e :: drop (S i) eps /\ ID e = id
            /\ (id ∉ map ID (take i eps)) /\ length (take i eps) = i.
Proof.
  intros H. destruct (first_index_Some _ _ _ H) as (e & He & Hid & Hb).
  exists e. split; [by rewrite take_drop_middle|]. split; [done|].
  pose proof (lookup_lt_Some _ _ _ He) as Hlt.
  split; [|rewrite length_take; lia].
  intros Hin. apply list_elem_of_fmap in Hin as (e' & E' & Hin).
  apply list_elem_of_lookup in Hin as (j & Hj).
  pose proof (lookup_lt_Some _ _ _ Hj) as Hjl. rewrite length_take in Hjl.
  rewrite lookup_take_lt in Hj by lia. by apply (Hb j e'); [lia| |].
Qed.

Lemma lit_inj a b : Js.lit a = Js.lit b -> a = b.
Proof.
  unfold Js.lit. intros H.
  rewrite <- (string_of_list_ascii_of_string a), <- (string_of_list_ascii_of_string b).
  f_equal. revert H.
  generalize (list_ascii_of_string a) (list_ascii_of_string b).
  induction l as [|x l IH]; intros [|y k]; simpl; try discriminate; [done|].
  intros [= H1 H2]. f_equal; [|by apply IH].
  apply N2Z.inj in H1.
  by rewrite <- (ascii_N_embedding x), <- (ascii_N_embedding y), H1.
Qed.

Lemma decimal_inj n m :
  DecimalString.NilZero.string_of_uint (Nat.to_uint n)
  = DecimalString.NilZero.string_of_uint (Nat.to_uint m) -> n = m.
Proof.
  intros H.
  assert (forall k, Nat.to_uint k <> Decimal.Nil) as Hnn.
  { intros k E. pose proof (DecimalNat.Unsigned.of_to k) as Hk.
    rewrite E in Hk. simpl in Hk. subst k. discriminate. }
  apply DecimalNat.Unsigned.to_uint_inj.
  pose proof (DecimalString.NilZero.usu _ (Hnn n)) as H1.
  pose proof (DecimalString.NilZero.usu _ (Hnn m)) as H2.
  rewrite H in H1. congruence.
Qed.

Lemma Sprintf_s_d_inj base n m :
  Sprintf_s_d base n = Sprintf_s_d base m -> n = m.
Proof.
  unfold Sprintf_s_d. intros H. apply app_inv_head in H.
  apply app_inv_head in H. by apply lit_inj, decimal_inj in H.
Qed.

Lemma Sprintf_s_d_longer base n : Sprintf_s_d base n <> base.
Proof.
  unfold Sprintf_s_d. intros H. apply (f_equal length) in H.
  rewrite !length_app in H. simpl in H. lia.
Qed.

Lemma candidate_inj base j k : candidate base j = candidate base k -> j = k.
Proof.
  destruct j, k; simpl; intros H; [done| | |].
  - symmetry in H. by apply Sprintf_s_d_longer in H.
  - by apply Sprintf_s_d_longer in H.
  - apply Sprintf_s_d_inj in H. lia.
Qed.

Lemma unique_id_Some fuel s base k id :
  unique_id fuel s base (candidate base k) (S (S k)) = Some id ->
  exists j, (k <= j)%nat /\ id = candidate base j /\ (id ∉ ids s)
            /\ forall i, (k <= i < j)%nat -> candidate base i ∈ ids s.
Proof.
  revert k. induction fuel as [|fuel IH]; intros k; simpl; [discriminate|].
  unfold findLocked.
  destruct (first_index (candidate base k) (endpoints s)) as [i|] eqn:E.
  - intros H. change (Sprintf_s_d base (S (S k))) with (candidate base (S k)) in H.
    apply IH in H as (j & Hj & -> & Hn & Hb).
    exists j. split; [lia|]. split; [done|]. split; [done|].
    intros i' Hi'. destruct (decide (i' = k)) as [->|].
    + destruct (first_index_Some _ _ _ E) as (e & He & Hid & _).
      unfold ids. rewrite <- Hid. apply list_elem_of_fmap.
      exists e. split; [done|]. by eapply list_elem_of_lookup_2.
    + apply Hb. lia.
  - intros [= <-]. exists k. split; [lia|]. split; [done|].
    split; [by apply first_index_None|]. intros i' Hi'. lia.
Qed.

Lemma unique_id_None fuel s base k :
  unique_id fuel s base (candidate base k) (S (S k)) = None ->
  forall i, (k <= i < k + fuel)%nat -> candidate base i ∈ ids s.
Proof.
  revert k. induction fuel as [|fuel IH]; intros k; simpl; [intros _ i; lia|].
  unfold findLocked.
  destruct (first_index (candidate base k) (endpoints s)) as [i|] eqn:E;
    [|discriminate].
  intros H i' Hi'.
  change (Sprintf_s_d base (S (S k))) with (candidate base (S k)) in H.
  destruct (decide (i' = k)) as [->|].
  - destruct (first_index_Some _ _ _ E) as (e & He & Hid & _).
    unfold ids. rewrite <- Hid. apply list_elem_of_fmap.
    exists e. split; [done|]. by eapply list_elem_of_lookup_2.
  - apply (IH (S k) H). lia.
Qed.

Lemma unique_id_total fuel s base :
  (length (endpoints s) < fuel)%nat ->
  exists id, unique_id fuel s base base 2 = Some id.
Proof.
  intros Hf.
  destruct (unique_id fuel s base base 2) as [id|] eqn:E; [by exists id|].
  exfalso.
  pose proof (unique_id_None fuel s base 0 E) as Hall.
  assert (NoDup (candidate base <$> seq 0 fuel)) as Hnd.
  { apply NoDup_fmap_2_strong; [|apply NoDup_seq].
    intros j k _ _. apply candidate_inj. }
  apply NoDup_submseteq with (k := ids s) in Hnd.
  - apply submseteq_length in Hnd. unfold ids in Hnd.
    rewrite !length_fmap, length_seq in Hnd. lia.
  - intros x Hx. apply list_elem_of_fmap in Hx as (i & -> & Hi).
    apply elem_of_seq in Hi. apply Hall. lia.
Qed.

Lemma unique_id_fuel fuel fuel' s base id0 n id :
  unique_id fuel s base id0 n = Some id -> (fuel <= fuel')%nat ->
  unique_id fuel' s base id0 n = Some id.
Proof.
  revert fuel' id0 n. induction fuel as [|fuel IH]; intros fuel' id0 n;
    simpl; [discriminate|].
  intros H Hle. destruct fuel' as [|fuel']; [lia|]. simpl.
  destruct (findLocked s id0); [|done]. apply IH; [done|lia].
Qed.

(** X18: The loop of [Add] that looks for a free identifier ends after at
    most one test more than the store has endpoints: with that much fuel
    [Add] returns, and more fuel does not change what it returns. *)
Theorem Add_terminates (fuel : nat) (ep : Endpoint) (s : Store) (d : Disk) :
  (length (endpoints s) < fuel)%nat ->
  is_Some (Add fuel ep s d)
  /\ Add fuel ep s d = Add (S (length (endpoints s))) ep s d.
Proof.
  intros Hf. unfold Add.
  destruct (validate ep); [by split|].
  destruct (unique_id_total (S (length (endpoints s))) s (slugify (Name ep)))
    as [id Hid]; [lia|].
  rewrite Hid.
  rewrite (unique_id_fuel _ fuel _ _ _ _ _ Hid) by lia.
  split; [|done]. by destruct (save _ d) as [[err|] d'].
Qed.

(** X19: An accepted endpoint whose file write succeeds is appended to the
    list under the first identifier not in use among the slug of its name,
    the slug with [-2], the slug with [-3], ...; the endpoint returned
    carries that identifier, and the list written to the file is the new
    list. *)
Theorem Add_appends (fuel : nat) (ep : Endpoint) (s : Store) (d : Disk) :
  (length (endpoints s) < fuel)%nat ->
  validate ep = None ->
  faults d (writes d) = None ->
  exists k r s' d',
    Add fuel ep s d = Some (r, None, s', d')
    /\ r = with_ID ep (candidate (slugify (Name ep)) k)
    /\ (ID r ∉ ids s)
    /\ (forall j, (j < k)%nat -> candidate (slugify (Name ep)) j ∈ ids s)
    /\ endpoints s' = endpoints s ++ [r]
    /\ path s' = path s
    /\ saved d' = Some (endpoints s').
Proof.
  intros Hf Hv Hw. unfold Add. rewrite Hv.
  destruct (unique_id_total fuel s (slugify (Name ep)) Hf) as [id Hid].
  rewrite Hid.
  apply (unique_id_Some fuel s _ 0) in Hid as (k & _ & -> & Hfree & Hused).
  unfold save. simpl. rewrite Hw.
  eexists k, _, _, _. split; [reflexivity|]. simpl.
  repeat split; [done|]. intros j Hj. apply Hused. lia.
Qed.

(** X20: When [Add] returns an error, whether from one of its checks or
    from the file write, the store is as it was before the call and the
    endpoint returned is the zero value. *)
Theorem Add_error_keeps_store (fuel : nat) (ep r : Endpoint) (e : error)
    (s s' : Store) (d d' : Disk) :
  Add fuel ep s d = Some (r, Some e, s', d') ->
  s' = s /\ r = zero /\ saved d' = saved d.
Proof.
  unfold Add. destruct (validate ep).
  - by intros [= <- _ <- <-].
  - destruct (unique_id _ _ _ _ _) as [id|]; [|discriminate].
    unfold save. simpl. destruct (faults d (writes d)); [|discriminate].
    intros [= <- _ <- <-]. split; [|done].
    destruct s as [eps p]. unfold set_endpoints. simpl. f_equal.
    rewrite length_app. simpl.
    replace (length eps + 1 - 1)%nat with (length eps) by lia.
    by rewrite take_app_length.
Qed.

(** X21: [Add] keeps the identifiers of the store pairwise different,
    whatever it returns. *)
Theorem Add_keeps_ids_unique (fuel : nat) (ep r : Endpoint) (e : option error)
    (s s' : Store) (d d' : Disk) :
  NoDup (ids s) ->
  Add fuel ep s d = Some (r, e, s', d') ->
  NoDup (ids s').
Proof.
  intros Hnd. unfold Add. destruct (validate ep).
  - by intros [= _ _ <- _].
  - destruct (unique_id _ _ _ _ _) as [id|] eqn:Hid; [|discriminate].
    apply (unique_id_Some fuel s _ 0) in Hid as (k & _ & -> & Hfree & _).
    unfold save. simpl. destruct (faults d (writes d)).
    + intros [= _ _ <- _]. unfold ids. simpl.
      rewrite length_app. simpl.
      replace (length (endpoints s) + 1 - 1)%nat with (length (endpoints s)) by lia.
      by rewrite take_app_length.
    + intros [= _ _ <- _]. unfold ids. simpl. rewrite map_app. simpl.
      apply NoDup_app. split; [done|]. split; [|apply NoDup_singleton].
      intros x Hx ->%list_elem_of_singleton. by apply Hfree.
Qed.

(** X22: A successful [Update] replaces the first endpoint with the given
    identifier by the new fields under the same identifier, leaves every
    other position, the order and so all identifiers as they were, and the
    list written to the file is the new list. *)
Theorem Update_replaces (id : gostring) (ep r : Endpoint)
    (s s' : Store) (d d' : Disk) :
  Update id ep s d = (r, None, s', d') ->
  r = with_ID ep id
  /\ ids s' = ids s
  /\ (exists i, first_index id (endpoints s) = Some i
                /\ endpoints s' !! i = Some r
                /\ forall j, j <> i -> endpoints s' !! j = endpoints s !! j)
  /\ saved d' = Some (endpoints s').
Proof.
  unfold Update. destruct (validate ep); [discriminate|].
  destruct (first_index id (endpoints s)) as [i|] eqn:Hi; [|discriminate].
  unfold save. simpl. destruct (faults d (writes d)); [discriminate|].
  intros [= <- <- <-]. simpl.
  destruct (first_index_Some _ _ _ Hi) as (e0 & He0 & Hid & _).
  pose proof (lookup_lt_Some _ _ _ He0) as Hlt.
  split; [done|]. split; [|split; [|done]].
  - unfold ids. simpl.
    change (map ID (<[i:=with_ID ep id]> (endpoints s)))
      with (ID <$> <[i:=with_ID ep id]> (endpoints s)).
    rewrite list_fmap_insert. simpl. apply list_insert_id.
    by rewrite list_lookup_fmap, He0; simpl; rewrite Hid.
  - exists i. split; [done|]. split.
    + by apply list_lookup_insert_eq.
    + intros j Hj. by apply list_lookup_insert_ne.
Qed.

(** X23: When [Update] returns an error (a failed check, an unknown
    identifier or a failed file write) the store is as it was before
    the call and the endpoint returned is the zero value. *)
Theorem Update_error_keeps_store (id : gostring) (ep r : Endpoint) (e : error)
    (s s' : Store) (d d' : Disk) :
  Update id ep s d = (r, Some e, s', d') ->
  s' = s /\ r = zero /\ saved d' = saved d.
Proof.
  unfold Update. destruct (validate ep).
  - by intros [= <- _ <- <-].
  - destruct (first_index id (endpoints s)) as [i|] eqn:Hi.
    + unfold save. simpl. destruct (faults d (writes d)); [|discriminate].
      intros [= <- _ <- <-]. split; [|done].
      destruct (first_index_Some _ _ _ Hi) as (old & Hold & _).
      destruct s as [eps p]. unfold set_endpoints. simpl in *. f_equal.
      rewrite list_insert_insert_eq. apply list_insert_id.
      by rewrite (nth_lookup_Some _ _ _ _ Hold).
    + by intros [= <- _ <- <-].
Qed.

Lemma remove_first_filter id eps i :
  NoDup (map ID eps) ->
  first_index id eps = Some i ->
  take i eps ++ drop (S i) eps
  = List.filter (fun e => negb (bool_decide (ID e = id))) eps.
Proof.
  revert i. induction eps as [|e eps IH]; intros i Hnd; simpl; [discriminate|].
  apply NoDup_cons in Hnd as [Hnot Hnd].
  destruct (decide (ID e = id)) as [E|E].
  - intros [= <-]. simpl. rewrite bool_decide_eq_true_2 by done. simpl.
    rewrite drop_0. symmetry.
    rewrite <- E in *. clear IH Hnd E.
    induction eps as [|e' eps IH]; [done|]. simpl in *.
    apply not_elem_of_cons in Hnot as [Hne Hnot].
    rewrite bool_decide_eq_false_2 by congruence. simpl. f_equal. by apply IH.
  - destruct (first_index id eps) as [k|] eqn:Hk; [|discriminate].
    intros [= <-]. simpl. rewrite bool_decide_eq_false_2 by done. simpl.
    f_equal. by apply IH.
Qed.

(** X24: A successful [Delete] on a store whose identifiers are pairwise
    different removes exactly the endpoint with the given identifier: the
    others stay, in their order, the identifier is no longer in the store,
    and the list written to the file is the new list. *)
Theorem Delete_removes (id : gostring) (s s' : Store) (d d' : Disk) :
  NoDup (ids s) ->
  Delete id s d = (None, s', d') ->
  endpoints s' = List.filter (fun e => negb (bool_decide (ID e = id))) (endpoints s)
  /\ (id ∈ ids s)
  /\ (id ∉ ids s')
  /\ NoDup (ids s')
  /\ saved d' = Some (endpoints s').
Proof.
  intros Hnd. unfold Delete.
  destruct (first_index id (endpoints s)) as [i|] eqn:Hi; [|discriminate].
  unfold save, remove_in_place. simpl. destruct (faults d (writes d)); [discriminate|].
  intros [= <- <-]. simpl.
  rewrite (remove_first_filter _ _ _ Hnd Hi).
  split; [done|]. split; [|split; [|split; [|done]]].
  - destruct (first_index_Some _ _ _ Hi) as (e0 & He0 & Hid & _).
    unfold ids. rewrite <- Hid. apply list_elem_of_fmap. exists e0.
    split; [done|]. by eapply list_elem_of_lookup_2.
  - unfold ids. simpl. intros Hin.
    apply list_elem_of_fmap in Hin as (e' & E' & Hin).
    apply list_elem_of_In, List.filter_In in Hin as [_ Hin].
    rewrite bool_decide_eq_true_2 in Hin by done. discriminate.
  - unfold ids in *. simpl. rewrite <- (remove_first_filter _ _ _ Hnd Hi).
    destruct (first_index_split _ _ _ Hi) as (e0 & Hsplit & _).
    rewrite Hsplit in Hnd. rewrite map_app in *. simpl in Hnd.
    apply NoDup_app in Hnd as (H1 & H2 & H3).
    apply NoDup_cons in H3 as [_ H3].
    apply NoDup_app. split; [done|]. split; [|done].
    intros x Hx Hx'. apply (H2 x Hx). by right.
Qed.

(** X25: When the file write of [Delete] fails, the error is returned but
    the list is not put back: the slice kept for the roll-back shares its
    array with the shortened list.  The store keeps its length, the
    endpoints after the deleted one have moved one place down and the last
    one is there twice.  So, unless the deleted endpoint was the last one
    (then the store is as before), it is gone from the store although the
    list last written to the file still has it, and two endpoints share an
    identifier. *)
Theorem Delete_failed_write_loses_endpoint (id : gostring) (s : Store) (d : Disk)
    (i : nat) (cause : error) :
  NoDup (ids s) ->
  first_index id (endpoints s) = Some i ->
  faults d (writes d) = Some cause ->
  exists s' d',
    Delete id s d = (Some (Wrap (Js.lit "write endpoints: ") cause), s', d')
    /\ saved d' = saved d
    /\ endpoints s'
       = take i (endpoints s) ++ drop (S i) (endpoints s)
         ++ drop (length (endpoints s) - 1) (endpoints s)
    /\ length (endpoints s') = length (endpoints s)
    /\ (S i = length (endpoints s) -> s' = s)
    /\ ((S i < length (endpoints s))%nat ->
        (id ∉ ids s') /\ ~ NoDup (ids s')).
Proof.
  intros Hnd Hi Hw. unfold Delete. rewrite Hi.
  unfold save, remove_in_place. simpl. rewrite Hw.
  eexists _, _. split; [reflexivity|]. simpl. split; [done|]. split; [done|].
  destruct (first_index_split _ _ _ Hi) as (e0 & Hsplit & Hid & Hbefore & Hlen).
  destruct (first_index_Some _ _ _ Hi) as (e1 & He1 & _).
  pose proof (lookup_lt_Some _ _ _ He1) as Hlt.
  split; [|split].
  - rewrite !length_app, length_take, !length_drop. lia.
  - intros Hlast. destruct s as [eps p]. unfold set_endpoints. simpl in *.
    f_equal. rewrite (drop_ge eps (S i)) by lia. simpl.
    replace (length eps - 1)%nat with i by lia.
    by rewrite take_drop.
  - intros Hmid.
    set (eps := endpoints s) in *.
    assert (exists l x, drop (S i) eps = l ++ [x]
                        /\ drop (length eps - 1) eps = [x]) as (l & x & Hl & Hx).
    { destruct (drop (S i) eps) as [|y l] eqn:Ed using rev_ind.
      - apply (f_equal length) in Ed. rewrite length_drop in Ed. simpl in Ed. lia.
      - clear IHl. exists l, y. split; [done|].
        assert (length eps - 1 = S i + length l)%nat as ->.
        { apply (f_equal length) in Ed.
          rewrite length_drop, length_app in Ed. simpl in Ed. lia. }
        by rewrite <- drop_drop, Ed, drop_app_length. }
    rewrite Hl, Hx. unfold ids in *. simpl. fold eps in Hnd.
    rewrite Hsplit, Hl in Hnd. rewrite !map_app in *. simpl in *.
    apply NoDup_app in Hnd as (_ & _ & H3).
    apply NoDup_cons in H3 as [H3 _]. rewrite Hid in H3.
    rewrite map_app, elem_of_app in H3. simpl in H3. split.
    + rewrite !elem_of_app. tauto.
    + intros H. apply NoDup_app in H as (_ & _ & H).
      apply NoDup_app in H as (_ & H & _).
      apply (H (ID x)); [|by left].
      rewrite elem_of_app. right. by left.
Qed.

(** X26: An identifier that no endpoint of the store has: [Delete] and,
    for acceptable fields, [Update] return the not-found error and touch
    neither the store nor the file. *)
Theorem unknown_identifier (id : gostring) (ep : Endpoint) (s : Store) (d : Disk) :
  id ∉ ids s ->
  Delete id s d = (Some (NotFound id), s, d)
  /\ (validate ep = None -> Update id ep s d = (zero, Some (NotFound id), s, d)).
Proof.
  intros H. apply first_index_None in H.
  unfold Delete, Update. rewrite H. split; [done|]. by intros ->.
Qed.

End EndpointStore.

(** ** The endpoint store on the small library *)

Ltac decided := apply (bool_decide_unpack _); vm_compute; exact I.

Lemma Add_terminates_witness :
  is_Some (@endpoint.Add ToyStore.strings 4 ToyStore.wanted ToyStore.three
             ToyStore.sound)
  /\ @endpoint.Add ToyStore.strings 4 ToyStore.wanted ToyStore.three ToyStore.sound
     = @endpoint.Add ToyStore.strings 4 ToyStore.wanted ToyStore.three
         ToyStore.sound.
Proof.
  exact (@Add_terminates ToyStore.strings 4 ToyStore.wanted ToyStore.three
           ToyStore.sound ltac:(simpl; lia)).
Defined.

Lemma Add_appends_witness :
  exists k r s' d',
    @endpoint.Add ToyStore.strings 4 ToyStore.wanted ToyStore.three ToyStore.sound
    = Some (r, None, s', d')
    /\ r = endpoint.with_ID ToyStore.wanted
             (candidate (@endpoint.slugify ToyStore.strings
                           (endpoint.Name ToyStore.wanted)) k)
    /\ (endpoint.ID r ∉ ids ToyStore.three)
    /\ (forall j, (j < k)%nat ->
          candidate (@endpoint.slugify ToyStore.strings
                       (endpoint.Name ToyStore.wanted)) j ∈ ids ToyStore.three)
    /\ endpoint.endpoints s' = endpoint.endpoints ToyStore.three ++ [r]
    /\ endpoint.path s' = endpoint.path ToyStore.three
    /\ endpoint.saved d' = Some (endpoint.endpoints s').
Proof.
  exact (@Add_appends ToyStore.strings 4 ToyStore.wanted ToyStore.three
           ToyStore.sound ltac:(simpl; lia) ltac:(evaluate) ltac:(evaluate)).
Defined.

Lemma Add_error_keeps_store_witness :
  @endpoint.Add ToyStore.strings 4 ToyStore.wanted ToyStore.three ToyStore.full
  = Some (endpoint.zero, Some ToyStore.write_error, ToyStore.three,
          ToyStore.full_after)
  /\ ToyStore.three = ToyStore.three
  /\ endpoint.zero = endpoint.zero
  /\ endpoint.saved ToyStore.full_after = endpoint.saved ToyStore.full.
Proof.
  split; [evaluate|].
  exact (@Add_error_keeps_store ToyStore.strings 4 ToyStore.wanted endpoint.zero
           ToyStore.write_error ToyStore.three ToyStore.three ToyStore.full
           ToyStore.full_after ltac:(evaluate)).
Defined.

Lemma Add_keeps_ids_unique_witness :
  NoDup (ids ToyStore.three)
  /\ @endpoint.Add ToyStore.strings 4 ToyStore.wanted ToyStore.three ToyStore.sound
     = Some (ToyStore.added, None, ToyStore.four,
             ToyStore.sound_with (endpoint.endpoints ToyStore.four))
  /\ NoDup (ids ToyStore.four).
Proof.
  split; [decided|]. split; [evaluate|].
  exact (@Add_keeps_ids_unique ToyStore.strings 4 ToyStore.wanted ToyStore.added
           None ToyStore.three ToyStore.four ToyStore.sound
           (ToyStore.sound_with (endpoint.endpoints ToyStore.four))
           ltac:(decided) ltac:(evaluate)).
Defined.

Lemma Update_replaces_witness :
  @endpoint.Update ToyStore.strings (Js.lit "test") ToyStore.wanted ToyStore.three
    ToyStore.sound
  = (endpoint.with_ID ToyStore.wanted (Js.lit "test"), None, ToyStore.edited,
     ToyStore.sound_with (endpoint.endpoints ToyStore.edited))
  /\ ids ToyStore.edited = ids ToyStore.three
  /\ endpoint.endpoints ToyStore.edited !! 2%nat
     = Some (endpoint.with_ID ToyStore.wanted (Js.lit "test")).
Proof.
  split; [evaluate|].
  destruct (@Update_replaces ToyStore.strings (Js.lit "test") ToyStore.wanted
              (endpoint.with_ID ToyStore.wanted (Js.lit "test"))
              ToyStore.three ToyStore.edited ToyStore.sound
              (ToyStore.sound_with (endpoint.endpoints ToyStore.edited))
              ltac:(evaluate)) as (_ & Hids & _ & _).
  split; [exact Hids | reflexivity].
Defined.

Lemma Update_error_keeps_store_witness :
  @endpoint.Update ToyStore.strings (Js.lit "test") ToyStore.wanted ToyStore.three
    ToyStore.full
  = (endpoint.zero, Some ToyStore.write_error, ToyStore.three, ToyStore.full_after)
  /\ ToyStore.three = ToyStore.three
  /\ endpoint.zero = endpoint.zero
  /\ endpoint.saved ToyStore.full_after = endpoint.saved ToyStore.full.
Proof.
  split; [evaluate|].
  exact (@Update_error_keeps_store ToyStore.strings (Js.lit "test") ToyStore.wanted
           endpoint.zero ToyStore.write_error ToyStore.three ToyStore.three
           ToyStore.full ToyStore.full_after ltac:(evaluate)).
Defined.

Lemma Delete_removes_witness :
  endpoint.Delete (Js.lit "main-net") ToyStore.three ToyStore.sound
  = (None, ToyStore.two, ToyStore.sound_with (endpoint.endpoints ToyStore.two))
  /\ endpoint.endpoints ToyStore.two
     = List.filter
         (fun e => negb (bool_decide (endpoint.ID e = Js.lit "main-net")))
         (endpoint.endpoints ToyStore.three)
  /\ (Js.lit "main-net" ∈ ids ToyStore.three)
  /\ (Js.lit "main-net" ∉ ids ToyStore.two)
  /\ NoDup (ids ToyStore.two)
  /\ endpoint.saved (ToyStore.sound_with (endpoint.endpoints ToyStore.two))
     = Some (endpoint.endpoints ToyStore.two).
Proof.
  split; [evaluate|].
  exact (Delete_removes (Js.lit "main-net") ToyStore.three ToyStore.two
           ToyStore.sound (ToyStore.sound_with (endpoint.endpoints ToyStore.two))
           ltac:(decided) ltac:(evaluate)).
Defined.

Lemma Delete_failed_write_loses_endpoint_witness :
  endpoint.Delete (Js.lit "main-net") ToyStore.three ToyStore.full
  = (Some ToyStore.write_error, ToyStore.shifted, ToyStore.full_after)
  /\ exists s' d',
       endpoint.Delete (Js.lit "main-net") ToyStore.three ToyStore.full
       = (Some (endpoint.Wrap (Js.lit "write endpoints: ") (endpoint.Library 28)),
          s', d')
       /\ endpoint.saved d' = endpoint.saved ToyStore.full
       /\ endpoint.endpoints s'
          = take 0 (endpoint.endpoints ToyStore.three)
            ++ drop 1 (endpoint.endpoints ToyStore.three)
            ++ drop (length (endpoint.endpoints ToyStore.three) - 1)
                 (endpoint.endpoints ToyStore.three)
       /\ length (endpoint.endpoints s')
          = length (endpoint.endpoints ToyStore.three)
       /\ (1%nat = length (endpoint.endpoints ToyStore.three) -> s' = ToyStore.three)
       /\ ((1 < length (endpoint.endpoints ToyStore.three))%nat ->
           (Js.lit "main-net" ∉ ids s') /\ ~ NoDup (ids s')).
Proof.
  split; [evaluate|].
  exact (Delete_failed_write_loses_endpoint (Js.lit "main-net") ToyStore.three
           ToyStore.full 0 (endpoint.Library 28)
           ltac:(decided) ltac:(evaluate) ltac:(evaluate)).
Defined.

Lemma unknown_identifier_witness :
  endpoint.Delete (Js.lit "nope") ToyStore.three ToyStore.sound
  = (Some (endpoint.NotFound (Js.lit "nope")), ToyStore.three, ToyStore.sound)
  /\ (@endpoint.validate ToyStore.strings ToyStore.wanted = None ->
      @endpoint.Update ToyStore.strings (Js.lit "nope") ToyStore.wanted
        ToyStore.three ToyStore.sound
      = (endpoint.zero, Some (endpoint.NotFound (Js.lit "nope")), ToyStore.three,
         ToyStore.sound)).
Proof.
  exact (@unknown_identifier ToyStore.strings (Js.lit "nope") ToyStore.wanted
           ToyStore.three ToyStore.sound ltac:(decided)).
Defined.
